(** * TikzSketch: object store, geometry engine and TikZ code generator

    A shallow embedding of [src/lib/store.ts] (the zustand store: objects,
    selection, undo/redo history, drawing tools, constraints, geometric
    constructions), of the colour names, the bounds fitting and the
    document assembly of [src/components/CodeOutput.tsx], and of the
    snapping functions of [src/components/Canvas.tsx], followed by the
    properties proved about them.

    Numbers.  JavaScript numbers are IEEE doubles.  The store and the
    generator are embedded over exact rationals [Q]: every operation they
    use ([+], [-], [*], [/] by a non-zero constant, comparisons,
    [Math.min], [Math.max], [Math.floor], [Math.ceil], [toFixed]) is
    computable there, so every definition below can be run.  Rounding
    error, infinities and signed zeros are outside this idealisation.  The
    geometry functions that take square roots and arc cosines (the
    constructions of the store, the snapping of the canvas) are embedded
    over the reals [R]; the one non-finite value the constructions can
    produce from finite inputs, [NaN] out of [0 / 0], is kept explicit.

    State.  The store is a record threaded through the actions; an action
    that can throw returns an [option]. *)

From Stdlib Require Import ZArith QArith Qround Qminmax Qabs Qreals Reals.
From Stdlib Require Import Psatz Lia Sorted.
From Stdlib Require Import String Ascii List.
From stdpp Require Import base list strings pretty.

Local Open Scope Z_scope.

(** ** JavaScript array primitives *)

Module Js.

(** [arr[i]]: [undefined] outside [0 .. length-1]. *)
Definition nth {A : Type} (arr : list A) (i : Z) : option A :=
  if i <? 0 then None else arr !! Z.to_nat i.

(** Relative index of [Array.prototype.slice]: a negative index counts
    from the end; the result is clamped to [0 .. len]. *)
Definition relative_index (len i : Z) : Z :=
  if i <? 0 then Z.max (len + i) 0 else Z.min i len.

(** [arr.slice(start, stop)]. *)
Definition slice {A : Type} (arr : list A) (start stop : Z) : list A :=
  let len := Z.of_nat (length arr) in
  let k := relative_index len start in
  let final := relative_index len stop in
  take (Z.to_nat (final - k)) (drop (Z.to_nat k) arr).

(** [arr.slice(start)]. *)
Definition slice_from {A : Type} (arr : list A) (start : Z) : list A :=
  slice arr start (Z.of_nat (length arr)).

(** [arr.includes(s)] on an array of strings. *)
Definition includes (arr : list string) (s : string) : bool :=
  existsb (String.eqb s) arr.

(** [arr.findIndex(pred)], [None] standing for [-1]. *)
Fixpoint findIndex {A : Type} (pred : A -> bool) (arr : list A) : option nat :=
  match arr with
  | [] => None
  | a :: rest => if pred a then Some 0%nat else S <$> findIndex pred rest
  end.

End Js.

(** ** Data model ([store.ts], lines 6-140) *)

Record Point := mkPoint { px : Q; py : Q }.

Inductive ObjType :=
| TPoint | TLine | TRectangle | TCircle | TText | TPolygon | TAngle
| TPerpendicular | TParallel | TMidpoint | TDistance | TPerpBisector
| TFunction | TImage.

Definition ObjType_eqb (a b : ObjType) : bool :=
  match a, b with
  | TPoint, TPoint | TLine, TLine | TRectangle, TRectangle
  | TCircle, TCircle | TText, TText | TPolygon, TPolygon
  | TAngle, TAngle | TPerpendicular, TPerpendicular
  | TParallel, TParallel | TMidpoint, TMidpoint | TDistance, TDistance
  | TPerpBisector, TPerpBisector | TFunction, TFunction
  | TImage, TImage => true
  | _, _ => false
  end.

(** The string behind each tag of the [type] union. *)
Definition type_tag (t : ObjType) : string :=
  match t with
  | TPoint => "point" | TLine => "line" | TRectangle => "rectangle"
  | TCircle => "circle" | TText => "text" | TPolygon => "polygon"
  | TAngle => "angle" | TPerpendicular => "perpendicular"
  | TParallel => "parallel" | TMidpoint => "midpoint"
  | TDistance => "distance" | TPerpBisector => "perp_bisector"
  | TFunction => "function" | TImage => "image"
  end.

Inductive ConstraintType := center | start_point | end_point.

Record Constraint := mkConstraint {
  c_type : ConstraintType;
  targetId : string;
  offset : option Point
}.

Inductive ArrowStyle := arrow_none | arrow_arrow | arrow_stealth | arrow_latex.

Record NameStyle := mkNameStyle {
  ns_fontSize : option Q;
  ns_color : option string
}.

(** [DrawingObject].  An optional field ([f?: T]) is an [option].  The
    fields that only the renderer and the per-object emitter read
    (stroke pattern and opacities, font family and weight, image payload,
    arc angles, the two point references) are carried along unchanged by
    every function embedded here and are left out of the record. *)
Record DrawingObject := mkObject {
  obj_id : string;
  obj_type : ObjType;
  obj_name : string;
  visible : bool;
  selected : bool;
  showName : option bool;
  namePosition : option Point;
  nameStyle : option NameStyle;
  position : Point;
  stroke : string;
  strokeWidth : Q;
  fill : string;
  points : option (list Point);
  radius : option Q;
  width : option Q;
  height : option Q;
  text : option string;
  fontSize : option Q;
  rotation : option Q;
  scaleX : option Q;
  scaleY : option Q;
  flipX : option bool;
  flipY : option bool;
  arrowStart : option ArrowStyle;
  arrowEnd : option ArrowStyle;
  baseLineId : option string;
  createdAt : Z;
  constraints : option (list Constraint)
}.

(** Field assignments [obj.f = v]. *)
Definition set_selected (b : bool) (o : DrawingObject) : DrawingObject :=
  let (i, t, n, v, _, sn, np, ns, pos, st, sw, fl, pts, r, w, h, tx, fs,
       rot, sx, sy, fx, fy, a1, a2, bl, ca, cs) := o in
  mkObject i t n v b sn np ns pos st sw fl pts r w h tx fs
           rot sx sy fx fy a1 a2 bl ca cs.

Definition set_position (p : Point) (o : DrawingObject) : DrawingObject :=
  let (i, t, n, v, s, sn, np, ns, _, st, sw, fl, pts, r, w, h, tx, fs,
       rot, sx, sy, fx, fy, a1, a2, bl, ca, cs) := o in
  mkObject i t n v s sn np ns p st sw fl pts r w h tx fs
           rot sx sy fx fy a1 a2 bl ca cs.

Definition set_points (ps : option (list Point)) (o : DrawingObject)
  : DrawingObject :=
  let (i, t, n, v, s, sn, np, ns, pos, st, sw, fl, _, r, w, h, tx, fs,
       rot, sx, sy, fx, fy, a1, a2, bl, ca, cs) := o in
  mkObject i t n v s sn np ns pos st sw fl ps r w h tx fs
           rot sx sy fx fy a1 a2 bl ca cs.

Definition set_constraints (c : option (list Constraint)) (o : DrawingObject)
  : DrawingObject :=
  let (i, t, n, v, s, sn, np, ns, pos, st, sw, fl, pts, r, w, h, tx, fs,
       rot, sx, sy, fx, fy, a1, a2, bl, ca, _) := o in
  mkObject i t n v s sn np ns pos st sw fl pts r w h tx fs
           rot sx sy fx fy a1 a2 bl ca c.

(** [{ ...objectData, id: newObjectId, createdAt: Date.now() }]. *)
Definition with_id_createdAt (newObjectId : string) (now : Z)
  (objectData : DrawingObject) : DrawingObject :=
  let (_, t, n, v, s, sn, np, ns, pos, st, sw, fl, pts, r, w, h, tx, fs,
       rot, sx, sy, fx, fy, a1, a2, bl, _, cs) := objectData in
  mkObject newObjectId t n v s sn np ns pos st sw fl pts r w h tx fs
           rot sx sy fx fy a1 a2 bl now cs.

Inductive ConstructionMode :=
| mode_none | select_point | select_line | select_two_points.

(** [AppState].  The view settings ([canvas]) and the untyped scratch
    record [constructionData] are not read by any function embedded here
    and are left out. *)
Record AppState := mkState {
  activeTool : string;
  objects : list DrawingObject;
  selectedObjectIds : list string;
  history : list (list DrawingObject);
  historyIndex : Z;
  maxHistorySize : Z;
  isDrawing : bool;
  drawingStartPoint : option Point;
  previewObject : option DrawingObject;
  currentPolygonPoints : list Point;
  isPolygonDrawing : bool;
  constructionMode : ConstructionMode;
  constructionStep : Z;
  isSelectionBoxActive : bool;
  selectionBoxStart : option Point;
  selectionBoxEnd : option Point;
  isTextEditing : bool;
  textEditorPosition : option Point
}.

Definition set_objects (os : list DrawingObject) (s : AppState) : AppState :=
  let (at_, _, sel, hi, ix, mx, dr, dp, pv, pp, ip, cm, cst, sb, sbs, sbe,
       te, tp) := s in
  mkState at_ os sel hi ix mx dr dp pv pp ip cm cst sb sbs sbe te tp.

Definition set_selectedObjectIds (ids : list string) (s : AppState) : AppState :=
  let (at_, os, _, hi, ix, mx, dr, dp, pv, pp, ip, cm, cst, sb, sbs, sbe,
       te, tp) := s in
  mkState at_ os ids hi ix mx dr dp pv pp ip cm cst sb sbs sbe te tp.

Definition set_history (h : list (list DrawingObject)) (s : AppState)
  : AppState :=
  let (at_, os, sel, _, ix, mx, dr, dp, pv, pp, ip, cm, cst, sb, sbs, sbe,
       te, tp) := s in
  mkState at_ os sel h ix mx dr dp pv pp ip cm cst sb sbs sbe te tp.

Definition set_historyIndex (i : Z) (s : AppState) : AppState :=
  let (at_, os, sel, hi, _, mx, dr, dp, pv, pp, ip, cm, cst, sb, sbs, sbe,
       te, tp) := s in
  mkState at_ os sel hi i mx dr dp pv pp ip cm cst sb sbs sbe te tp.

Definition set_selectionBox (active : bool) (a b : option Point)
  (s : AppState) : AppState :=
  let (at_, os, sel, hi, ix, mx, dr, dp, pv, pp, ip, cm, cst, _, _, _,
       te, tp) := s in
  mkState at_ os sel hi ix mx dr dp pv pp ip cm cst active a b te tp.

(** The initial state of the store (lines 246-268). *)
Definition initialState : AppState :=
  {| activeTool := "select";
     objects := [];
     selectedObjectIds := [];
     history := [[]];
     historyIndex := 0;
     maxHistorySize := 50;
     isDrawing := false;
     drawingStartPoint := None;
     previewObject := None;
     currentPolygonPoints := [];
     isPolygonDrawing := false;
     constructionMode := mode_none;
     constructionStep := 0;
     isSelectionBoxActive := false;
     selectionBoxStart := None;
     selectionBoxEnd := None;
     isTextEditing := false;
     textEditorPosition := None |}.

(** ** Selection (lines 338-383) *)

(** [state.objects.forEach(obj => obj.selected = ids.includes(obj.id))]. *)
Definition mirror_selection (ids : list string) (os : list DrawingObject)
  : list DrawingObject :=
  map (fun obj => set_selected (Js.includes ids (obj_id obj)) obj) os.

Definition selectObject (id : string) (multiSelect : bool) (s : AppState)
  : AppState :=
  let ids :=
    if multiSelect then
      if Js.includes (selectedObjectIds s) id
      then filter (fun selectedId => selectedId ≠ id) (selectedObjectIds s)
      else selectedObjectIds s ++ [id]
    else [id] in
  set_objects (mirror_selection ids (objects s)) (set_selectedObjectIds ids s).

Definition selectObjects (ids : list string) (s : AppState) : AppState :=
  set_objects (mirror_selection ids (objects s)) (set_selectedObjectIds ids s).

Definition clearSelection (s : AppState) : AppState :=
  set_objects (map (set_selected false) (objects s))
    (set_selectedObjectIds [] s).

Definition selectAll (s : AppState) : AppState :=
  set_objects (map (set_selected true) (objects s))
    (set_selectedObjectIds (map obj_id (objects s)) s).

(** ** History (lines 514-560) *)

(** [JSON.parse(JSON.stringify(v))] on a value that is present: a deep
    copy, the identity on immutable data.  On [undefined]
    ([JSON.stringify] returns [undefined], which [JSON.parse] rejects)
    it throws. *)
Definition deepCopy {A : Type} (v : option A) : option A := v.

Definition saveToHistory (s : AppState) : AppState :=
  let currentObjects := objects s in
  let h1 :=
    if historyIndex s <? Z.of_nat (length (history s)) - 1
    then Js.slice (history s) 0 (historyIndex s + 1)
    else history s in
  let h2 := h1 ++ [currentObjects] in
  let h3 :=
    if maxHistorySize s <? Z.of_nat (length h2)
    then Js.slice_from h2 (- maxHistorySize s)
    else h2 in
  set_historyIndex (Z.of_nat (length h3) - 1) (set_history h3 s).

(** The body shared by [undo] and [redo] once the cursor has moved to [i]:
    restore the snapshot, clear the selection. [None]: the action throws. *)
Definition restore (i : Z) (s : AppState) : option AppState :=
  snapshot ← deepCopy (Js.nth (history s) i);
  Some (set_objects (map (set_selected false) snapshot)
          (set_selectedObjectIds [] (set_historyIndex i s))).

Definition undo (s : AppState) : option AppState :=
  if 0 <? historyIndex s then restore (historyIndex s - 1) s else Some s.

Definition redo (s : AppState) : option AppState :=
  if historyIndex s <? Z.of_nat (length (history s)) - 1
  then restore (historyIndex s + 1) s
  else Some s.

Definition canUndo (s : AppState) : bool := 0 <? historyIndex s.

Definition canRedo (s : AppState) : bool :=
  historyIndex s <? Z.of_nat (length (history s)) - 1.

(** ** Object management (lines 298-335) *)

(** [generateId()] and [Date.now()] are the two inputs the action draws
    from its environment; they are arguments here. *)
Definition addObject (objectData : DrawingObject) (newObjectId : string)
  (now : Z) (s : AppState) : AppState :=
  let newObject := with_id_createdAt newObjectId now objectData in
  let s1 := set_objects (objects s ++ [newObject]) s in
  saveToHistory (selectObject newObjectId false s1).

(** [Object.assign(state.objects[index], updates)]: the partial record
    [updates] acts on the object as the function [assign]. *)
Definition updateObject (id : string) (assign : DrawingObject -> DrawingObject)
  (s : AppState) : AppState :=
  let s1 :=
    match Js.findIndex (fun obj => String.eqb (obj_id obj) id) (objects s) with
    | Some index => set_objects (alter assign index (objects s)) s
    | None => s
    end in
  saveToHistory s1.

Definition deleteObject (id : string) (s : AppState) : AppState :=
  let s1 :=
    set_selectedObjectIds
      (filter (fun selectedId => selectedId ≠ id) (selectedObjectIds s))
      (set_objects (filter (fun obj => obj_id obj ≠ id) (objects s)) s) in
  saveToHistory s1.

Definition deleteSelectedObjects (s : AppState) : AppState :=
  fold_left (fun st id => deleteObject id st) (selectedObjectIds s) s.

(** [clearCanvas] (lines 748-769). *)
Definition clearCanvas (s : AppState) : AppState :=
  {| activeTool := activeTool s;
     objects := [];
     selectedObjectIds := [];
     history := [[]];
     historyIndex := 0;
     maxHistorySize := maxHistorySize s;
     isDrawing := false;
     drawingStartPoint := None;
     previewObject := None;
     currentPolygonPoints := [];
     isPolygonDrawing := false;
     constructionMode := mode_none;
     constructionStep := 0;
     isSelectionBoxActive := false;
     selectionBoxStart := None;
     selectionBoxEnd := None;
     isTextEditing := false;
     textEditorPosition := None |}.

(** ** Selection box (lines 386-472) *)

Definition startSelectionBox (point : Point) (s : AppState) : AppState :=
  set_selectionBox true (Some point) (selectionBoxEnd s) s.

Definition updateSelectionBox (point : Point) (s : AppState) : AppState :=
  set_selectionBox (isSelectionBoxActive s) (selectionBoxStart s) (Some point) s.

Definition cancelSelectionBox (s : AppState) : AppState :=
  set_selectionBox false None None s.

(** The bounding box of the two corners, [(minX, maxX, minY, maxY)]. *)
Definition boundingBox (a b : Point) : Q * Q * Q * Q :=
  (Qmin (px a) (px b), Qmax (px a) (px b),
   Qmin (py a) (py b), Qmax (py a) (py b)).

(** [p.x >= minX && p.x <= maxX && p.y >= minY && p.y <= maxY]. *)
Definition inside (box : Q * Q * Q * Q) (p : Point) : bool :=
  let '(minX, maxX, minY, maxY) := box in
  Qle_bool minX (px p) && Qle_bool (px p) maxX &&
  Qle_bool minY (py p) && Qle_bool (py p) maxY.

(** The [switch (obj.type)] of [finishSelectionBox]. *)
Definition isInBox (box : Q * Q * Q * Q) (obj : DrawingObject) : bool :=
  match obj_type obj with
  | TPoint => inside box (position obj)
  | TLine =>
      match points obj with
      | Some pts =>
          if (2 <=? length pts)%nat then existsb (inside box) pts else false
      | None => false
      end
  | TRectangle => inside box (position obj)
  | TCircle => inside box (position obj)
  | TText => inside box (position obj)
  | _ => inside box (position obj)
  end.

(** The [objects.forEach] loop, pushing ids onto [selectedIds]. *)
Definition boxSelectedIds (box : Q * Q * Q * Q) (objs : list DrawingObject)
  : list string :=
  fold_left
    (fun selectedIds obj =>
       if negb (visible obj) then selectedIds
       else if isInBox box obj then selectedIds ++ [obj_id obj]
       else selectedIds)
    objs [].

Definition finishSelectionBox (s : AppState) : AppState :=
  let s1 :=
    match selectionBoxStart s, selectionBoxEnd s with
    | Some a, Some b =>
        selectObjects (boxSelectedIds (boundingBox a b) (objects s)) s
    | _, _ => s
    end in
  set_selectionBox false None None s1.

(** ** Utilities (lines 713-746) *)

Definition getObjectById (id : string) (s : AppState) : option DrawingObject :=
  find (fun obj => String.eqb (obj_id obj) id) (objects s).

(** [type.charAt(0).toUpperCase() + type.slice(1)] on ASCII input. *)
Definition toUpperCase_ascii (c : ascii) : ascii :=
  let n := nat_of_ascii c in
  if ((97 <=? n) && (n <=? 122))%nat then ascii_of_nat (n - 32) else c.

Definition capitalize (type : string) : string :=
  match type with
  | EmptyString => EmptyString
  | String c rest => String (toUpperCase_ascii c) rest
  end.

Definition shortNames (type : string) : option string :=
  if String.eqb type "point" then Some "P"
  else if String.eqb type "line" then Some "L"
  else if String.eqb type "circle" then Some "C"
  else if String.eqb type "rectangle" then Some "R"
  else if String.eqb type "text" then Some "T"
  else if String.eqb type "polygon" then Some "Poly"
  else if String.eqb type "angle" then Some "α"
  else if String.eqb type "midpoint" then Some "M"
  else None.

(** [generateObjectName(type)].  Every call passes one of the tags of the
    [type] union, so the argument is a tag here. *)
Definition generateObjectName (type : ObjType) (s : AppState) : string :=
  let typeObjects :=
    List.filter (fun obj => ObjType_eqb (obj_type obj) type) (objects s) in
  let count := (length typeObjects + 1)%nat in
  let displayName := capitalize (type_tag type) in
  match shortNames (type_tag type) with
  | Some short => short +:+ pretty count
  | None => displayName +:+ pretty count
  end.

(** ** Constraints (lines 1049-1109) *)

Definition addConstraint (objectId : string) (constraint : Constraint)
  (s : AppState) : AppState :=
  match Js.findIndex (fun o => String.eqb (obj_id o) objectId) (objects s) with
  | Some index =>
      set_objects
        (alter (fun obj =>
                  set_constraints
                    (Some (default [] (constraints obj) ++ [constraint])) obj)
           index (objects s)) s
  | None => s
  end.

Definition removeConstraint (objectId : string) (target : string)
  (s : AppState) : AppState :=
  match Js.findIndex (fun o => String.eqb (obj_id o) objectId) (objects s) with
  | Some index =>
      set_objects
        (alter (fun obj =>
                  match constraints obj with
                  | Some cs =>
                      set_constraints
                        (Some (filter (fun c => targetId c ≠ target) cs)) obj
                  | None => obj
                  end)
           index (objects s)) s
  | None => s
  end.

(** [arr[i] = v].  Inside the array the element is replaced, at its end
    the array grows by one; further out JavaScript leaves a hole, and the
    result is no longer a [Point[]]: [None]. *)
Definition array_set {A : Type} (i : nat) (v : A) (arr : list A)
  : option (list A) :=
  if (i <? length arr)%nat then Some (<[i := v]> arr)
  else if (i =? length arr)%nat then Some (arr ++ [v])
  else None.

(** The [switch (constraint.type)] applied to the dependent [obj]. *)
Definition follow (constraint : Constraint) (target obj : DrawingObject)
  : option DrawingObject :=
  match c_type constraint with
  | center =>
      match obj_type obj with
      | TCircle =>
          let p := position target in
          Some (set_position
                  (match offset constraint with
                   | Some off => mkPoint (px p + px off) (py p + py off)
                   | None => p
                   end) obj)
      | _ => Some obj
      end
  | start_point =>
      match obj_type obj, points obj with
      | TLine, Some pts =>
          pts' ← array_set 0 (position target) pts;
          Some (set_position (position target) (set_points (Some pts') obj))
      | _, _ => Some obj
      end
  | end_point =>
      match obj_type obj, points obj with
      | TLine, Some pts =>
          pts' ← array_set 1 (position target) pts;
          Some (set_points (Some pts') obj)
      | _, _ => Some obj
      end
  end.

(** One iteration of the inner [obj.constraints.forEach], for the object
    at [index] of the draft [objs]; the target is looked up in the draft
    as it stands. *)
Definition applyConstraint (objectId : string) (index : nat)
  (objs : list DrawingObject) (constraint : Constraint)
  : option (list DrawingObject) :=
  if negb (String.eqb (targetId constraint) objectId) then Some objs
  else
    match find (fun o => String.eqb (obj_id o) objectId) objs with
    | None => Some objs
    | Some target =>
        match objs !! index with
        | None => Some objs
        | Some obj =>
            obj' ← follow constraint target obj;
            Some (<[index := obj']> objs)
        end
    end.

(** The outer [draft.objects.forEach]: one pass over the indices, each
    object taken with the constraint list it had when the pass reached
    it.  [None]: an assignment left a hole in a [points] array. *)
Definition constraintPass (objectId : string) (objs : list DrawingObject)
  : option (list DrawingObject) :=
  foldl
    (fun (draft : option (list DrawingObject)) (index : nat) =>
       d ← draft;
       match d !! index with
       | Some obj =>
           match constraints obj with
           | Some cs =>
               foldl (fun acc c => a ← acc; applyConstraint objectId index a c)
                 (Some d) cs
           | None => Some d
           end
       | None => Some d
       end)
    (Some objs) (seq 0 (length objs)).

Definition updateConstrainedObjects (objectId : string) (s : AppState)
  : option AppState :=
  objs ← constraintPass objectId (objects s);
  Some (set_objects objs s).

(** ** Geometry (lines 938-1046) *)

Definition calculateMidpoint (pointA pointB : Point) : Point :=
  {| px := (px pointA + px pointB) / 2;
     py := (py pointA + py pointB) / 2 |}%Q.

(** A point with real coordinates, and the rational points among them. *)
Record RPoint := mkRPoint { rx : R; ry : R }.

Definition toR (p : Point) : RPoint :=
  {| rx := Q2R (px p); ry := Q2R (py p) |}.

(** A coordinate that may be [NaN] ([None]). *)
Record NPoint := mkNPoint { nx : option R; ny : option R }.

(** [a / b] where a zero divisor only ever meets a zero dividend (see
    [perpendicular_zero_divisor] and [angle_zero_divisor] below):
    [0 / 0] is [NaN]. *)
Definition quotient (a b : R) : option R :=
  if Req_dec_T b 0 then None else Some (a / b)%R.

(** The object literal returned by the two line constructions; the fields
    are those of the literal, in its order. *)
Record ConstructedLine := mkConstructedLine {
  cl_type : ObjType;
  cl_name : string;
  cl_visible : bool;
  cl_selected : bool;
  cl_showName : bool;
  cl_position : NPoint;
  cl_points : list NPoint;
  cl_stroke : string;
  cl_strokeWidth : Z;
  cl_fill : string;
  cl_arrowStart : ArrowStyle;
  cl_arrowEnd : ArrowStyle;
  cl_baseLineId : string
}.

(** [c - unit * length] and [c + unit * length]; [NaN] propagates. *)
Definition minus_scaled (c : R) (unit : option R) (length : R) : option R :=
  u ← unit; Some (c - u * length)%R.

Definition plus_scaled (c : R) (unit : option R) (length : R) : option R :=
  u ← unit; Some (c + u * length)%R.

Definition calculatePerpendicularLine (lineId : string)
  (throughPoint : RPoint) (s : AppState) : option ConstructedLine :=
  match getObjectById lineId s with
  | None => None
  | Some baseLine =>
      match obj_type baseLine, points baseLine with
      | TLine, Some (p1 :: p2 :: _) =>
          let dx := (rx (toR p2) - rx (toR p1))%R in
          let dy := (ry (toR p2) - ry (toR p1))%R in
          let perpDx := (- dy)%R in
          let perpDy := dx in
          let length := 100%R in
          let magnitude := sqrt (perpDx * perpDx + perpDy * perpDy) in
          let unitX := quotient perpDx magnitude in
          let unitY := quotient perpDy magnitude in
          let startPoint :=
            {| nx := minus_scaled (rx throughPoint) unitX length;
               ny := minus_scaled (ry throughPoint) unitY length |} in
          let endPoint :=
            {| nx := plus_scaled (rx throughPoint) unitX length;
               ny := plus_scaled (ry throughPoint) unitY length |} in
          Some {| cl_type := TLine;
                  cl_name := generateObjectName TPerpendicular s;
                  cl_visible := true;
                  cl_selected := false;
                  cl_showName := true;
                  cl_position := startPoint;
                  cl_points := [startPoint; endPoint];
                  cl_stroke := "#ef4444";
                  cl_strokeWidth := 2;
                  cl_fill := "transparent";
                  cl_arrowStart := arrow_none;
                  cl_arrowEnd := arrow_none;
                  cl_baseLineId := lineId |}
      | _, _ => None
      end
  end.

Definition calculateParallelLine (lineId : string)
  (throughPoint : RPoint) (s : AppState) : option ConstructedLine :=
  match getObjectById lineId s with
  | None => None
  | Some baseLine =>
      match obj_type baseLine, points baseLine with
      | TLine, Some (p1 :: p2 :: _) =>
          let dx := (rx (toR p2) - rx (toR p1))%R in
          let dy := (ry (toR p2) - ry (toR p1))%R in
          let length := 100%R in
          let magnitude := sqrt (dx * dx + dy * dy) in
          let unitX := quotient dx magnitude in
          let unitY := quotient dy magnitude in
          let startPoint :=
            {| nx := minus_scaled (rx throughPoint) unitX length;
               ny := minus_scaled (ry throughPoint) unitY length |} in
          let endPoint :=
            {| nx := plus_scaled (rx throughPoint) unitX length;
               ny := plus_scaled (ry throughPoint) unitY length |} in
          Some {| cl_type := TLine;
                  cl_name := generateObjectName TParallel s;
                  cl_visible := true;
                  cl_selected := false;
                  cl_showName := true;
                  cl_position := startPoint;
                  cl_points := [startPoint; endPoint];
                  cl_stroke := "#10b981";
                  cl_strokeWidth := 2;
                  cl_fill := "transparent";
                  cl_arrowStart := arrow_none;
                  cl_arrowEnd := arrow_none;
                  cl_baseLineId := lineId |}
      | _, _ => None
      end
  end.

(** [Math.max(-1, Math.min(1, cosTheta))]. *)
Definition clampCos (cosTheta : R) : R := Rmax (-1) (Rmin 1 cosTheta).

(** [calculateAngle]; [None] is [NaN], which [Math.min], [Math.max],
    [Math.acos] and the conversion to degrees all pass on. *)
Definition calculateAngle (pointA vertex pointC : RPoint) : option R :=
  let vectorAB := mkRPoint (rx pointA - rx vertex) (ry pointA - ry vertex) in
  let vectorCB := mkRPoint (rx pointC - rx vertex) (ry pointC - ry vertex) in
  let dotProduct :=
    (rx vectorAB * rx vectorCB + ry vectorAB * ry vectorCB)%R in
  let magnitudeAB :=
    sqrt (rx vectorAB * rx vectorAB + ry vectorAB * ry vectorAB) in
  let magnitudeCB :=
    sqrt (rx vectorCB * rx vectorCB + ry vectorCB * ry vectorCB) in
  cosTheta ← quotient dotProduct (magnitudeAB * magnitudeCB);
  let angleRadians := acos (clampCos cosTheta) in
  let angleDegrees := (angleRadians * 180 / PI)%R in
  Some angleDegrees.

(** ** The store as a transition system *)

Inductive Action :=
| ASelectObject (id : string) (multiSelect : bool)
| ASelectObjects (ids : list string)
| AClearSelection
| ASelectAll
| AStartSelectionBox (point : Point)
| AUpdateSelectionBox (point : Point)
| AFinishSelectionBox
| ACancelSelectionBox
| AAddObject (objectData : DrawingObject) (newObjectId : string) (now : Z)
| AUpdateObject (id : string) (assign : DrawingObject -> DrawingObject)
| ADeleteObject (id : string)
| ADeleteSelectedObjects
| AAddConstraint (objectId : string) (constraint : Constraint)
| ARemoveConstraint (objectId : string) (target : string)
| AUpdateConstrainedObjects (objectId : string)
| ASaveToHistory
| AUndo
| ARedo
| AClearCanvas.

(** The state after an action; [None] when the action does not complete
    (it throws, or leaves the data model). *)
Definition run (a : Action) (s : AppState) : option AppState :=
  match a with
  | ASelectObject id multiSelect => Some (selectObject id multiSelect s)
  | ASelectObjects ids => Some (selectObjects ids s)
  | AClearSelection => Some (clearSelection s)
  | ASelectAll => Some (selectAll s)
  | AStartSelectionBox point => Some (startSelectionBox point s)
  | AUpdateSelectionBox point => Some (updateSelectionBox point s)
  | AFinishSelectionBox => Some (finishSelectionBox s)
  | ACancelSelectionBox => Some (cancelSelectionBox s)
  | AAddObject objectData newObjectId now =>
      Some (addObject objectData newObjectId now s)
  | AUpdateObject id assign => Some (updateObject id assign s)
  | ADeleteObject id => Some (deleteObject id s)
  | ADeleteSelectedObjects => Some (deleteSelectedObjects s)
  | AAddConstraint objectId constraint =>
      Some (addConstraint objectId constraint s)
  | ARemoveConstraint objectId target =>
      Some (removeConstraint objectId target s)
  | AUpdateConstrainedObjects objectId => updateConstrainedObjects objectId s
  | ASaveToHistory => Some (saveToHistory s)
  | AUndo => undo s
  | ARedo => redo s
  | AClearCanvas => Some (clearCanvas s)
  end.

(** The history invariant, and the bound on the capacity it rests on
    ([maxHistorySize] is [50] initially and no action assigns it). *)
Definition history_inv (s : AppState) : Prop :=
  0 <= historyIndex s < Z.of_nat (length (history s)).

Definition capacity_inv (s : AppState) : Prop := 1 <= maxHistorySize s.

Definition store_inv (s : AppState) : Prop := history_inv s /\ capacity_inv s.

(** The snapshot under the cursor, [history[historyIndex]]. *)
Definition currentSnapshot (s : AppState) : option (list DrawingObject) :=
  Js.nth (history s) (historyIndex s).

(** ** Code generator: numbers and formatting ([CodeOutput.tsx]) *)

Local Open Scope Q_scope.

(** [v || d] on an optional number: [undefined] and [0] both give [d]. *)
Definition orDefault (v : option Q) (d : Q) : Q :=
  match v with
  | Some n => if Qeq_bool n 0 then d else n
  | None => d
  end.

(** [str.length || d].  Names and texts are taken to be ASCII, where the
    number of bytes is the [length] JavaScript reports. *)
Definition lengthOr (str : string) (d : Q) : Q :=
  if (String.length str =? 0)%nat then d
  else inject_Z (Z.of_nat (String.length str)).

(** Truthiness of an optional boolean. *)
Definition isTrue (b : option bool) : bool :=
  match b with
  | Some true => true
  | _ => false
  end.

Definition Qltb (a b : Q) : bool := negb (Qle_bool b a).

(** [Math.floor] and [Math.ceil]. *)
Definition floor (v : Q) : Q := inject_Z (Qfloor v).
Definition ceil (v : Q) : Q := inject_Z (Qceiling v).

Definition pow10 (digits : nat) : Z := (10 ^ Z.of_nat digits)%Z.

(** [value.toFixed(digits)]: the integer [n] for which [n / 10^digits] is
    closest to [|value|], the larger one on a tie. *)
Definition toFixedScaled (digits : nat) (value : Q) : Z :=
  Qfloor (Qabs value * inject_Z (pow10 digits) + 0.5).

(** The number that [value.toFixed(digits)] denotes. *)
Definition toFixedNumber (digits : nat) (value : Q) : Q :=
  let magnitude :=
    inject_Z (toFixedScaled digits value) / inject_Z (pow10 digits) in
  if Qltb value 0 then - magnitude else magnitude.

Fixpoint zeros (n : nat) : string :=
  match n with
  | O => EmptyString
  | S k => String "0" (zeros k)
  end.

(** The string [value.toFixed(digits)]. *)
Definition toFixed (digits : nat) (value : Q) : string :=
  let n := toFixedScaled digits value in
  let whole := pretty (n / pow10 digits)%Z in
  let fraction := pretty (n mod pow10 digits)%Z in
  (if Qltb value 0 then "-" else "") +:+ whole +:+
  (if (digits =? 0)%nat then ""
   else "." +:+ zeros (digits - String.length fraction) +:+ fraction).

(** [formatCoord] (lines 819-827), and [pixelToTikZ] (lines 57-67), which
    formats [pixels / 28] in the same way. *)
Definition formatCoord (value : Q) : string :=
  if Qeq_bool value (floor value) then toFixed 0 value
  else if Qeq_bool (value * 2) (floor (value * 2)) then toFixed 1 value
  else toFixed 2 value.

Definition pixelToTikZ (pixels : Q) : string := formatCoord (pixels / 28).

(** [parseFloat(pixelToTikZ(pixels))]: the number the formatted string
    denotes. *)
Definition pixelToTikZ_number (pixels : Q) : Q :=
  let value := pixels / 28 in
  if Qeq_bool value (floor value) then toFixedNumber 0 value
  else if Qeq_bool (value * 2) (floor (value * 2)) then toFixedNumber 1 value
  else toFixedNumber 2 value.

Definition getOriginOffset : Point := mkPoint 0 0.

(** ** View bounds ([calculateBounds], lines 406-703) *)

Record Bounds := mkBounds { minX : Q; maxX : Q; minY : Q; maxY : Q }.

(** The four running extremes start at [Infinity] and [-Infinity]
    ([None]) and are always updated together. *)
Definition widen (acc : option Bounds) (b : Bounds) : option Bounds :=
  Some match acc with
       | None => b
       | Some a =>
           {| minX := Qmin (minX a) (minX b); maxX := Qmax (maxX a) (maxX b);
              minY := Qmin (minY a) (minY b); maxY := Qmax (maxY a) (maxY b) |}
       end.

Definition pointBounds (p : Point) : Bounds :=
  {| minX := px p; maxX := px p; minY := py p; maxY := py p |}.

(** [nameExtents] (lines 425-473). *)
Definition nameExtents (obj : DrawingObject) : Bounds :=
  let objX := px (position obj) in
  let objY := py (position obj) in
  if isTrue (showName obj) then
    let '(nameX, nameY) :=
      match namePosition obj with
      | Some np => (objX + px np, objY + py np)
      | None =>
          match obj_type obj with
          | TCircle => (objX, objY - orDefault (radius obj) 30 - 20)
          | TRectangle =>
              (objX + orDefault (width obj) 80 + 10,
               objY + orDefault (height obj) 60 / 2)
          | TPoint => (objX + 10, objY - 15)
          | TImage =>
              (objX + orDefault (width obj) 200 / 2,
               objY + orDefault (height obj) 150 + 15)
          | TText => (objX, objY - orDefault (fontSize obj) 16 / 2 - 15)
          | _ => (objX, objY - 15)
          end
      end in
    let nameLength := lengthOr (obj_name obj) 4 in
    let fontSize := orDefault (nameStyle obj ≫= ns_fontSize) 12 in
    let nameWidth := nameLength * fontSize * 0.7 in
    let nameHeight := fontSize * 1.2 in
    {| minX := Qmin objX (nameX - nameWidth / 2);
       maxX := Qmax objX (nameX + nameWidth / 2);
       minY := Qmin objY (nameY - nameHeight / 2);
       maxY := Qmax objY (nameY + nameHeight / 2) |}
  else pointBounds (position obj).

Section Generator.

(** [Math.cos] and [Math.sin] of an angle given in degrees
    ([Math.cos(deg * Math.PI / 180)]).  Their values are not rational;
    the bounds of an image are computed relative to them, and nothing
    proved below depends on what they return. *)
Variable cosDegrees sinDegrees : Q -> Q.

(** The footprint of the object itself, by type (lines 476-594); [acc]
    is the running [minX, maxX, minY, maxY]. *)
Definition objectExtents (acc : option Bounds) (obj : DrawingObject)
  : option Bounds :=
  let objX := px (position obj) in
  let objY := py (position obj) in
  let around (left right top bottom : Q) :=
    widen (widen acc (mkBounds left right top bottom)) (nameExtents obj) in
  match obj_type obj with
  | TCircle =>
      let radius := orDefault (radius obj) 30 in
      around (objX - radius) (objX + radius) (objY - radius) (objY + radius)
  | TRectangle =>
      let width := orDefault (width obj) 80 in
      let height := orDefault (height obj) 60 in
      around objX (objX + width) objY (objY + height)
  | TPoint | TMidpoint =>
      let pointRadius := orDefault (Some (strokeWidth obj)) 2 * 0.6 in
      around (objX - pointRadius) (objX + pointRadius)
             (objY - pointRadius) (objY + pointRadius)
  | TLine | TPolygon | TAngle | TPerpendicular | TParallel
  | TPerpBisector | TFunction =>
      let acc1 :=
        match points obj with
        | Some (p :: pts) =>
            fold_left (fun a point => widen a (pointBounds point))
              (p :: pts) acc
        | _ => widen acc (pointBounds (position obj))
        end in
      widen acc1 (nameExtents obj)
  | TText | TDistance =>
      let fontSize := orDefault (fontSize obj) 16 in
      let textWidth := lengthOr (default EmptyString (text obj)) 4
                       * fontSize * 0.6 in
      let textHeight := fontSize in
      around (objX - textWidth / 2) (objX + textWidth / 2)
             (objY - textHeight / 2) (objY + textHeight / 2)
  | TImage =>
      let imageWidth := orDefault (width obj) 200 in
      let imageHeight := orDefault (height obj) 150 in
      let scaleX := Qabs (orDefault (scaleX obj) 1
                          * (if isTrue (flipX obj) then -1 else 1)) in
      let scaleY := Qabs (orDefault (scaleY obj) 1
                          * (if isTrue (flipY obj) then -1 else 1)) in
      let rotation := - orDefault (rotation obj) 0 in
      let cos := Qabs (cosDegrees rotation) in
      let sin := Qabs (sinDegrees rotation) in
      let scaledWidth := imageWidth * scaleX in
      let scaledHeight := imageHeight * scaleY in
      let envelopeWidth := scaledWidth * cos + scaledHeight * sin in
      let envelopeHeight := scaledWidth * sin + scaledHeight * cos in
      let canvasCenterX := objX + imageWidth / 2 in
      let canvasCenterY := objY + imageHeight / 2 in
      around (canvasCenterX - envelopeWidth / 2)
             (canvasCenterX + envelopeWidth / 2)
             (canvasCenterY - envelopeHeight / 2)
             (canvasCenterY + envelopeHeight / 2)
  end.

(** The [objects.forEach] of [calculateBounds].  [None] after the loop
    is [hasVisibleObjects = false].  The list [naturalBoundaries] that
    the loop also fills is never read for the result and is left out. *)
Definition canvasExtents (objects : list DrawingObject) : option Bounds :=
  fold_left
    (fun acc obj => if negb (visible obj) then acc else objectExtents acc obj)
    objects None.

(** [roundToNice] (lines 650-665). *)
Definition roundToNice (value : Q) (isMin : bool) : Q :=
  let absValue := Qabs value in
  let step :=
    if Qltb absValue 1 then 0.5
    else if Qltb absValue 5 then 1
    else if Qltb absValue 20 then 2
    else if Qltb absValue 100 then 5
    else 10 in
  if isMin then floor (value / step) * step else ceil (value / step) * step.

Definition defaultBounds : Bounds := mkBounds (-3) 3 (-3) 3.

Definition calculateBounds (objects : list DrawingObject) : Bounds :=
  if (length objects =? 0)%nat then defaultBounds
  else
    match canvasExtents objects with
    | None => defaultBounds
    | Some canvas =>
        let offset := getOriginOffset in
        let tikzMinX := pixelToTikZ_number (minX canvas - px offset) in
        let tikzMaxX := pixelToTikZ_number (maxX canvas - px offset) in
        let tikzMinY := pixelToTikZ_number (- (maxY canvas - py offset)) in
        let tikzMaxY := pixelToTikZ_number (- (minY canvas - py offset)) in
        let rangeX := tikzMaxX - tikzMinX in
        let rangeY := tikzMaxY - tikzMinY in
        let basePadding := 1 in
        let paddingX := Qmax basePadding (rangeX * 0.1) in
        let paddingY := Qmax basePadding (rangeY * 0.1) in
        let finalMinX := roundToNice (tikzMinX - paddingX) true in
        let finalMaxX := roundToNice (tikzMaxX + paddingX) false in
        let finalMinY := roundToNice (tikzMinY - paddingY) true in
        let finalMaxY := roundToNice (tikzMaxY + paddingY) false in
        let finalRangeX := finalMaxX - finalMinX in
        let finalRangeY := finalMaxY - finalMinY in
        let minRange := 4 in
        if Qltb finalRangeX minRange then
          let midX := (finalMinX + finalMaxX) / 2 in
          {| minX := midX - minRange / 2; maxX := midX + minRange / 2;
             minY := finalMinY; maxY := finalMaxY |}
        else if Qltb finalRangeY minRange then
          let midY := (finalMinY + finalMaxY) / 2 in
          {| minX := finalMinX; maxX := finalMaxX;
             minY := midY - minRange / 2; maxY := midY + minRange / 2 |}
        else
          {| minX := finalMinX; maxX := finalMaxX;
             minY := finalMinY; maxY := finalMaxY |}
    end.

End Generator.

(** ** Document assembly ([generateColorDefinitions] and
    [generateTikZCode], lines 705-966) *)

Local Open Scope string_scope.

(** The display toggles held by the component. *)
Record Options := mkOptions {
  showCoordinates : bool;
  showDocumentWrapper : bool;
  showNameComments : bool;
  showNameLabels : bool
}.

(** The line feed of the template literals. *)
Definition nl : string := String (ascii_of_nat 10) EmptyString.

Definition mapChars (f : ascii -> ascii) (str : string) : string :=
  string_of_list_ascii (map f (list_ascii_of_string str)).

Definition toLowerCase_ascii (c : ascii) : ascii :=
  let n := nat_of_ascii c in
  if ((65 <=? n) && (n <=? 90))%nat then ascii_of_nat (n + 32) else c.

Definition toLowerCase : string -> string := mapChars toLowerCase_ascii.
Definition toUpperCase : string -> string := mapChars toUpperCase_ascii.

(** [str.slice(1)]. *)
Definition dropFirst (str : string) : string :=
  match str with
  | EmptyString => EmptyString
  | String _ rest => rest
  end.

Definition isHexDigit (c : ascii) : bool :=
  let n := nat_of_ascii c in
  (((48 <=? n) && (n <=? 57)) || ((65 <=? n) && (n <=? 70))
   || ((97 <=? n) && (n <=? 102)))%nat.

(** [/^#[0-9A-F]{6}$/i.test(color)]. *)
Definition isValidHexColor (color : string) : bool :=
  match color with
  | String "#" digits =>
      (String.length digits =? 6)%nat
      && forallb isHexDigit (list_ascii_of_string digits)
  | _ => false
  end.

Definition commonColors : list string :=
  ["#000000"; "#ffffff"; "#3b82f6"; "#ef4444"; "#10b981"; "#f59e0b";
   "#8b5cf6"; "#ec4899"; "#6b7280"; "#1f2937"].

(** [customColors.add(color)] on an insertion-ordered [Set]. *)
Definition setAdd (color : string) (customColors : list string)
  : list string :=
  if Js.includes customColors color then customColors
  else customColors ++ [color].

Definition isCustomColor (color : string) : bool :=
  negb (String.eqb color "") && isValidHexColor color
  && negb (Js.includes commonColors (toLowerCase color)).

Definition collectColors (customColors : list string) (obj : DrawingObject)
  : list string :=
  if visible obj then
    let c1 :=
      if negb (String.eqb (stroke obj) "transparent")
         && isCustomColor (stroke obj)
      then setAdd (toLowerCase (stroke obj)) customColors
      else customColors in
    let c2 :=
      if negb (String.eqb (fill obj) "transparent") && isCustomColor (fill obj)
      then setAdd (toLowerCase (fill obj)) c1
      else c1 in
    match nameStyle obj ≫= ns_color with
    | Some color =>
        if isCustomColor color then setAdd (toLowerCase color) c2 else c2
    | None => c2
    end
  else customColors.

Definition generateColorDefinitions (objects : list DrawingObject) : string :=
  let customColors := fold_left collectColors objects [] in
  String.concat nl
    (map (fun color =>
            let colorName := "customcolor" +:+ toUpperCase (dropFirst color) in
            "% Custom color: " +:+ color +:+ nl +:+
            "\definecolor{" +:+ colorName +:+ "}{HTML}{" +:+
            toUpperCase (dropFirst color) +:+ "}")
       customColors).

Definition documentHeader (opts : Options) (objects : list DrawingObject)
  : string :=
  let colorDefinitions := generateColorDefinitions objects in
  let hasImages :=
    existsb (fun obj => ObjType_eqb (obj_type obj) TImage && visible obj)
      objects in
  if showDocumentWrapper opts then
    "\documentclass[tikz,border=10pt]{standalone}" +:+ nl +:+
    "\usepackage{tikz}" +:+ nl +:+
    "\usepackage{xcolor}" +:+ nl +:+
    "\usepackage{ulem}" +:+
    (if hasImages then nl +:+ "\usepackage{graphicx}" else "") +:+ nl +:+
    "\usetikzlibrary{arrows.meta}" +:+ nl +:+
    "\usetikzlibrary{shapes.geometric}" +:+ nl +:+
    "\usetikzlibrary{calc}" +:+ nl +:+
    "\usetikzlibrary{positioning}" +:+ nl +:+
    (if String.eqb colorDefinitions "" then ""
     else colorDefinitions +:+ nl) +:+
    "\begin{document}" +:+ nl +:+
    "\begin{tikzpicture}"
  else "\begin{tikzpicture}".

Definition documentFooter (opts : Options) : string :=
  if showDocumentWrapper opts then
    "\end{tikzpicture}" +:+ nl +:+ "\end{document}"
  else "\end{tikzpicture}".

(** The body emitted for an empty scene (lines 951-955). *)
Definition emptyBody : string :=
  nl +:+ "      " +:+ nl +:+
  "  % No objects to draw" +:+ nl +:+
  "  % Use the tools in the toolbar to create geometric shapes" +:+ nl +:+
  "  ".

Local Open Scope Q_scope.

(** [getGridStep] (lines 783-797). *)
Definition getGridStep (range : Q) : Q :=
  let targetLines := 10 in
  let roughStep := range / targetLines in
  if Qle_bool roughStep 0.25 then 0.25
  else if Qle_bool roughStep 0.5 then 0.5
  else if Qle_bool roughStep 1 then 1
  else if Qle_bool roughStep 2 then 2
  else if Qle_bool roughStep 5 then 5
  else if Qle_bool roughStep 10 then 10
  else if Qle_bool roughStep 20 then 20
  else if Qle_bool roughStep 50 then 50
  else ceil (roughStep / 10) * 10.

(** The tick-spacing ladder (lines 885-891 and 923-929). *)
Definition tickSpacing (axisRange : Q) : Q :=
  let targetTicks := 10 in
  let roughTickSpacing := axisRange / targetTicks in
  if Qle_bool roughTickSpacing 0.25 then 0.25
  else if Qle_bool roughTickSpacing 0.5 then 0.5
  else if Qle_bool roughTickSpacing 1 then 1
  else if Qle_bool roughTickSpacing 2 then 2
  else if Qle_bool roughTickSpacing 5 then 5
  else ceil roughTickSpacing.

(** [for (let x = start; x <= stop; x += spacing) if (|x| >= spacing * 0.1)
    ticks.push(x)], unrolled at most [fuel] times. *)
Fixpoint tickLoop (fuel : nat) (x stop spacing : Q) : list Q :=
  match fuel with
  | O => []
  | S fuel' =>
      if Qle_bool x stop then
        let rest := tickLoop fuel' (x + spacing) stop spacing in
        if Qle_bool (spacing * 0.1) (Qabs x) then x :: rest else rest
      else []
  end.

(** The number of times the loop body can run: the guard fails after
    [floor((stop - start) / spacing) + 1] rounds
    (see [tickLoop_enough_fuel]). *)
Definition tickRounds (start stop spacing : Q) : nat :=
  Z.to_nat (Qfloor ((stop - start) / spacing) + 1).

Definition ticks (axisMin axisMax : Q) : list Q :=
  let spacing := tickSpacing (axisMax - axisMin) in
  let startTick := ceil (axisMin / spacing) * spacing in
  tickLoop (tickRounds startTick axisMax spacing) startTick axisMax spacing.

Local Open Scope string_scope.

(** The coordinate system drawn for the given view bounds
    (lines 779-947). *)
Definition coordinateSystemCode (bounds : Bounds) : string :=
  let rangeX := (maxX bounds - minX bounds)%Q in
  let rangeY := (maxY bounds - minY bounds)%Q in
  let stepX := getGridStep rangeX in
  let stepY := getGridStep rangeY in
  let gridMinX := (floor (minX bounds / stepX) * stepX)%Q in
  let gridMaxX := (ceil (maxX bounds / stepX) * stepX)%Q in
  let gridMinY := (floor (minY bounds / stepY) * stepY)%Q in
  let gridMaxY := (ceil (maxY bounds / stepY) * stepY)%Q in
  let xAxisInBounds := Qle_bool (minY bounds) 0 && Qle_bool 0 (maxY bounds) in
  let yAxisInBounds := Qle_bool (minX bounds) 0 && Qle_bool 0 (maxX bounds) in
  let originInBounds := yAxisInBounds && xAxisInBounds in
  let axisMargin := (Qmin stepX stepY * 0.3)%Q in
  let axisMinX := (gridMinX + axisMargin)%Q in
  let axisMaxX := (gridMaxX - axisMargin)%Q in
  let axisMinY := (gridMinY + axisMargin)%Q in
  let axisMaxY := (gridMaxY - axisMargin)%Q in
  nl +:+ "  " +:+ nl +:+ "  % Smart coordinate system" +:+
  (if Qle_bool 1 stepX && Qle_bool 1 stepY then
     nl +:+ "  \draw[gray!15, very thin] (" +:+ formatCoord gridMinX +:+ ","
     +:+ formatCoord gridMinY +:+ ") grid[step=0.5] ("
     +:+ formatCoord gridMaxX +:+ "," +:+ formatCoord gridMaxY +:+ ");"
   else "") +:+
  nl +:+ "  \draw[gray!25, thin] (" +:+ formatCoord gridMinX +:+ ","
  +:+ formatCoord gridMinY +:+ ") grid["
  +:+ (if Qeq_bool stepX stepY then "step=" +:+ formatCoord stepX
       else "xstep=" +:+ formatCoord stepX +:+ ", ystep="
            +:+ formatCoord stepY)
  +:+ "] (" +:+ formatCoord gridMaxX +:+ "," +:+ formatCoord gridMaxY
  +:+ ");" +:+
  (if xAxisInBounds then
     nl +:+ "  \draw[->] (" +:+ formatCoord axisMinX +:+ ",0) -- ("
     +:+ formatCoord axisMaxX +:+ ",0) node[right] {$x$};"
   else "") +:+
  (if yAxisInBounds then
     nl +:+ "  \draw[->] (0," +:+ formatCoord axisMinY +:+ ") -- (0,"
     +:+ formatCoord axisMaxY +:+ ") node[above] {$y$};"
   else "") +:+
  (if originInBounds then
     let originLabelPos :=
       if Qltb (-0.5) (minX bounds) && Qltb (-0.5) (minY bounds)
       then "above right"
       else if Qltb (maxX bounds) 0.5 && Qltb (-0.5) (minY bounds)
       then "above left"
       else if Qltb (-0.5) (minX bounds) && Qltb (maxY bounds) 0.5
       then "below right"
       else "below left" in
     nl +:+ "  \fill (0,0) circle (1pt) node[" +:+ originLabelPos
     +:+ "] {$O$};"
   else "") +:+
  (if xAxisInBounds then
     String.concat ""
       (map (fun x =>
               nl +:+ "  \draw (" +:+ formatCoord x
               +:+ ",0) +(0,-1.5pt) -- +(0,1.5pt) node[below] {\footnotesize $"
               +:+ formatCoord x +:+ "$};")
          (ticks axisMinX axisMaxX))
   else "") +:+
  (if yAxisInBounds then
     String.concat ""
       (map (fun y =>
               nl +:+ "  \draw (0," +:+ formatCoord y
               +:+ ") +(-1.5pt,0) -- +(1.5pt,0) node[left] {\footnotesize $"
               +:+ formatCoord y +:+ "$};")
          (ticks axisMinY axisMaxY))
   else "").

(** [code.trim()] is the empty string. *)
Definition isWhitespace (c : ascii) : bool :=
  let n := nat_of_ascii c in
  (((9 <=? n) && (n <=? 13)) || (n =? 32))%nat.

Definition isBlank (code : string) : bool :=
  forallb isWhitespace (list_ascii_of_string code).

(** [[...objects].sort((a, b) => a.createdAt - b.createdAt)]: a stable
    sort, here by insertion. *)
Fixpoint insertByCreatedAt (obj : DrawingObject) (sorted : list DrawingObject)
  : list DrawingObject :=
  match sorted with
  | [] => [obj]
  | o :: rest =>
      if (createdAt obj <? createdAt o)%Z then obj :: o :: rest
      else o :: insertByCreatedAt obj rest
  end.

Definition sortByCreatedAt (objects : list DrawingObject)
  : list DrawingObject :=
  fold_left (fun sorted obj => insertByCreatedAt obj sorted) objects [].

Section Document.

Variable cosDegrees sinDegrees : Q -> Q.

(** [generateObjectCode] (lines 86-403), the emitter of the statements
    of one object.  The document assembly only concatenates what it
    returns; it is a parameter here. *)
Variable generateObjectCode : Options -> DrawingObject -> string.

Definition generateTikZCode (opts : Options) (objects : list DrawingObject)
  : string :=
  let header := documentHeader opts objects in
  let footer := documentFooter opts in
  let coordinateSystem :=
    if showCoordinates opts
    then coordinateSystemCode (calculateBounds cosDegrees sinDegrees objects)
    else "" in
  if (length objects =? 0)%nat then
    header +:+ emptyBody +:+ coordinateSystem +:+ nl +:+ footer
  else
    let sortedObjects := sortByCreatedAt objects in
    let body :=
      nl +:+ String.concat nl
               (List.filter (fun code => negb (isBlank code))
                  (map (generateObjectCode opts) sortedObjects)) in
    header +:+ coordinateSystem +:+ body +:+ nl +:+ footer.

End Document.

Local Close Scope string_scope.
Local Close Scope Q_scope.

(** ** Persistence (lines 1178-1189)

    On start-up the saved objects are put back with
    [useAppStore.setState({ objects })]; the history is not touched. *)
Definition loadSavedObjects (saved : list DrawingObject) (s : AppState)
  : AppState :=
  set_objects saved s.

(** ** Vocabulary of the statements *)

(** [s'] has the history, cursor and capacity of [s]. *)
Definition same_history (s s' : AppState) : Prop :=
  history s' = history s /\ historyIndex s' = historyIndex s /\
  maxHistorySize s' = maxHistorySize s.

(** The history of [saveToHistory] once the redo tail is cut and the
    snapshot appended, before the capacity is enforced. *)
Definition appended (s : AppState) : list (list DrawingObject) :=
  (if historyIndex s <? Z.of_nat (length (history s)) - 1
   then Js.slice (history s) 0 (historyIndex s + 1)
   else history s) ++ [objects s].

(** [w] lies between [u] and [v], whichever of the two is smaller. *)
Definition between (u v w : Q) : Prop :=
  (u <= w /\ w <= v)%Q \/ (v <= w /\ w <= u)%Q.

(** [p] lies in the axis-aligned rectangle spanned by the corners [a], [b]. *)
Definition inRectangle (a b p : Point) : Prop :=
  between (px a) (px b) (px p) /\ between (py a) (py b) (py p).

(** What the selection box tests: a line by its points (it needs two of
    them), every other type by its anchor. *)
Definition hitsRectangle (a b : Point) (obj : DrawingObject) : Prop :=
  match obj_type obj with
  | TLine =>
      exists pts, points obj = Some pts /\ (2 <= length pts)%nat /\
                  exists p, p ∈ pts /\ inRectangle a b p
  | _ => inRectangle a b (position obj)
  end.

(** The test as the specification words it: the types whose geometry is a
    sequence of points (lines, polygons, angle markers) by any of their
    points, the others by their anchor. *)
Definition isMultiPoint (t : ObjType) : bool :=
  match t with
  | TLine | TPolygon | TAngle => true
  | _ => false
  end.

Definition claimedInBox (box : Q * Q * Q * Q) (obj : DrawingObject) : bool :=
  if isMultiPoint (obj_type obj)
  then existsb (inside box) (default [] (points obj))
  else inside box (position obj).

Definition claimedBoxSelection (a b : Point) (objs : list DrawingObject)
  : list string :=
  map obj_id
    (List.filter (fun obj => visible obj && claimedInBox (boundingBox a b) obj)
       objs).

(** The base object of a line construction is missing, is not a line, or
    has fewer than two points. *)
Definition unusableBase (lineId : string) (s : AppState) : Prop :=
  match getObjectById lineId s with
  | None => True
  | Some baseLine =>
      obj_type baseLine <> TLine \/
      (length (default [] (points baseLine)) < 2)%nat
  end.

(** Rectangles of the canvas: [b] contains the point [p]; [b] contains
    the rectangle [a]. *)
Definition encloses (b : Bounds) (p : Point) : Prop :=
  ((minX b <= px p /\ px p <= maxX b) /\
   (minY b <= py p /\ py p <= maxY b))%Q.

Definition within (a b : Bounds) : Prop :=
  ((minX b <= minX a /\ maxX a <= maxX b) /\
   (minY b <= minY a /\ maxY a <= maxY b))%Q.

(** The coordinates at which the generator draws the anchor of an object
    ([generateObjectCode], lines 91-92), as numbers. *)
Definition tikzX (obj : DrawingObject) : Q :=
  pixelToTikZ_number (px (position obj) - px getOriginOffset)%Q.

Definition tikzY (obj : DrawingObject) : Q :=
  pixelToTikZ_number (- (py (position obj) - py getOriginOffset))%Q.

(** ** Sample scenes *)

(** A visible, unselected object of the given type at [p], with the
    defaults the drawing tools give it and no shown name. *)
Definition fixture (id : string) (t : ObjType) (p : Point) : DrawingObject :=
  {| obj_id := id; obj_type := t; obj_name := id; visible := true;
     selected := false; showName := Some false; namePosition := None;
     nameStyle := None; position := p; stroke := "#000000";
     strokeWidth := 2%Q; fill := "transparent"; points := None;
     radius := None; width := None; height := None; text := None;
     fontSize := None; rotation := None; scaleX := None; scaleY := None;
     flipX := None; flipY := None; arrowStart := None; arrowEnd := None;
     baseLineId := None; createdAt := 0; constraints := None |}.

Definition trianglePolygon : DrawingObject :=
  set_points (Some [mkPoint 200 200; mkPoint 50 50; mkPoint 300 0])
    (fixture "poly" TPolygon (mkPoint 200 200)).

Definition followedPoint : DrawingObject := fixture "T" TPoint (mkPoint 10 20).

(** [obj] made to follow ["T"] with offset [(5, 5)]. *)
Definition constrained (kind : ConstraintType) (obj : DrawingObject)
  : DrawingObject :=
  set_constraints (Some [mkConstraint kind "T" (Some (mkPoint 5 5))]) obj.

Definition segment : DrawingObject :=
  set_points (Some [mkPoint 0 0; mkPoint 50 50])
    (fixture "L" TLine (mkPoint 0 0)).

Definition disc : DrawingObject := fixture "C" TCircle (mkPoint 0 0).

Definition degenerateSegment : DrawingObject :=
  set_points (Some [mkPoint 0 0; mkPoint 0 0])
    (fixture "L" TLine (mkPoint 0 0)).

Definition horizontalSegment : DrawingObject :=
  set_points (Some [mkPoint 0 0; mkPoint 4 0])
    (fixture "L" TLine (mkPoint 0 0)).

Definition lonePoint : DrawingObject := fixture "P1" TPoint (mkPoint 28 28).

(** Cosine and sine of a scene without rotated images. *)
Definition unitCos (_ : Q) : Q := 1%Q.
Definition zeroSin (_ : Q) : Q := 0%Q.

(** A state one step behind the end of its history. *)
Definition rewound : AppState :=
  set_historyIndex 0
    (addObject (fixture "" TPoint (mkPoint 0 0)) "p1" 1 initialState).

(** A selection box dragged from [(0, 0)] to [(100, 100)] over a segment
    and a triangle. *)
Definition boxed : AppState :=
  updateSelectionBox (mkPoint 100 100)
    (startSelectionBox (mkPoint 0 0)
       (loadSavedObjects [segment; trianglePolygon] initialState)).

(** ** Tools, drawing, polygons and text (lines 271-295, 563-710, 771-817,
    1111-1153) *)

Definition set_name (n : string) (o : DrawingObject) : DrawingObject :=
  let (i, t, _, v, s, sn, np, ns, pos, st, sw, fl, pts, r, w, h, tx, fs,
       rot, sx, sy, fx, fy, a1, a2, bl, ca, cs) := o in
  mkObject i t n v s sn np ns pos st sw fl pts r w h tx fs
           rot sx sy fx fy a1 a2 bl ca cs.

Definition set_activeTool (tool : string) (s : AppState) : AppState :=
  let (_, os, sel, hi, ix, mx, dr, dp, pv, pp, ip, cm, cst, sb, sbs, sbe,
       te, tp) := s in
  mkState tool os sel hi ix mx dr dp pv pp ip cm cst sb sbs sbe te tp.

Definition set_drawing (drawing : bool) (start : option Point)
  (preview : option DrawingObject) (s : AppState) : AppState :=
  let (at_, os, sel, hi, ix, mx, _, _, _, pp, ip, cm, cst, sb, sbs, sbe,
       te, tp) := s in
  mkState at_ os sel hi ix mx drawing start preview pp ip cm cst sb sbs sbe
          te tp.

Definition set_polygon (drawing : bool) (pts : list Point) (s : AppState)
  : AppState :=
  let (at_, os, sel, hi, ix, mx, dr, dp, pv, _, _, cm, cst, sb, sbs, sbe,
       te, tp) := s in
  mkState at_ os sel hi ix mx dr dp pv pts drawing cm cst sb sbs sbe te tp.

Definition set_construction (mode : ConstructionMode) (step : Z)
  (s : AppState) : AppState :=
  let (at_, os, sel, hi, ix, mx, dr, dp, pv, pp, ip, _, _, sb, sbs, sbe,
       te, tp) := s in
  mkState at_ os sel hi ix mx dr dp pv pp ip mode step sb sbs sbe te tp.

Definition set_textEditing (editing : bool) (pos : option Point)
  (s : AppState) : AppState :=
  let (at_, os, sel, hi, ix, mx, dr, dp, pv, pp, ip, cm, cst, sb, sbs, sbe,
       _, _) := s in
  mkState at_ os sel hi ix mx dr dp pv pp ip cm cst sb sbs sbe editing pos.

(** [setActiveTool] (lines 271-295). *)
Definition setActiveTool (tool : string) (s : AppState) : AppState :=
  let s1 := set_drawing false None None (set_activeTool tool s) in
  let s2 := if isPolygonDrawing s1 then set_polygon false [] s1 else s1 in
  let s3 :=
    match constructionMode s2 with
    | mode_none => s2
    | _ => set_construction mode_none 0 s2
    end in
  if negb (String.eqb tool "text") && isTextEditing s3
  then set_textEditing false None s3
  else s3.

Definition startDrawing (point : Point) (s : AppState) : AppState :=
  set_drawing true (Some point) (previewObject s) s.

(** The object literal of the drawing tools: blue stroke of width 2,
    transparent fill, shown name; the fields a tool does not set are
    absent.  The previews carry the id ["preview"]; the literal of
    [finishPolygon] has no id, and [addObject] sets the id and the
    creation time of whatever it is given. *)
Definition toolObject (t : ObjType) (name : string) (pos : Point) (now : Z)
  : DrawingObject :=
  {| obj_id := "preview"; obj_type := t; obj_name := name; visible := true;
     selected := false; showName := Some true; namePosition := None;
     nameStyle := None; position := pos; stroke := "#3b82f6";
     strokeWidth := 2%Q; fill := "transparent"; points := None;
     radius := None; width := None; height := None; text := None;
     fontSize := None; rotation := None; scaleX := None; scaleY := None;
     flipX := None; flipY := None; arrowStart := None; arrowEnd := None;
     baseLineId := None; createdAt := now; constraints := None |}.

Definition set_size (w h : option Q) (o : DrawingObject) : DrawingObject :=
  let (i, t, n, v, s, sn, np, ns, pos, st, sw, fl, pts, r, _, _, tx, fs,
       rot, sx, sy, fx, fy, a1, a2, bl, ca, cs) := o in
  mkObject i t n v s sn np ns pos st sw fl pts r w h tx fs
           rot sx sy fx fy a1 a2 bl ca cs.

Definition set_radius (r : option Q) (o : DrawingObject) : DrawingObject :=
  let (i, t, n, v, s, sn, np, ns, pos, st, sw, fl, pts, _, w, h, tx, fs,
       rot, sx, sy, fx, fy, a1, a2, bl, ca, cs) := o in
  mkObject i t n v s sn np ns pos st sw fl pts r w h tx fs
           rot sx sy fx fy a1 a2 bl ca cs.

Definition set_arrows (a1 a2 : option ArrowStyle) (o : DrawingObject)
  : DrawingObject :=
  let (i, t, n, v, s, sn, np, ns, pos, st, sw, fl, pts, r, w, h, tx, fs,
       rot, sx, sy, fx, fy, _, _, bl, ca, cs) := o in
  mkObject i t n v s sn np ns pos st sw fl pts r w h tx fs
           rot sx sy fx fy a1 a2 bl ca cs.

(** The rectangle of the preview, [(rectX, rectY, width, height)]
    (lines 577-622). *)
Definition previewRectangle (start point : Point) (shiftPressed : bool)
  : Q * Q * Q * Q :=
  let minX := Qmin (px start) (px point) in
  let minY := Qmin (py start) (py point) in
  let maxX := Qmax (px start) (px point) in
  let maxY := Qmax (py start) (py point) in
  let width := (maxX - minX)%Q in
  let height := (maxY - minY)%Q in
  if shiftPressed then
    let maxDimension := Qmax width height in
    let dragX := (px point - px start)%Q in
    let dragY := (py point - py start)%Q in
    let '(rectX, rectY) :=
      if Qle_bool 0 dragX && Qle_bool 0 dragY then (px start, py start)
      else if Qltb dragX 0 && Qle_bool 0 dragY
      then ((px start - maxDimension)%Q, py start)
      else if Qle_bool 0 dragX && Qltb dragY 0
      then (px start, (py start - maxDimension)%Q)
      else ((px start - maxDimension)%Q, (py start - maxDimension)%Q) in
    (rectX, rectY, maxDimension, maxDimension)
  else (minX, minY, width, height).

Section Drawing.

(** [Math.sqrt], whose values are not rational: the radius of a circle
    preview is computed relative to it. *)
Variable squareRoot : Q -> Q.

(** [updateDrawing] (lines 570-680); [now] is [Date.now()]. *)
Definition updateDrawing (point : Point) (shiftPressed : bool) (now : Z)
  (s : AppState) : AppState :=
  match drawingStartPoint s with
  | None => s
  | Some start =>
      let preview :=
        if String.eqb (activeTool s) "rectangle" then
          let '(rectX, rectY, width, height) :=
            previewRectangle start point shiftPressed in
          Some (set_size (Some width) (Some height)
                  (toolObject TRectangle "Rectangle Preview"
                     (mkPoint rectX rectY) now))
        else if String.eqb (activeTool s) "circle" then
          let radius :=
            squareRoot ((px point - px start) * (px point - px start)
                        + (py point - py start) * (py point - py start))%Q in
          Some (set_radius (Some radius)
                  (toolObject TCircle "Circle Preview" start now))
        else if String.eqb (activeTool s) "line" then
          Some (set_arrows (Some arrow_none) (Some arrow_none)
                  (set_points (Some [start; point])
                     (toolObject TLine "Line Preview" start now)))
        else None in
      set_drawing (isDrawing s) (drawingStartPoint s) preview s
  end.

End Drawing.

(** [finishDrawing] (lines 682-696); [newObjectId] and [now] are what
    [addObject] draws from its environment. *)
Definition finishDrawing (newObjectId : string) (now : Z) (s : AppState)
  : AppState :=
  let s1 :=
    match previewObject s with
    | Some preview =>
        let objectData :=
          set_name (generateObjectName (obj_type preview) s) preview in
        addObject objectData newObjectId now s
    | None => s
    end in
  set_drawing false None None s1.

Definition cancelDrawing (s : AppState) : AppState :=
  set_drawing false None None s.

Definition setPreviewObject (object : option DrawingObject) (s : AppState)
  : AppState :=
  set_drawing (isDrawing s) (drawingStartPoint s) object s.

(** Multi-point drawing (lines 771-817). *)
Definition startPolygonDrawing (point : Point) (s : AppState) : AppState :=
  set_polygon true [point] s.

Definition addPolygonPoint (point : Point) (s : AppState) : AppState :=
  if isPolygonDrawing s
  then set_polygon (isPolygonDrawing s) (currentPolygonPoints s ++ [point]) s
  else s.

Definition finishPolygon (newObjectId : string) (now : Z) (s : AppState)
  : AppState :=
  let s1 :=
    match currentPolygonPoints s with
    | first :: _ =>
        if (3 <=? length (currentPolygonPoints s))%nat
           && String.eqb (activeTool s) "polygon"
        then
          addObject
            (set_points (Some (currentPolygonPoints s))
               (toolObject TPolygon (generateObjectName TPolygon s) first now))
            newObjectId now s
        else s
    | [] => s
    end in
  set_polygon false [] s1.

Definition cancelPolygon (s : AppState) : AppState := set_polygon false [] s.

(** [getSelectedObjects] (lines 713-716). *)
Definition getSelectedObjects (s : AppState) : list DrawingObject :=
  List.filter (fun obj => Js.includes (selectedObjectIds s) (obj_id obj))
    (objects s).

(** ** Vocabulary of the further properties *)

Definition selection_mirrored (s : AppState) : Prop :=
  Forall (fun obj => selected obj = Js.includes (selectedObjectIds s) (obj_id obj))
    (objects s).

(** An object with its geometry (anchor and points) erased. *)
Definition frame (obj : DrawingObject) : DrawingObject :=
  set_position (mkPoint 0 0) (set_points None obj).

(** No constraint of [obj] names [objectId] as its target. *)
Definition unconstrained (objectId : string) (obj : DrawingObject) : Prop :=
  Forall (fun c => targetId c ≠ objectId) (default [] (constraints obj)).

Definition isUpdateObject (a : Action) : bool :=
  match a with
  | AUpdateObject _ _ => true
  | _ => false
  end.

(** A store whose dependants follow the point ["T"]. *)
Definition constrainedScene : AppState :=
  loadSavedObjects
    [followedPoint; constrained start_point segment; disc] initialState.

(** The history holds no more snapshots than its capacity. *)
Definition within_capacity (s : AppState) : Prop :=
  Z.of_nat (length (history s)) <= maxHistorySize s.

(** A store with capacity 2 whose history is full. *)
Definition fullHistory : AppState :=
  set_historyIndex 1
    (set_history [[]; [followedPoint]]
       (loadSavedObjects [followedPoint; disc]
          {| activeTool := "select"; objects := []; selectedObjectIds := [];
             history := [[]]; historyIndex := 0; maxHistorySize := 2;
             isDrawing := false; drawingStartPoint := None;
             previewObject := None; currentPolygonPoints := [];
             isPolygonDrawing := false; constructionMode := mode_none;
             constructionStep := 0; isSelectionBoxActive := false;
             selectionBoxStart := None; selectionBoxEnd := None;
             isTextEditing := false; textEditorPosition := None |})).

(** [obj], at index [i], is the first object of [objs] whose id is [id]. *)
Definition firstWithId (id : string) (objs : list DrawingObject) (i : nat)
  (obj : DrawingObject) : Prop :=
  objs !! i = Some obj /\ obj_id obj = id /\
  forall j o, (j < i)%nat -> objs !! j = Some o -> obj_id o ≠ id.

(** The angle tool of [finishConstruction] (lines 893-899): the vertex is
    the midpoint of the two chosen points, and the value shown is the
    angle at that vertex. *)
Definition finishConstruction_vertex (pointA pointB : DrawingObject) : Point :=
  calculateMidpoint (position pointA) (position pointB).

Definition finishConstruction_angleValue (pointA pointB : DrawingObject)
  : option R :=
  let vertex := finishConstruction_vertex pointA pointB in
  calculateAngle (toR (position pointA)) (toR vertex) (toR (position pointB)).

(** ** The drawing tools as a transition system *)

Inductive DrawingAction :=
| ASetActiveTool (tool : string)
| AStartDrawing (point : Point)
| AUpdateDrawing (point : Point) (shiftPressed : bool) (now : Z)
| AFinishDrawing (newObjectId : string) (now : Z)
| ACancelDrawing
| ASetPreviewObject (object : option DrawingObject)
| AStartPolygonDrawing (point : Point)
| AAddPolygonPoint (point : Point)
| AFinishPolygon (newObjectId : string) (now : Z)
| ACancelPolygon.

Section DrawingSteps.

Variable squareRoot : Q -> Q.

Definition runDrawing (a : DrawingAction) (s : AppState) : AppState :=
  match a with
  | ASetActiveTool tool => setActiveTool tool s
  | AStartDrawing point => startDrawing point s
  | AUpdateDrawing point shiftPressed now =>
      updateDrawing squareRoot point shiftPressed now s
  | AFinishDrawing newObjectId now => finishDrawing newObjectId now s
  | ACancelDrawing => cancelDrawing s
  | ASetPreviewObject object => setPreviewObject object s
  | AStartPolygonDrawing point => startPolygonDrawing point s
  | AAddPolygonPoint point => addPolygonPoint point s
  | AFinishPolygon newObjectId now => finishPolygon newObjectId now s
  | ACancelPolygon => cancelPolygon s
  end.

End DrawingSteps.

(** The drawing actions that reach [addObject]: [finishDrawing] with a
    preview, [finishPolygon] with three points in the polygon tool. *)
Definition addsObject (a : DrawingAction) (s : AppState) : bool :=
  match a with
  | AFinishDrawing _ _ =>
      match previewObject s with Some _ => true | None => false end
  | AFinishPolygon _ _ =>
      (3 <=? length (currentPolygonPoints s))%nat
      && String.eqb (activeTool s) "polygon"
  | _ => false
  end.

(** No polygon is being collected: the flag is down and the list empty. *)
Definition polygon_idle (s : AppState) : Prop :=
  isPolygonDrawing s = false /\ currentPolygonPoints s = [].

Definition clicks (points : list Point) (s : AppState) : AppState :=
  foldl (fun state point => addPolygonPoint point state) s points.

Definition withTool (tool : string) (s : AppState) : AppState :=
  set_activeTool tool s.

Definition dragging (tool : string) (start : Point) (s : AppState) : AppState :=
  startDrawing start (set_activeTool tool s).

Local Open Scope string_scope.

(** ** Colour names ([formatColor], lines 23-53) *)

Definition colorMap : list (string * string) :=
  [("#000000", "black"); ("#ffffff", "white"); ("#3b82f6", "blue");
   ("#ef4444", "red"); ("#10b981", "green"); ("#f59e0b", "orange");
   ("#8b5cf6", "violet"); ("#ec4899", "pink"); ("#6b7280", "gray");
   ("#1f2937", "darkgray")].

(** The lower-case keys that [colorMap[key]] finds on the prototype of
    the object literal rather than among its own entries. *)
Definition inheritedKeys : list string := ["constructor"; "__proto__"].

Definition lookupColor (key : string) : option string :=
  snd <$> List.find (fun entry => String.eqb (fst entry) key) colorMap.

(** [formatColor].  For an inherited key the result is built from a
    function or an object instead of a colour name: [None]. *)
Definition formatColor (color : string) (opacity : option Q)
  : option string :=
  if String.eqb color "transparent" then Some "transparent"
  else
    let key := toLowerCase color in
    if Js.includes inheritedKeys key then None
    else
      let baseColor :=
        match lookupColor key with
        | Some name => name
        | None =>
            "customcolor" +:+ toUpperCase (dropFirst (toLowerCase color))
        end in
      match opacity with
      | Some o =>
          if negb (Qeq_bool o 0) && Qltb o 1
          then Some (baseColor +:+ ", opacity=" +:+ toFixed 2 o)
          else Some baseColor
      | None => Some baseColor
      end.

(** The colours of [generateColorDefinitions] and the names it defines
    for them. *)
Definition customColors (objects : list DrawingObject) : list string :=
  fold_left collectColors objects [].

Definition definedColorNames (objects : list DrawingObject) : list string :=
  map (fun color => "customcolor" +:+ toUpperCase (dropFirst color))
    (customColors objects).

(** [color] is the stroke, the fill or the name colour of [obj]. *)
Definition paints (obj : DrawingObject) (color : string) : Prop :=
  stroke obj = color \/ fill obj = color \/
  nameStyle obj ≫= ns_color = Some color.

Local Close Scope string_scope.

(** ** Points on curves ([Canvas.tsx], lines 439-554)

    The pointer position is a pair of floating-point numbers; as for the
    constructions, the functions are read over the reals. *)

(** [{ object, type }], the curve a new point is attached to. *)
Record CurveInfo := mkCurveInfo {
  ci_object : DrawingObject;
  ci_type : string
}.

(** [distanceToLineSegment] (lines 475-503). *)
Definition distanceToLineSegment (point lineStart lineEnd : RPoint) : R :=
  let A := (rx point - rx lineStart)%R in
  let B := (ry point - ry lineStart)%R in
  let C := (rx lineEnd - rx lineStart)%R in
  let D := (ry lineEnd - ry lineStart)%R in
  let dot := (A * C + B * D)%R in
  let lenSq := (C * C + D * D)%R in
  if Req_dec_T lenSq 0 then sqrt (A * A + B * B)
  else
    let param := (dot / lenSq)%R in
    let closest :=
      if Rlt_dec param 0 then lineStart
      else if Rlt_dec 1 param then lineEnd
      else mkRPoint (rx lineStart + param * C) (ry lineStart + param * D) in
    let dx := (rx point - rx closest)%R in
    let dy := (ry point - ry closest)%R in
    sqrt (dx * dx + dy * dy).

(** [findCurveForPoint] (lines 439-472): the first visible line or
    circle within 15 pixels of the pointer. *)
Fixpoint findCurveForPoint (worldPos : RPoint) (objects : list DrawingObject)
  : option CurveInfo :=
  let tolerance := 15%R in
  match objects with
  | [] => None
  | obj :: rest =>
      if negb (visible obj) then findCurveForPoint worldPos rest
      else
        match obj_type obj with
        | TLine =>
            match points obj with
            | Some (p1 :: p2 :: _) =>
                let distance :=
                  distanceToLineSegment worldPos (toR p1) (toR p2) in
                if Rle_dec distance tolerance
                then Some (mkCurveInfo obj "line")
                else findCurveForPoint worldPos rest
            | _ => findCurveForPoint worldPos rest
            end
        | TCircle =>
            let dx := (rx worldPos - rx (toR (position obj)))%R in
            let dy := (ry worldPos - ry (toR (position obj)))%R in
            let distance := sqrt (dx * dx + dy * dy) in
            let radius := Q2R (orDefault (radius obj) 30) in
            if Rle_dec (Rabs (distance - radius)) tolerance
            then Some (mkCurveInfo obj "circle")
            else findCurveForPoint worldPos rest
        | _ => findCurveForPoint worldPos rest
        end
  end.

(** [getConstrainedPosition] (lines 506-554). *)
Definition getConstrainedPosition (worldPos : RPoint)
  (constraintInfo : option CurveInfo) : RPoint :=
  match constraintInfo with
  | None => worldPos
  | Some info =>
      let object := ci_object info in
      if String.eqb (ci_type info) "line" then
        match points object with
        | Some (p1 :: p2 :: _) =>
            let A := (rx worldPos - rx (toR p1))%R in
            let B := (ry worldPos - ry (toR p1))%R in
            let C := (rx (toR p2) - rx (toR p1))%R in
            let D := (ry (toR p2) - ry (toR p1))%R in
            let dot := (A * C + B * D)%R in
            let lenSq := (C * C + D * D)%R in
            if Req_dec_T lenSq 0 then toR p1
            else
              let param := Rmax 0 (Rmin 1 (dot / lenSq)) in
              mkRPoint (rx (toR p1) + param * C) (ry (toR p1) + param * D)
        | _ => worldPos
        end
      else if String.eqb (ci_type info) "circle" then
        let dx := (rx worldPos - rx (toR (position object)))%R in
        let dy := (ry worldPos - ry (toR (position object)))%R in
        let distance := sqrt (dx * dx + dy * dy) in
        if Req_dec_T distance 0 then toR (position object)
        else
          let radius := Q2R (orDefault (radius object) 30) in
          let ratio := (radius / distance)%R in
          mkRPoint (rx (toR (position object)) + dx * ratio)
                   (ry (toR (position object)) + dy * ratio)
      else worldPos
  end.

(** The distance between two points, [Math.sqrt(dx * dx + dy * dy)]. *)
Definition separation (p q : RPoint) : R :=
  sqrt ((rx p - rx q) * (rx p - rx q) + (ry p - ry q) * (ry p - ry q)).

(** The point of the segment from [a] to [b] at parameter [t]. *)
Definition along (a b : RPoint) (t : R) : RPoint :=
  mkRPoint (rx a + t * (rx b - rx a)) (ry a + t * (ry b - ry a)).

Definition unitDisc : DrawingObject :=
  set_radius (Some 28%Q) (fixture "C" TCircle (mkPoint 0 0)).

(** ** Snapping to points ([Canvas.tsx], lines 378-431) *)

(** [closestTarget]. *)
Record SnapTarget := mkSnapTarget {
  st_point : Point;
  st_objectId : string;
  st_distance : R;
  st_pointIndex : option nat;
  st_type : string
}.

(** [closestTarget] and [closestDistance], the state of the loop. *)
Definition SnapState : Type := option SnapTarget * R.

(** One candidate: it replaces the target when it is not farther than
    the closest distance so far. *)
Definition offer (worldPos : RPoint) (candidate : R -> SnapTarget)
  (point : Point) (st : SnapState) : SnapState :=
  let distance := separation worldPos (toR point) in
  if Rle_dec distance (snd st) then (Some (candidate distance), distance)
  else st.

Definition pointKind (obj : DrawingObject) (i n : nat) : string :=
  match obj_type obj with
  | TLine =>
      if (i =? 0)%nat then "startpoint"
      else if (i =? n - 1)%nat then "endpoint" else "point"
  | _ => "point"
  end.

(** The loop over [obj.points], from index [i]; [n] is their number. *)
Fixpoint offerPoints (worldPos : RPoint) (obj : DrawingObject) (n i : nat)
  (pts : list Point) (st : SnapState) : SnapState :=
  match pts with
  | [] => st
  | point :: rest =>
      offerPoints worldPos obj n (S i) rest
        (offer worldPos
           (fun distance =>
              mkSnapTarget point (obj_id obj) distance (Some i)
                (pointKind obj i n))
           point st)
  end.

(** The body of the loop over the objects. *)
Definition offerObject (worldPos : RPoint) (st : SnapState)
  (obj : DrawingObject) : SnapState :=
  if negb (visible obj) then st
  else
    let st1 :=
      if ObjType_eqb (obj_type obj) TLine then st
      else
        offer worldPos
          (fun distance =>
             mkSnapTarget (position obj) (obj_id obj) distance None "position")
          (position obj) st in
    match points obj with
    | Some pts => offerPoints worldPos obj (length pts) 0 pts st1
    | None => st1
    end.

(** [findNearbyPoint]; [snapToPoints] and [snapDistance] are the canvas
    settings it reads. *)
Definition findNearbyPoint (snapToPoints : bool) (snapDistance : Q)
  (worldPos : RPoint) (objects : list DrawingObject) : option SnapTarget :=
  if negb snapToPoints then None
  else fst (fold_left (offerObject worldPos) objects (None, Q2R snapDistance)).

(** [getSnappedPosition] (lines 428-431). *)
Definition getSnappedPosition (snapToPoints : bool) (snapDistance : Q)
  (worldPos : RPoint) (objects : list DrawingObject) : RPoint :=
  match findNearbyPoint snapToPoints snapDistance worldPos objects with
  | Some nearbyPoint => toR (st_point nearbyPoint)
  | None => worldPos
  end.

(** [p] is a point of [obj] the pointer can snap to: its position unless
    it is a line, and each of its points. *)
Definition snapCandidate (obj : DrawingObject) (p : Point) : Prop :=
  (obj_type obj ≠ TLine /\ p = position obj) \/
  (exists pts, points obj = Some pts /\ p ∈ pts).

(** The candidates of one object, in the order the loop offers them. *)
Definition candidatesOf (obj : DrawingObject) : list (DrawingObject * Point) :=
  if visible obj then
    (if ObjType_eqb (obj_type obj) TLine then [] else [(obj, position obj)])
    ++ map (pair obj) (default [] (points obj))
  else [].

(** The loop invariant of [findNearbyPoint] once the candidates [seen]
    have been offered. *)
Definition snap_inv (worldPos : RPoint) (limit : R)
  (seen : list (DrawingObject * Point)) (st : SnapState) : Prop :=
  (snd st <= limit)%R /\
  (forall c, c ∈ seen -> (snd st <= separation worldPos (toR (snd c)))%R) /\
  match fst st with
  | None =>
      snd st = limit /\
      forall c, c ∈ seen -> (limit < separation worldPos (toR (snd c)))%R
  | Some target =>
      st_distance target = snd st /\
      st_distance target = separation worldPos (toR (st_point target)) /\
      exists c, c ∈ seen /\ snd c = st_point target /\
                obj_id (fst c) = st_objectId target
  end.

(** What one pass does to a dependent [obj] when the followed object is
    [target]: its constraints on [objectId], in order. *)
Definition followAll (objectId : string) (target obj : DrawingObject)
  : option DrawingObject :=
  foldl
    (fun acc c =>
       o ← acc;
       if String.eqb (targetId c) objectId then follow c target o else Some o)
    (Some obj) (default [] (constraints obj)).

(** The slot that [constraint] writes on a line already holds the position
    [p] of the followed object. *)
Definition wrote (p : Point) (constraint : Constraint) (obj : DrawingObject)
  : Prop :=
  match c_type constraint with
  | center => True
  | start_point =>
      position obj = p /\
      exists pts, points obj = Some pts /\ pts !! 0%nat = Some p
  | end_point => exists pts, points obj = Some pts /\ pts !! 1%nat = Some p
  end.

(** The constraints of [obj] on [objectId], applied in order from [obj]
    itself or from a later state of it. *)
Definition followFrom (objectId : string) (target : DrawingObject)
  (cs : list Constraint) (obj : DrawingObject) : option DrawingObject :=
  foldl
    (fun acc c =>
       o ← acc;
       if String.eqb (targetId c) objectId then follow c target o else Some o)
    (Some obj) cs.

(* ===================================================================== *)
(** * Properties *)
(* ===================================================================== *)

(** ** Array primitives *)

Section SliceFacts.
Context {A : Type}.
Implicit Types (arr : list A) (n m : Z).

Lemma nth_lookup arr i :
  0 <= i -> Js.nth arr i = arr !! Z.to_nat i.
Proof. intros Hi. unfold Js.nth. destruct (Z.ltb_spec i 0); [lia | done]. Qed.

Lemma slice_prefix arr n :
  0 <= n <= Z.of_nat (length arr) ->
  Js.slice arr 0 n = take (Z.to_nat n) arr.
Proof.
  intros Hn. unfold Js.slice, Js.relative_index. simpl.
  destruct (Z.ltb_spec n 0); [lia |].
  rewrite Z.min_l by lia. rewrite Z.min_l by lia.
  rewrite Z.sub_0_r. by rewrite drop_0.
Qed.

Lemma slice_from_suffix arr m :
  1 <= m <= Z.of_nat (length arr) ->
  Js.slice_from arr (- m) = drop (length arr - Z.to_nat m) arr.
Proof.
  intros Hm. unfold Js.slice_from, Js.slice, Js.relative_index.
  destruct (Z.ltb_spec (- m) 0); [| lia].
  destruct (Z.ltb_spec (Z.of_nat (length arr)) 0); [lia |].
  rewrite Z.max_l by lia. rewrite Z.min_l by lia.
  replace (Z.to_nat (Z.of_nat (length arr) + - m))
    with (length arr - Z.to_nat m)%nat by lia.
  apply take_ge. rewrite length_drop. lia.
Qed.
End SliceFacts.

(** ** Setters and projections *)

Ltac unfold_setters :=
  unfold set_objects, set_selectedObjectIds, set_history, set_historyIndex,
    set_selectionBox.

Ltac crush_state s := destruct s; unfold_setters; simpl; try reflexivity.

Lemma history_set_objects os s : history (set_objects os s) = history s.
Proof. crush_state s. Qed.
Lemma historyIndex_set_objects os s :
  historyIndex (set_objects os s) = historyIndex s.
Proof. crush_state s. Qed.
Lemma maxHistorySize_set_objects os s :
  maxHistorySize (set_objects os s) = maxHistorySize s.
Proof. crush_state s. Qed.
Lemma objects_set_objects os s : objects (set_objects os s) = os.
Proof. crush_state s. Qed.
Lemma selectedObjectIds_set_objects os s :
  selectedObjectIds (set_objects os s) = selectedObjectIds s.
Proof. crush_state s. Qed.

Lemma history_set_selectedObjectIds ids s :
  history (set_selectedObjectIds ids s) = history s.
Proof. crush_state s. Qed.
Lemma historyIndex_set_selectedObjectIds ids s :
  historyIndex (set_selectedObjectIds ids s) = historyIndex s.
Proof. crush_state s. Qed.
Lemma maxHistorySize_set_selectedObjectIds ids s :
  maxHistorySize (set_selectedObjectIds ids s) = maxHistorySize s.
Proof. crush_state s. Qed.
Lemma objects_set_selectedObjectIds ids s :
  objects (set_selectedObjectIds ids s) = objects s.
Proof. crush_state s. Qed.
Lemma selectedObjectIds_set_selectedObjectIds ids s :
  selectedObjectIds (set_selectedObjectIds ids s) = ids.
Proof. crush_state s. Qed.

Lemma history_set_history h s : history (set_history h s) = h.
Proof. crush_state s. Qed.
Lemma historyIndex_set_history h s :
  historyIndex (set_history h s) = historyIndex s.
Proof. crush_state s. Qed.
Lemma maxHistorySize_set_history h s :
  maxHistorySize (set_history h s) = maxHistorySize s.
Proof. crush_state s. Qed.
Lemma objects_set_history h s : objects (set_history h s) = objects s.
Proof. crush_state s. Qed.
Lemma selectedObjectIds_set_history h s :
  selectedObjectIds (set_history h s) = selectedObjectIds s.
Proof. crush_state s. Qed.

Lemma history_set_historyIndex i s : history (set_historyIndex i s) = history s.
Proof. crush_state s. Qed.
Lemma historyIndex_set_historyIndex i s : historyIndex (set_historyIndex i s) = i.
Proof. crush_state s. Qed.
Lemma maxHistorySize_set_historyIndex i s :
  maxHistorySize (set_historyIndex i s) = maxHistorySize s.
Proof. crush_state s. Qed.
Lemma objects_set_historyIndex i s : objects (set_historyIndex i s) = objects s.
Proof. crush_state s. Qed.
Lemma selectedObjectIds_set_historyIndex i s :
  selectedObjectIds (set_historyIndex i s) = selectedObjectIds s.
Proof. crush_state s. Qed.

Lemma history_set_selectionBox b p q s :
  history (set_selectionBox b p q s) = history s.
Proof. crush_state s. Qed.
Lemma historyIndex_set_selectionBox b p q s :
  historyIndex (set_selectionBox b p q s) = historyIndex s.
Proof. crush_state s. Qed.
Lemma maxHistorySize_set_selectionBox b p q s :
  maxHistorySize (set_selectionBox b p q s) = maxHistorySize s.
Proof. crush_state s. Qed.
Lemma objects_set_selectionBox b p q s :
  objects (set_selectionBox b p q s) = objects s.
Proof. crush_state s. Qed.
Lemma selectedObjectIds_set_selectionBox b p q s :
  selectedObjectIds (set_selectionBox b p q s) = selectedObjectIds s.
Proof. crush_state s. Qed.

Create Rewrite HintDb store.
#[global] Hint Rewrite
  history_set_objects historyIndex_set_objects maxHistorySize_set_objects
  objects_set_objects selectedObjectIds_set_objects
  history_set_selectedObjectIds historyIndex_set_selectedObjectIds
  maxHistorySize_set_selectedObjectIds objects_set_selectedObjectIds
  selectedObjectIds_set_selectedObjectIds
  history_set_history historyIndex_set_history maxHistorySize_set_history
  objects_set_history selectedObjectIds_set_history
  history_set_historyIndex historyIndex_set_historyIndex
  maxHistorySize_set_historyIndex objects_set_historyIndex
  selectedObjectIds_set_historyIndex
  history_set_selectionBox historyIndex_set_selectionBox
  maxHistorySize_set_selectionBox objects_set_selectionBox
  selectedObjectIds_set_selectionBox : store.

Ltac store_simpl := autorewrite with store in *.

(** ** [saveToHistory] *)

Lemma saveToHistory_history s :
  history (saveToHistory s) =
  if maxHistorySize s <? Z.of_nat (length (appended s))
  then Js.slice_from (appended s) (- maxHistorySize s)
  else appended s.
Proof. unfold saveToHistory, appended. by store_simpl. Qed.

Lemma saveToHistory_historyIndex s :
  historyIndex (saveToHistory s) =
  Z.of_nat (length (history (saveToHistory s))) - 1.
Proof. unfold saveToHistory. by store_simpl. Qed.

Lemma saveToHistory_objects s : objects (saveToHistory s) = objects s.
Proof. unfold saveToHistory. by store_simpl. Qed.

Lemma saveToHistory_selectedObjectIds s :
  selectedObjectIds (saveToHistory s) = selectedObjectIds s.
Proof. unfold saveToHistory. by store_simpl. Qed.

Lemma saveToHistory_maxHistorySize s :
  maxHistorySize (saveToHistory s) = maxHistorySize s.
Proof. unfold saveToHistory. by store_simpl. Qed.

Lemma appended_length s : (1 <= length (appended s))%nat.
Proof. unfold appended. rewrite length_app. simpl. lia. Qed.

Lemma appended_last s : last (appended s) = Some (objects s).
Proof. unfold appended. apply last_snoc. Qed.

(** The stored history is a non-empty suffix of [appended s]. *)
Lemma saveToHistory_suffix s :
  capacity_inv s ->
  exists k : nat,
    history (saveToHistory s) = drop k (appended s) /\
    (k < length (appended s))%nat /\
    (Z.of_nat (length (appended s)) <= maxHistorySize s -> k = 0%nat) /\
    (maxHistorySize s < Z.of_nat (length (appended s)) ->
     Z.of_nat (length (appended s) - k) = maxHistorySize s).
Proof.
  intros Hcap. red in Hcap. rewrite saveToHistory_history.
  pose proof (appended_length s) as Hlen.
  destruct (Z.ltb_spec (maxHistorySize s) (Z.of_nat (length (appended s)))).
  - exists (length (appended s) - Z.to_nat (maxHistorySize s))%nat.
    split; [apply slice_from_suffix; lia |]. repeat split; lia.
  - exists 0%nat. rewrite drop_0. repeat split; lia.
Qed.

Lemma saveToHistory_inv s : capacity_inv s -> store_inv (saveToHistory s).
Proof.
  intros Hcap. destruct (saveToHistory_suffix s Hcap) as (k & Hh & Hk & _).
  split; [| red; by rewrite saveToHistory_maxHistorySize].
  red. rewrite saveToHistory_historyIndex, Hh, length_drop. lia.
Qed.

Lemma saveToHistory_snapshot s :
  capacity_inv s -> currentSnapshot (saveToHistory s) = Some (objects s).
Proof.
  intros Hcap. destruct (saveToHistory_suffix s Hcap) as (k & Hh & Hk & _).
  unfold currentSnapshot. rewrite saveToHistory_historyIndex, Hh.
  rewrite length_drop, nth_lookup by lia.
  rewrite lookup_drop.
  replace (k + Z.to_nat (Z.of_nat (length (appended s) - k) - 1))%nat
    with (pred (length (appended s))) by lia.
  rewrite <- last_lookup. apply appended_last.
Qed.

(** ** Actions that leave the history alone *)

Lemma same_history_inv s s' : same_history s s' -> store_inv s -> store_inv s'.
Proof.
  intros (Hh & Hi & Hm) [Hhist Hcap]. split; red; [red in Hhist | red in Hcap].
  - by rewrite Hh, Hi.
  - by rewrite Hm.
Qed.

Ltac same_history_tac :=
  repeat split; store_simpl; reflexivity.

Lemma selectObject_same id multi s : same_history s (selectObject id multi s).
Proof. unfold selectObject. same_history_tac. Qed.

Lemma selectObjects_same ids s : same_history s (selectObjects ids s).
Proof. unfold selectObjects. same_history_tac. Qed.

Lemma clearSelection_same s : same_history s (clearSelection s).
Proof. unfold clearSelection. same_history_tac. Qed.

Lemma selectAll_same s : same_history s (selectAll s).
Proof. unfold selectAll. same_history_tac. Qed.

Lemma startSelectionBox_same p s : same_history s (startSelectionBox p s).
Proof. unfold startSelectionBox. same_history_tac. Qed.

Lemma updateSelectionBox_same p s : same_history s (updateSelectionBox p s).
Proof. unfold updateSelectionBox. same_history_tac. Qed.

Lemma cancelSelectionBox_same s : same_history s (cancelSelectionBox s).
Proof. unfold cancelSelectionBox. same_history_tac. Qed.

Lemma finishSelectionBox_same s : same_history s (finishSelectionBox s).
Proof.
  unfold finishSelectionBox.
  destruct (selectionBoxStart s), (selectionBoxEnd s);
    unfold selectObjects; same_history_tac.
Qed.

Lemma addConstraint_same i c s : same_history s (addConstraint i c s).
Proof. unfold addConstraint. case_match; same_history_tac. Qed.

Lemma removeConstraint_same i t s : same_history s (removeConstraint i t s).
Proof. unfold removeConstraint. case_match; same_history_tac. Qed.

Lemma updateConstrainedObjects_same i s s' :
  updateConstrainedObjects i s = Some s' -> same_history s s'.
Proof.
  unfold updateConstrainedObjects. intros H.
  destruct (constraintPass i (objects s)); simplify_eq/=. same_history_tac.
Qed.

(** ** Committing actions *)

Lemma capacity_same s s' :
  maxHistorySize s' = maxHistorySize s -> capacity_inv s -> capacity_inv s'.
Proof. unfold capacity_inv. by intros ->. Qed.

Lemma addObject_inv d i t s : capacity_inv s -> store_inv (addObject d i t s).
Proof.
  intros Hcap. unfold addObject. apply saveToHistory_inv.
  eapply capacity_same; [| exact Hcap]. unfold selectObject. by store_simpl.
Qed.

Lemma updateObject_inv i f s : capacity_inv s -> store_inv (updateObject i f s).
Proof.
  intros Hcap. unfold updateObject. apply saveToHistory_inv.
  eapply capacity_same; [| exact Hcap]. case_match; by store_simpl.
Qed.

Lemma deleteObject_inv i s : capacity_inv s -> store_inv (deleteObject i s).
Proof.
  intros Hcap. unfold deleteObject. apply saveToHistory_inv.
  eapply capacity_same; [| exact Hcap]. by store_simpl.
Qed.

Lemma deleteSelectedObjects_inv s :
  store_inv s -> store_inv (deleteSelectedObjects s).
Proof.
  unfold deleteSelectedObjects. generalize (selectedObjectIds s) as ids.
  intros ids. revert s. induction ids as [| id ids IH]; intros s Hs; [done |].
  simpl. apply IH. apply deleteObject_inv, Hs.
Qed.

Lemma clearCanvas_inv s : capacity_inv s -> store_inv (clearCanvas s).
Proof. intros Hcap. split; [red; simpl; lia | exact Hcap]. Qed.

(** ** [undo] and [redo] *)

Lemma restore_in_range i s :
  0 <= i < Z.of_nat (length (history s)) ->
  exists snapshot,
    Js.nth (history s) i = Some snapshot /\
    restore i s =
    Some (set_objects (map (set_selected false) snapshot)
            (set_selectedObjectIds [] (set_historyIndex i s))).
Proof.
  intros Hi. unfold restore, deepCopy.
  destruct (lookup_lt_is_Some_2 (history s) (Z.to_nat i)) as [snap Hsnap];
    [lia |].
  exists snap. rewrite nth_lookup by lia. rewrite Hsnap. done.
Qed.

Lemma restore_inv i s s' :
  store_inv s -> 0 <= i < Z.of_nat (length (history s)) ->
  restore i s = Some s' -> store_inv s'.
Proof.
  intros [Hh Hc] Hi Hr.
  destruct (restore_in_range i s Hi) as (snap & _ & Heq).
  rewrite Heq in Hr. simplify_eq. split; red; store_simpl; [lia | exact Hc].
Qed.

Lemma undo_total s : history_inv s -> is_Some (undo s).
Proof.
  intros Hh. red in Hh. unfold undo.
  destruct (Z.ltb_spec 0 (historyIndex s)); [| done].
  destruct (restore_in_range (historyIndex s - 1) s) as (? & _ & ->); [lia|done].
Qed.

Lemma redo_total s : history_inv s -> is_Some (redo s).
Proof.
  intros Hh. red in Hh. unfold redo.
  destruct (Z.ltb_spec (historyIndex s) (Z.of_nat (length (history s)) - 1));
    [| done].
  destruct (restore_in_range (historyIndex s + 1) s) as (? & _ & ->); [lia|done].
Qed.

Lemma undo_inv s s' : store_inv s -> undo s = Some s' -> store_inv s'.
Proof.
  intros Hs. pose proof Hs as [Hh _]. red in Hh. unfold undo.
  destruct (Z.ltb_spec 0 (historyIndex s)); [| by intros [= <-]].
  apply restore_inv; [done | lia].
Qed.

Lemma redo_inv s s' : store_inv s -> redo s = Some s' -> store_inv s'.
Proof.
  intros Hs. pose proof Hs as [Hh _]. red in Hh. unfold redo.
  destruct (Z.ltb_spec (historyIndex s) (Z.of_nat (length (history s)) - 1));
    [| by intros [= <-]].
  apply restore_inv; [done | lia].
Qed.

Lemma run_inv a s s' : store_inv s -> run a s = Some s' -> store_inv s'.
Proof.
  intros Hs. pose proof Hs as [_ Hc].
  destruct a; simpl; intros Hrun; try (injection Hrun as <-);
    eauto using same_history_inv, selectObject_same, selectObjects_same,
      clearSelection_same, selectAll_same, startSelectionBox_same,
      updateSelectionBox_same, finishSelectionBox_same,
      cancelSelectionBox_same, addConstraint_same, removeConstraint_same,
      updateConstrainedObjects_same, addObject_inv, updateObject_inv,
      deleteObject_inv, deleteSelectedObjects_inv, saveToHistory_inv,
      clearCanvas_inv, undo_inv, redo_inv.
Qed.

Lemma initialState_inv : store_inv initialState.
Proof. split; red; simpl; lia. Qed.

(** ** History: invariant, branch discard, undo and redo *)

Lemma mirror_selection_deselect ids os :
  map (set_selected false) (mirror_selection ids os) = map (set_selected false) os.
Proof.
  unfold mirror_selection. rewrite map_map. apply map_ext.
  by intros [].
Qed.

Lemma addObject_objects d i t s :
  objects (addObject d i t s) =
  mirror_selection [i] (objects s ++ [with_id_createdAt i t d]).
Proof.
  unfold addObject. rewrite saveToHistory_objects. unfold selectObject.
  by store_simpl.
Qed.

(** The state [addObject] commits. *)
Lemma addObject_commit d i t s :
  exists m, addObject d i t s = saveToHistory m /\ same_history s m.
Proof.
  eexists. split; [reflexivity |]. unfold selectObject. same_history_tac.
Qed.

(** After a commit whose capacity is at least two, the entry before the
    cursor is the snapshot that was under the cursor before. *)
Lemma saveToHistory_previous m :
  history_inv m -> 2 <= maxHistorySize m ->
  0 < historyIndex (saveToHistory m) /\
  Js.nth (history (saveToHistory m)) (historyIndex (saveToHistory m) - 1)
  = currentSnapshot m.
Proof.
  intros Hh Hcap. red in Hh.
  destruct (saveToHistory_suffix m) as (k & Hhist & Hk & Hk0 & Hk1);
    [red; lia |].
  rewrite saveToHistory_historyIndex, Hhist, length_drop.
  assert (Happ : exists pre, appended m = pre ++ [objects m] /\
            pre !! Z.to_nat (historyIndex m) = history m !! Z.to_nat (historyIndex m) /\
            length pre = Z.to_nat (historyIndex m + 1)).
  { unfold appended.
    destruct (Z.ltb_spec (historyIndex m) (Z.of_nat (length (history m)) - 1)).
    - eexists; split; [reflexivity |]. rewrite slice_prefix by lia.
      rewrite lookup_take_lt by lia. split; [done |]. rewrite length_take. lia.
    - eexists; split; [reflexivity |]. split; [done | lia]. }
  destruct Happ as (pre & Happ & Hpre & Hlen).
  assert (Hl : length (appended m) = S (length pre)).
  { rewrite Happ, length_app. simpl. lia. }
  assert (k <= Z.to_nat (historyIndex m))%nat.
  { destruct (Z.le_gt_cases (Z.of_nat (length (appended m))) (maxHistorySize m)).
    - rewrite Hk0; lia.
    - specialize (Hk1 ltac:(lia)). lia. }
  split; [lia |].
  rewrite nth_lookup by lia. rewrite lookup_drop.
  replace (k + Z.to_nat (Z.of_nat (length (appended m) - k) - 1 - 1))%nat
    with (Z.to_nat (historyIndex m)) by lia.
  rewrite Happ, lookup_app_l by lia. rewrite Hpre.
  unfold currentSnapshot. by rewrite nth_lookup by lia.
Qed.



(** C3.  Let the cursor of [s] be strictly before the last snapshot, and
    let [m] be [s] after any mutation (same history, cursor and
    capacity).  Committing [m] keeps of the old history only entries up
    to the cursor (all of them unless the capacity evicts the oldest),
    and appends the snapshot of [m]: every snapshot after the cursor is
    gone.  After the commit [canRedo] is [false] and [redo] changes
    nothing; the same holds after [addObject], [updateObject] and
    [deleteObject]. *)
Theorem commit_discards_redo_tail (s m : AppState) :
  store_inv s ->
  historyIndex s < Z.of_nat (length (history s)) - 1 ->
  same_history s m ->
  (exists k : nat,
     history (saveToHistory m) =
     drop k (take (Z.to_nat (historyIndex s + 1)) (history s)) ++ [objects m] /\
     (historyIndex s + 2 <= maxHistorySize s -> k = 0%nat)) /\
  canRedo (saveToHistory m) = false /\
  redo (saveToHistory m) = Some (saveToHistory m) /\
  (forall d i t, canRedo (addObject d i t s) = false) /\
  (forall i f, canRedo (updateObject i f s) = false) /\
  (forall i, canRedo (deleteObject i s) = false).
Proof.
  intros [Hh Hc] Hbehind (Hmh & Hmi & Hmm). red in Hh, Hc.
  assert (Hno : forall x, canRedo (saveToHistory x) = false).
  { intros x. unfold canRedo. rewrite saveToHistory_historyIndex.
    apply Z.ltb_irrefl. }
  split.
  { destruct (saveToHistory_suffix m) as (k & Hhist & Hk & Hk0 & _);
      [red; lia |].
    assert (Happ : appended m =
              take (Z.to_nat (historyIndex s + 1)) (history s) ++ [objects m]).
    { unfold appended. rewrite Hmh, Hmi.
      destruct (Z.ltb_spec (historyIndex s) (Z.of_nat (length (history s)) - 1));
        [| lia].
      by rewrite slice_prefix by lia. }
    exists k. rewrite Hhist, Happ. rewrite Happ in Hk, Hk0.
    rewrite length_app, length_take in Hk, Hk0. simpl in Hk, Hk0.
    split; [| intros; apply Hk0; lia].
    rewrite drop_app_le; [done |]. rewrite length_take. lia. }
  split; [apply Hno |].
  split.
  { unfold redo. fold (canRedo (saveToHistory m)). by rewrite Hno. }
  repeat split; intros; apply Hno.
Qed.

(** A commit on the state [rewound], whose cursor is one step back. *)
Lemma commit_discards_redo_tail_witness :
  store_inv rewound /\
  historyIndex rewound < Z.of_nat (length (history rewound)) - 1 /\
  same_history rewound rewound /\
  canRedo rewound = true /\
  canRedo (saveToHistory rewound) = false.
Proof.
  assert (H1 : store_inv rewound) by (split; red; simpl; lia).
  assert (H2 : historyIndex rewound < Z.of_nat (length (history rewound)) - 1)
    by (simpl; lia).
  assert (H3 : same_history rewound rewound) by (repeat split).
  split; [exact H1 |]. split; [exact H2 |]. split; [exact H3 |].
  split; [reflexivity |].
  destruct (commit_discards_redo_tail rewound rewound H1 H2 H3)
    as (_ & Hredo & _).
  exact Hredo.
Defined.






(** ** Selection box *)

Lemma between_sym u v w : between u v w <-> between v u w.
Proof. unfold between. tauto. Qed.

Lemma between_min_max u v w :
  (Qmin u v <= w /\ w <= Qmax u v)%Q <-> between u v w.
Proof.
  unfold between. rewrite Q.min_le_iff, Q.max_le_iff.
  destruct (Qlt_le_dec u v); split; intros H;
    repeat match goal with
           | H : _ /\ _ |- _ => destruct H
           | H : _ \/ _ |- _ => destruct H
           end;
    first [ left; split; lra | right; split; lra
          | split; [left; lra | right; lra]
          | split; [right; lra | left; lra]
          | split; [left; lra | left; lra]
          | split; [right; lra | right; lra] ].
Qed.

Lemma inside_boundingBox a b p :
  inside (boundingBox a b) p = true <-> inRectangle a b p.
Proof.
  unfold inside, boundingBox, inRectangle.
  rewrite !andb_true_iff, !Qle_bool_iff.
  rewrite <- !between_min_max. tauto.
Qed.

Lemma inside_boundingBox_swap a b p :
  inside (boundingBox a b) p = inside (boundingBox b a) p.
Proof.
  apply eq_true_iff_eq. rewrite !inside_boundingBox. unfold inRectangle.
  rewrite (between_sym (px a)), (between_sym (py a)). tauto.
Qed.

Lemma isInBox_swap a b obj :
  isInBox (boundingBox a b) obj = isInBox (boundingBox b a) obj.
Proof.
  unfold isInBox.
  destruct (obj_type obj); try apply inside_boundingBox_swap.
  destruct (points obj) as [pts |]; [| done].
  destruct (2 <=? length pts)%nat; [| done].
  induction pts as [| p pts IH]; [done |]. cbn [existsb].
  by rewrite inside_boundingBox_swap, IH.
Qed.

Lemma isInBox_hits a b obj :
  isInBox (boundingBox a b) obj = true <-> hitsRectangle a b obj.
Proof.
  unfold isInBox, hitsRectangle.
  destruct (obj_type obj); try apply inside_boundingBox.
  destruct (points obj) as [pts |].
  - destruct (Nat.leb_spec 2 (length pts)).
    + rewrite existsb_exists. split.
      * intros (p & Hp & Hin). exists pts. split; [done |]. split; [done |].
        exists p. split; [by apply list_elem_of_In |].
        by apply inside_boundingBox.
      * intros (pts' & [= <-] & _ & p & Hp & Hin). exists p.
        split; [by apply list_elem_of_In |]. by apply inside_boundingBox.
    + split; [done |]. intros (pts' & [= <-] & ? & _). lia.
  - split; [done |]. by intros (? & ? & _).
Qed.

Lemma boxSelectedIds_loop box objs acc :
  fold_left
    (fun selectedIds obj =>
       if negb (visible obj) then selectedIds
       else if isInBox box obj then selectedIds ++ [obj_id obj]
       else selectedIds)
    objs acc
  = acc ++ map obj_id
             (List.filter (fun obj => visible obj && isInBox box obj) objs).
Proof.
  revert acc. induction objs as [| obj objs IH]; intros acc; simpl.
  - by rewrite app_nil_r.
  - rewrite IH. destruct (visible obj); simpl; [| done].
    destruct (isInBox box obj); simpl; [| done].
    by rewrite <- app_assoc.
Qed.

Lemma boxSelectedIds_filter box objs :
  boxSelectedIds box objs =
  map obj_id (List.filter (fun obj => visible obj && isInBox box obj) objs).
Proof. unfold boxSelectedIds. by rewrite boxSelectedIds_loop. Qed.

(** Against C4 as stated.  A visible polygon whose anchor [(200, 200)] is
    outside the box [(0, 0)]-[(100, 100)] and whose vertex [(50, 50)] is
    inside: the test by constituent points selects it, the code, which
    tests a polygon by its anchor, selects nothing. *)
Lemma polygon_vertex_counterexample :
  let s :=
    updateSelectionBox (mkPoint 100 100)
      (startSelectionBox (mkPoint 0 0)
         (loadSavedObjects [trianglePolygon] initialState)) in
  selectedObjectIds (finishSelectionBox s) = [] /\
  claimedBoxSelection (mkPoint 0 0) (mkPoint 100 100) (objects s) = ["poly"%string].
Proof. split; vm_compute; reflexivity. Qed.

(** C4, amended.  With both corners set, [finishSelectionBox] replaces
    the selection by the ids, in collection order, of the visible
    objects that hit the rectangle spanned by the corners, where an
    object of type [line] hits it when it has at least two points and
    one of them is inside, and an object of any other type (polygons and
    angle markers among them) when its anchor is inside.  An id is
    selected only through a visible object; swapping the corners gives
    the same selection; the [selected] flags mirror the selection. *)
Theorem finishSelectionBox_selects (s : AppState) (a b : Point) :
  selectionBoxStart s = Some a ->
  selectionBoxEnd s = Some b ->
  let ids := selectedObjectIds (finishSelectionBox s) in
  ids = map obj_id
          (List.filter
             (fun obj => visible obj && isInBox (boundingBox a b) obj)
             (objects s)) /\
  (forall obj,
     visible obj && isInBox (boundingBox a b) obj = true <->
     visible obj = true /\ hitsRectangle a b obj) /\
  (forall id,
     id ∈ ids <->
     exists obj, obj ∈ objects s /\ obj_id obj = id /\
                 visible obj = true /\ hitsRectangle a b obj) /\
  boxSelectedIds (boundingBox b a) (objects s) = ids /\
  objects (finishSelectionBox s) = mirror_selection ids (objects s).
Proof.
  intros Ha Hb ids.
  assert (Hids : ids = boxSelectedIds (boundingBox a b) (objects s)).
  { subst ids. unfold finishSelectionBox. rewrite Ha, Hb.
    unfold selectObjects. by store_simpl. }
  assert (Hiff : forall obj,
     visible obj && isInBox (boundingBox a b) obj = true <->
     visible obj = true /\ hitsRectangle a b obj).
  { intros obj. by rewrite andb_true_iff, isInBox_hits. }
  split; [by rewrite Hids, boxSelectedIds_filter |].
  split; [exact Hiff |].
  split.
  { intros id. rewrite Hids, boxSelectedIds_filter.
    rewrite list_elem_of_fmap. split.
    - intros (obj & -> & Hin). apply list_elem_of_In, filter_In in Hin as [Hin Hf].
      exists obj. apply list_elem_of_In in Hin. apply Hiff in Hf. tauto.
    - intros (obj & Hin & <- & Hv & Hh). exists obj. split; [done |].
      apply list_elem_of_In, filter_In. split; [by apply list_elem_of_In |].
      by apply Hiff. }
  split.
  { rewrite Hids, !boxSelectedIds_filter. f_equal.
    apply filter_ext. intros obj. by rewrite isInBox_swap. }
  unfold finishSelectionBox. rewrite Ha, Hb. unfold selectObjects.
  store_simpl. by rewrite Hids.
Qed.

(** The amended statement on the state [boxed]. *)
Lemma finishSelectionBox_selects_witness :
  selectionBoxStart boxed = Some (mkPoint 0 0) /\
  selectionBoxEnd boxed = Some (mkPoint 100 100) /\
  selectedObjectIds (finishSelectionBox boxed)
  = map obj_id
      (List.filter
         (fun obj => visible obj
                     && isInBox (boundingBox (mkPoint 0 0) (mkPoint 100 100)) obj)
         (objects boxed)).
Proof.
  assert (H1 : selectionBoxStart boxed = Some (mkPoint 0 0)) by reflexivity.
  assert (H2 : selectionBoxEnd boxed = Some (mkPoint 100 100)) by reflexivity.
  split; [exact H1 |]. split; [exact H2 |].
  destruct (finishSelectionBox_selects boxed _ _ H1 H2) as [Hids _].
  exact Hids.
Defined.

(** ** Constraint propagation *)

Lemma find_absent (objectId : string) (objs : list DrawingObject) :
  Forall (fun obj => obj_id obj ≠ objectId) objs ->
  find (fun o => String.eqb (obj_id o) objectId) objs = None.
Proof.
  induction 1 as [| obj objs Hne _ IH]; [done |]. simpl.
  destruct (String.eqb_spec (obj_id obj) objectId); [done | exact IH].
Qed.

Lemma applyConstraint_dangling objectId index objs c :
  Forall (fun obj => obj_id obj ≠ objectId) objs ->
  applyConstraint objectId index objs c = Some objs.
Proof.
  intros Habs. unfold applyConstraint.
  destruct (negb _); [done |]. by rewrite find_absent.
Qed.

(** A constraint whose target does not exist changes nothing. *)
Lemma constraintPass_dangling objectId objs :
  Forall (fun obj => obj_id obj ≠ objectId) objs ->
  constraintPass objectId objs = Some objs.
Proof.
  intros Habs. unfold constraintPass.
  generalize (seq 0 (length objs)) as indices.
  induction indices as [| index indices IH]; [done |].
  cbn [foldl]. cbn [mbind option_bind].
  replace (match objs !! index with
           | Some obj => _
           | None => Some objs
           end) with (Some objs); [exact IH |].
  destruct (objs !! index) as [obj |]; [| done].
  destruct (constraints obj) as [cs |]; [| done].
  induction cs as [| c cs IHcs]; [done |].
  cbn [foldl]. cbn [mbind option_bind].
  by rewrite applyConstraint_dangling.
Qed.

Lemma updateConstrainedObjects_dangling objectId s :
  Forall (fun obj => obj_id obj ≠ objectId) (objects s) ->
  exists s', updateConstrainedObjects objectId s = Some s' /\
             objects s' = objects s.
Proof.
  intros Habs. unfold updateConstrainedObjects.
  rewrite constraintPass_dangling by done. eexists. split; [done |].
  simpl. by store_simpl.
Qed.

(** C5 at the failing input.  The point ["T"] at [(10, 20)] is followed,
    each time with offset [(5, 5)], by a line through a [start_point]
    constraint, a line through an [end_point] constraint and a circle
    through a [center] constraint.  One pass moves the circle to
    [(15, 25)]: target plus offset.  It moves the two line endpoints to
    [(10, 20)]: the offset of a line constraint is not added. *)
Theorem endpoint_offset_dropped :
  constraintPass "T"
    [followedPoint; constrained start_point segment;
     constrained end_point segment; constrained center disc]
  = Some
      [followedPoint;
       set_position (mkPoint 10 20)
         (set_points (Some [mkPoint 10 20; mkPoint 50 50])
            (constrained start_point segment));
       set_points (Some [mkPoint 0 0; mkPoint 10 20])
         (constrained end_point segment);
       set_position (mkPoint 15 25) (constrained center disc)].
Proof. vm_compute. reflexivity. Qed.

(** ** Geometry *)

Section GeometryFacts.

Local Open Scope R_scope.

Lemma sum_squares_zero (a b : R) : a * a + b * b = 0 -> a = 0 /\ b = 0.
Proof. intros H. split; nra. Qed.

Lemma norm_zero (a b : R) : sqrt (a * a + b * b) = 0 -> a = 0 /\ b = 0.
Proof.
  intros H. apply sum_squares_zero. apply sqrt_eq_0; [nra | exact H].
Qed.

Lemma norm_pos (a b : R) : a <> 0 \/ b <> 0 -> 0 < sqrt (a * a + b * b).
Proof.
  intros H. apply sqrt_lt_R0. destruct H; nra.
Qed.

Lemma norm_square (a b : R) :
  sqrt (a * a + b * b) * sqrt (a * a + b * b) = a * a + b * b.
Proof. apply sqrt_sqrt. nra. Qed.

(** The divisions of the two geometry functions meet a zero divisor only
    with a zero dividend. *)
Lemma perpendicular_zero_divisor (dx dy : R) :
  sqrt (- dy * - dy + dx * dx) = 0 -> - dy = 0 /\ dx = 0.
Proof. apply norm_zero. Qed.

Lemma angle_zero_divisor (ax ay cx cy : R) :
  sqrt (ax * ax + ay * ay) * sqrt (cx * cx + cy * cy) = 0 ->
  ax * cx + ay * cy = 0.
Proof.
  intros H. apply Rmult_integral in H as [H | H];
    apply norm_zero in H as [-> ->]; ring.
Qed.

Lemma quotient_nonzero a b : b <> 0 -> quotient a b = Some (a / b).
Proof. intros Hb. unfold quotient. by destruct (Req_dec_T b 0). Qed.

Lemma quotient_zero a : quotient a 0 = None.
Proof. unfold quotient. by destruct (Req_dec_T 0 0). Qed.

Lemma clampCos_id c : -1 <= c <= 1 -> clampCos c = c.
Proof.
  intros Hc. unfold clampCos. rewrite Rmin_right by lra.
  apply Rmax_right. lra.
Qed.

Lemma clampCos_range c : -1 <= clampCos c <= 1.
Proof.
  unfold clampCos. split; [apply Rmax_l |].
  apply Rmax_lub; [lra | apply Rmin_l].
Qed.

Lemma cauchy_schwarz_quotient (ax ay cx cy : R) :
  0 < sqrt (ax * ax + ay * ay) * sqrt (cx * cx + cy * cy) ->
  -1 <= (ax * cx + ay * cy)
        / (sqrt (ax * ax + ay * ay) * sqrt (cx * cx + cy * cy)) <= 1.
Proof.
  set (m := sqrt (ax * ax + ay * ay) * sqrt (cx * cx + cy * cy)).
  intros Hm.
  assert (Hsq : m * m = (ax * ax + ay * ay) * (cx * cx + cy * cy)).
  { unfold m.
    transitivity ((sqrt (ax * ax + ay * ay) * sqrt (ax * ax + ay * ay)) *
                  (sqrt (cx * cx + cy * cy) * sqrt (cx * cx + cy * cy)));
      [ring |]. by rewrite !norm_square. }
  assert (Hcs : (ax * cx + ay * cy) * (ax * cx + ay * cy) <= m * m).
  { rewrite Hsq. pose proof (Rle_0_sqr (ax * cy - ay * cx)) as Hdet.
    unfold Rsqr in Hdet. lra. }
  assert (Hle : - m <= ax * cx + ay * cy <= m) by (split; nra).
  split.
  - apply Rmult_le_reg_r with m; [exact Hm |].
    unfold Rdiv. rewrite Rmult_assoc, Rinv_l by lra. lra.
  - apply Rmult_le_reg_r with m; [exact Hm |].
    unfold Rdiv. rewrite Rmult_assoc, Rinv_l by lra. lra.
Qed.




Lemma calculatePerpendicularLine_null lineId throughPoint s :
  calculatePerpendicularLine lineId throughPoint s = None <->
  unusableBase lineId s.
Proof.
  unfold calculatePerpendicularLine, unusableBase.
  destruct (getObjectById lineId s) as [baseLine |]; [| done].
  destruct (obj_type baseLine) eqn:Ht;
    try (split; [intros _; by left | done]).
  destruct (points baseLine) as [[| p1 [| p2 rest]] |]; simpl;
    try (split; [intros _; right; lia | done]).
  split; [done |]. intros [H | H]; [done | lia].
Qed.




End GeometryFacts.

(** ** Document assembly *)

(** C9.  On the empty collection [generateTikZCode] returns, whatever the
    per-object emitter and the trigonometric functions are, the header,
    the comment placeholder, the coordinate system of the default bounds
    when it is enabled, a line feed and the footer: the text below, which
    holds no statement of any object.  The function is total. *)
Theorem empty_scene_document (cosDegrees sinDegrees : Q -> Q)
  (generateObjectCode : Options -> DrawingObject -> string) (opts : Options) :
  generateTikZCode cosDegrees sinDegrees generateObjectCode opts [] =
  ((if showDocumentWrapper opts then
      "\documentclass[tikz,border=10pt]{standalone}
\usepackage{tikz}
\usepackage{xcolor}
\usepackage{ulem}
\usetikzlibrary{arrows.meta}
\usetikzlibrary{shapes.geometric}
\usetikzlibrary{calc}
\usetikzlibrary{positioning}
\begin{document}
\begin{tikzpicture}"
    else "\begin{tikzpicture}") +:+
   "
      
  % No objects to draw
  % Use the tools in the toolbar to create geometric shapes
  " +:+
   (if showCoordinates opts then
      "
  
  % Smart coordinate system
  \draw[gray!15, very thin] (-3,-3) grid[step=0.5] (3,3);
  \draw[gray!25, thin] (-3,-3) grid[step=1] (3,3);
  \draw[->] (-2.70,0) -- (2.70,0) node[right] {$x$};
  \draw[->] (0,-2.70) -- (0,2.70) node[above] {$y$};
  \fill (0,0) circle (1pt) node[below left] {$O$};
  \draw (-2,0) +(0,-1.5pt) -- +(0,1.5pt) node[below] {\footnotesize $-2$};
  \draw (-1,0) +(0,-1.5pt) -- +(0,1.5pt) node[below] {\footnotesize $-1$};
  \draw (1,0) +(0,-1.5pt) -- +(0,1.5pt) node[below] {\footnotesize $1$};
  \draw (2,0) +(0,-1.5pt) -- +(0,1.5pt) node[below] {\footnotesize $2$};
  \draw (0,-2) +(-1.5pt,0) -- +(1.5pt,0) node[left] {\footnotesize $-2$};
  \draw (0,-1) +(-1.5pt,0) -- +(1.5pt,0) node[left] {\footnotesize $-1$};
  \draw (0,1) +(-1.5pt,0) -- +(1.5pt,0) node[left] {\footnotesize $1$};
  \draw (0,2) +(-1.5pt,0) -- +(1.5pt,0) node[left] {\footnotesize $2$};"
    else "") +:+
   "
" +:+
   (if showDocumentWrapper opts then
      "\end{tikzpicture}
\end{document}"
    else "\end{tikzpicture}"))%string.
Proof.
  destruct opts as [coords wrapper comments labels].
  destruct coords, wrapper; vm_compute; reflexivity.
Qed.

(** ** View bounds *)

Section BoundsFacts.

Local Open Scope Q_scope.

(** ** Rounding *)

Lemma Qfloor_unique (z : Z) (x : Q) :
  inject_Z z <= x -> x < inject_Z z + 1 -> Qfloor x = z.
Proof.
  intros Hlo Hhi. apply Z.le_antisymm.
  - apply Z.lt_succ_r. rewrite Zlt_Qlt. unfold Z.succ. rewrite inject_Z_plus.
    eapply Qle_lt_trans; [apply Qfloor_le | exact Hhi].
  - rewrite <- (Qfloor_Z z). by apply Qfloor_resp_le.
Qed.

Lemma Qltb_lt a b : Qltb a b = true <-> a < b.
Proof.
  unfold Qltb. rewrite negb_true_iff. split.
  - intros H. apply Qnot_le_lt. intros Hle. apply Qle_bool_iff in Hle. congruence.
  - intros H. destruct (Qle_bool b a) eqn:E; [| done].
    apply Qle_bool_iff in E. lra.
Qed.

Lemma Qltb_ge a b : Qltb a b = false <-> b <= a.
Proof.
  unfold Qltb. rewrite negb_false_iff. apply Qle_bool_iff.
Qed.

Lemma pow10_pos d : (0 < pow10 d)%Z.
Proof. unfold pow10. apply Z.pow_pos_nonneg; lia. Qed.

Lemma pow10_posQ d : 0 < inject_Z (pow10 d).
Proof. pose proof (pow10_pos d) as Hp. by rewrite Zlt_Qlt in Hp. Qed.

Lemma toFixedScaled_mono d x y :
  Qabs x <= Qabs y -> (toFixedScaled d x <= toFixedScaled d y)%Z.
Proof.
  intros H. unfold toFixedScaled. apply Qfloor_resp_le.
  pose proof (pow10_posQ d) as Hp.
  apply Qplus_le_l. apply Qmult_le_compat_r; [exact H | lra].
Qed.

Lemma toFixedScaled_nonneg d x : (0 <= toFixedScaled d x)%Z.
Proof.
  unfold toFixedScaled. rewrite <- (Qfloor_Z 0). apply Qfloor_resp_le.
  pose proof (pow10_posQ d) as Hp.
  pose proof (Qabs_nonneg x) as Ha. change (inject_Z 0) with 0.
  pose proof (Qmult_le_0_compat _ _ Ha (Qlt_le_weak _ _ Hp)). lra.
Qed.

Lemma magnitude_nonneg d x :
  0 <= inject_Z (toFixedScaled d x) / inject_Z (pow10 d).
Proof.
  pose proof (pow10_posQ d) as Hp.
  pose proof (toFixedScaled_nonneg d x) as Hn. rewrite Zle_Qle in Hn.
  change (inject_Z 0) with 0 in Hn.
  apply Qle_shift_div_l; [exact Hp | lra].
Qed.

Lemma magnitude_mono d x y :
  Qabs x <= Qabs y ->
  inject_Z (toFixedScaled d x) / inject_Z (pow10 d)
  <= inject_Z (toFixedScaled d y) / inject_Z (pow10 d).
Proof.
  intros H. pose proof (pow10_posQ d) as Hp.
  pose proof (toFixedScaled_mono d x y H) as Hm. rewrite Zle_Qle in Hm.
  unfold Qdiv. apply Qmult_le_compat_r; [exact Hm |].
  apply Qlt_le_weak, Qinv_lt_0_compat, Hp.
Qed.

(** Rounding to a fixed number of digits is monotone. *)
Lemma toFixedNumber_mono d x y :
  x <= y -> toFixedNumber d x <= toFixedNumber d y.
Proof.
  intros Hxy. unfold toFixedNumber.
  pose proof (magnitude_nonneg d x). pose proof (magnitude_nonneg d y).
  destruct (Qltb x 0) eqn:Ex, (Qltb y 0) eqn:Ey.
  - apply Qltb_lt in Ex, Ey. apply Qopp_le_compat, magnitude_mono.
    rewrite !Qabs_neg by lra. lra.
  - lra.
  - apply Qltb_lt in Ey. apply Qltb_ge in Ex. lra.
  - apply Qltb_ge in Ex, Ey. apply magnitude_mono.
    rewrite !Qabs_pos by lra. lra.
Qed.

(** A value with at most [d] decimals is printed as it is. *)
Lemma toFixedNumber_exact d x (k : Z) :
  x * inject_Z (pow10 d) == inject_Z k -> toFixedNumber d x == x.
Proof.
  intros Hk. pose proof (pow10_posQ d) as Hp.
  assert (Habs : Qabs x * inject_Z (pow10 d) == inject_Z (Z.abs k)).
  { change (inject_Z (Z.abs k)) with (Qabs (inject_Z k)).
    rewrite <- Hk, Qabs_Qmult.
    rewrite (Qabs_pos (inject_Z (pow10 d))) by lra. reflexivity. }
  assert (Hs : toFixedScaled d x = Z.abs k).
  { unfold toFixedScaled. apply Qfloor_unique; lra. }
  unfold toFixedNumber. rewrite Hs.
  destruct (Qltb x 0) eqn:Ex; rewrite <- Habs.
  - apply Qltb_lt in Ex. rewrite Qabs_neg by lra. field. lra.
  - apply Qltb_ge in Ex. rewrite Qabs_pos by lra. field. lra.
Qed.

Lemma pixelToTikZ_number_round pixels :
  pixelToTikZ_number pixels == toFixedNumber 2 (pixels / 28).
Proof.
  unfold pixelToTikZ_number. set (value := pixels / 28).
  destruct (Qeq_bool value (floor value)) eqn:E1.
  - apply Qeq_bool_iff in E1. unfold floor in E1.
    rewrite (toFixedNumber_exact 0 value (Qfloor value)).
    + symmetry. apply (toFixedNumber_exact 2 value (100 * Qfloor value)).
      rewrite inject_Z_mult, <- E1.
      change (inject_Z (pow10 2)) with 100. change (inject_Z 100) with 100.
      ring.
    + rewrite <- E1. change (inject_Z (pow10 0)) with 1. ring.
  - destruct (Qeq_bool (value * 2) (floor (value * 2))) eqn:E2; [| reflexivity].
    apply Qeq_bool_iff in E2. unfold floor in E2.
    rewrite (toFixedNumber_exact 1 value (5 * Qfloor (value * 2))).
    + symmetry.
      apply (toFixedNumber_exact 2 value (50 * Qfloor (value * 2))).
      rewrite inject_Z_mult, <- E2.
      change (inject_Z (pow10 2)) with 100. change (inject_Z 50) with 50.
      ring.
    + rewrite inject_Z_mult, <- E2.
      change (inject_Z (pow10 1)) with 10. change (inject_Z 5) with 5.
      ring.
Qed.

Lemma pixelToTikZ_number_mono v w :
  v <= w -> pixelToTikZ_number v <= pixelToTikZ_number w.
Proof.
  intros H. rewrite !pixelToTikZ_number_round. apply toFixedNumber_mono.
  unfold Qdiv. apply Qmult_le_compat_r; [exact H | done].
Qed.

(** ** Extents *)

Lemma within_refl b : within b b.
Proof. unfold within. repeat split; lra. Qed.

Lemma within_trans a b c : within a b -> within b c -> within a c.
Proof. unfold within. intros H1 H2. repeat split; lra. Qed.

Lemma within_encloses a b p : within a b -> encloses a p -> encloses b p.
Proof. unfold within, encloses. intros H1 H2. repeat split; lra. Qed.

Lemma widen_some acc b :
  exists c, widen acc b = Some c /\ within b c /\
            (forall a, acc = Some a -> within a c).
Proof.
  unfold widen. destruct acc as [a |].
  - eexists. split; [reflexivity |]. unfold within. simpl.
    pose proof (Q.le_min_l (minX a) (minX b)).
    pose proof (Q.le_min_r (minX a) (minX b)).
    pose proof (Q.le_max_l (maxX a) (maxX b)).
    pose proof (Q.le_max_r (maxX a) (maxX b)).
    pose proof (Q.le_min_l (minY a) (minY b)).
    pose proof (Q.le_min_r (minY a) (minY b)).
    pose proof (Q.le_max_l (maxY a) (maxY b)).
    pose proof (Q.le_max_r (maxY a) (maxY b)).
    split; [tauto |]. intros a' [= <-]. tauto.
  - exists b. split; [reflexivity |]. split; [apply within_refl | done].
Qed.

Lemma widen_points pts acc :
  forall a, acc = Some a ->
  exists c,
    fold_left (fun a point => widen a (pointBounds point)) pts acc = Some c /\
    within a c.
Proof.
  revert acc. induction pts as [| p pts IH]; intros acc a Hacc; simpl.
  - exists a. split; [done | apply within_refl].
  - destruct (widen_some acc (pointBounds p)) as (c & Hc & _ & Hin).
    destruct (IH _ c Hc) as (c' & Hc' & Hcc'). exists c'.
    split; [exact Hc' |]. eapply within_trans; [apply (Hin a Hacc) | done].
Qed.

Lemma nameExtents_encloses obj : encloses (nameExtents obj) (position obj).
Proof.
  unfold nameExtents, encloses.
  destruct (isTrue (showName obj)).
  - destruct (match namePosition obj with Some _ => _ | None => _ end)
      as [nameX nameY]. simpl.
    repeat split;
      first [apply Q.le_min_l | apply Q.le_max_l].
  - simpl. repeat split; lra.
Qed.

Section Extents.
Variable cosDegrees sinDegrees : Q -> Q.

Lemma objectExtents_some acc obj :
  exists c,
    objectExtents cosDegrees sinDegrees acc obj = Some c /\
    encloses c (position obj) /\
    (forall a, acc = Some a -> within a c).
Proof.
  assert (Haround : forall b,
    exists c, widen (widen acc b) (nameExtents obj) = Some c /\
              encloses c (position obj) /\
              (forall a, acc = Some a -> within a c)).
  { intros b. destruct (widen_some acc b) as (c1 & Hc1 & _ & Hin1).
    destruct (widen_some (widen acc b) (nameExtents obj))
      as (c & Hc & Hname & Hin).
    exists c. split; [exact Hc |].
    split; [eapply within_encloses; [exact Hname | apply nameExtents_encloses] |].
    intros a Ha. eapply within_trans; [apply (Hin1 a Ha) | apply (Hin c1 Hc1)]. }
  assert (Hline : forall acc1,
    (forall a, acc = Some a -> exists c1, acc1 = Some c1 /\ within a c1) ->
    exists c, widen acc1 (nameExtents obj) = Some c /\
              encloses c (position obj) /\
              (forall a, acc = Some a -> within a c)).
  { intros acc1 H1.
    destruct (widen_some acc1 (nameExtents obj)) as (c & Hc & Hname & Hin).
    exists c. split; [exact Hc |].
    split; [eapply within_encloses; [exact Hname | apply nameExtents_encloses] |].
    intros a Ha. destruct (H1 a Ha) as (c1 & Hc1 & Hac1).
    eapply within_trans; [exact Hac1 | apply (Hin c1 Hc1)]. }
  assert (Hpoints :
    forall a, acc = Some a ->
    exists c1,
      match points obj with
      | Some (p :: pts) =>
          fold_left (fun a point => widen a (pointBounds point)) (p :: pts) acc
      | _ => widen acc (pointBounds (position obj))
      end = Some c1 /\ within a c1).
  { intros a Ha.
    destruct (points obj) as [[| p pts] |];
      try (destruct (widen_some acc (pointBounds (position obj)))
             as (c1 & Hc1 & _ & Hin1);
           exists c1; split; [exact Hc1 | apply (Hin1 a Ha)]).
    apply widen_points, Ha. }
  unfold objectExtents.
  destruct (obj_type obj); first [apply Haround | apply Hline, Hpoints].
Qed.

Lemma canvasExtents_loop objs acc :
  let result :=
    fold_left
      (fun acc obj =>
         if negb (visible obj) then acc
         else objectExtents cosDegrees sinDegrees acc obj)
      objs acc in
  (forall a, acc = Some a -> exists c, result = Some c /\ within a c) /\
  (forall obj, obj ∈ objs -> visible obj = true ->
               exists c, result = Some c /\ encloses c (position obj)).
Proof.
  revert acc. induction objs as [| o objs IH]; intros acc; simpl.
  - split.
    + intros a Ha. exists a. split; [done | apply within_refl].
    + intros obj Hin. by apply elem_of_nil in Hin.
  - destruct (visible o) eqn:Hv; simpl.
    + destruct (objectExtents_some acc o) as (c & Hc & Henc & Hin).
      specialize (IH (objectExtents cosDegrees sinDegrees acc o)).
      simpl in IH. destruct IH as [IH1 IH2].
      destruct (IH1 c Hc) as (r & Hr & Hcr).
      split.
      * intros a Ha. exists r. split; [exact Hr |].
        eapply within_trans; [apply (Hin a Ha) | exact Hcr].
      * intros obj Hobj Hvis. apply elem_of_cons in Hobj as [-> | Hobj].
        -- exists r. split; [exact Hr |].
           eapply within_encloses; [exact Hcr | exact Henc].
        -- by apply IH2.
    + specialize (IH acc). simpl in IH. destruct IH as [IH1 IH2].
      split; [exact IH1 |].
      intros obj Hobj Hvis. apply elem_of_cons in Hobj as [-> | Hobj];
        [congruence | by apply IH2].
Qed.

Lemma canvasExtents_encloses objs obj :
  obj ∈ objs -> visible obj = true ->
  exists c, canvasExtents cosDegrees sinDegrees objs = Some c /\
            encloses c (position obj).
Proof. apply (canvasExtents_loop objs None). Qed.
End Extents.

(** ** Padding and rounding *)

Lemma floor_scaled_le v step : 0 < step -> floor (v / step) * step <= v.
Proof.
  intros Hs. unfold floor.
  assert (H : v / step * step == v) by (field; lra).
  eapply Qle_trans; [| rewrite <- H; apply Qle_refl].
  apply Qmult_le_compat_r; [apply Qfloor_le | lra].
Qed.

Lemma ceil_scaled_ge v step : 0 < step -> v <= ceil (v / step) * step.
Proof.
  intros Hs. unfold ceil.
  assert (H : v / step * step == v) by (field; lra).
  eapply Qle_trans; [rewrite <- H; apply Qle_refl |].
  apply Qmult_le_compat_r; [apply Qle_ceiling | lra].
Qed.

Lemma roundToNice_down v : roundToNice v true <= v.
Proof.
  unfold roundToNice.
  repeat match goal with
         | |- context [if ?c then _ else _] => destruct c
         end; apply floor_scaled_le; reflexivity.
Qed.

Lemma roundToNice_up v : v <= roundToNice v false.
Proof.
  unfold roundToNice.
  repeat match goal with
         | |- context [if ?c then _ else _] => destruct c
         end; apply ceil_scaled_ge; reflexivity.
Qed.

Lemma fit_axis lo hi :
  let padding := Qmax 1 ((hi - lo) * 0.1) in
  roundToNice (lo - padding) true <= lo - 1 /\
  hi + 1 <= roundToNice (hi + padding) false.
Proof.
  intros padding.
  pose proof (Q.le_max_l 1 ((hi - lo) * 0.1)) as Hpad. fold padding in Hpad.
  pose proof (roundToNice_down (lo - padding)).
  pose proof (roundToNice_up (hi + padding)).
  split; lra.
Qed.

Section Window.
Variable cosDegrees sinDegrees : Q -> Q.

Lemma canvasExtents_ordered_loop objs acc c :
  (forall a, acc = Some a -> minX a <= maxX a /\ minY a <= maxY a) ->
  fold_left
    (fun acc obj =>
       if negb (visible obj) then acc
       else objectExtents cosDegrees sinDegrees acc obj)
    objs acc = Some c ->
  minX c <= maxX c /\ minY c <= maxY c.
Proof.
  revert acc. induction objs as [| o objs IH]; intros acc Hacc; simpl.
  - apply Hacc.
  - apply IH. intros a Ha. destruct (visible o); simpl in Ha; [| by apply Hacc].
    destruct (objectExtents_some cosDegrees sinDegrees acc o)
      as (c' & Hc' & Henc & _).
    rewrite Hc' in Ha. injection Ha as <-. unfold encloses in Henc. lra.
Qed.

Lemma canvasExtents_ordered objs c :
  canvasExtents cosDegrees sinDegrees objs = Some c ->
  minX c <= maxX c /\ minY c <= maxY c.
Proof. apply canvasExtents_ordered_loop. intros a [=]. Qed.

End Window.



(** ** The tick loop *)

Lemma tickRounds_step start stop spacing :
  0 < spacing -> start <= stop ->
  tickRounds start stop spacing = S (tickRounds (start + spacing) stop spacing).
Proof.
  intros Hs Hle. unfold tickRounds.
  assert (Hshift : Qfloor ((stop - (start + spacing)) / spacing)
                   = (Qfloor ((stop - start) / spacing) - 1)%Z).
  { assert (Heq : (stop - (start + spacing)) / spacing
                   == (stop - start) / spacing - 1) by (field; lra).
    pose proof (Qfloor_le ((stop - start) / spacing)) as Hlo.
    pose proof (Qlt_floor ((stop - start) / spacing)) as Hhi.
    rewrite inject_Z_plus in Hhi. change (inject_Z 1) with 1 in Hhi.
    replace (Qfloor ((stop - start) / spacing) - 1)%Z
      with (Qfloor ((stop - start) / spacing) + -1)%Z by lia.
    apply Qfloor_unique; rewrite inject_Z_plus;
      change (inject_Z (-1)) with (-1); lra. }
  assert (Hnonneg : (0 <= Qfloor ((stop - start) / spacing))%Z).
  { rewrite <- (Qfloor_Z 0). apply Qfloor_resp_le. change (inject_Z 0) with 0.
    apply Qle_shift_div_l; [exact Hs | lra]. }
  rewrite Hshift. lia.
Qed.

(** The bound [tickRounds] never cuts the loop short: with any larger
    bound the loop yields the same ticks. *)
Lemma tickLoop_enough_fuel fuel start stop spacing :
  0 < spacing ->
  (tickRounds start stop spacing <= fuel)%nat ->
  tickLoop fuel start stop spacing
  = tickLoop (tickRounds start stop spacing) start stop spacing.
Proof.
  intros Hs. revert start.
  induction fuel as [| fuel IH]; intros start Hfuel.
  - by replace (tickRounds start stop spacing) with 0%nat by lia.
  - simpl. destruct (Qle_bool start stop) eqn:Hguard.
    + apply Qle_bool_iff in Hguard.
      rewrite (tickRounds_step start stop spacing Hs Hguard) in Hfuel |- *.
      simpl. apply Qle_bool_iff in Hguard. rewrite Hguard.
      rewrite IH by lia. reflexivity.
    + destruct (tickRounds start stop spacing); [done |].
      simpl. by rewrite Hguard.
Qed.

End BoundsFacts.

(* ===================================================================== *)
(** * Further properties *)
(* ===================================================================== *)

Lemma includes_elem ids id : Js.includes ids id = true <-> id ∈ ids.
Proof.
  unfold Js.includes. rewrite existsb_exists. split.
  - intros (x & Hx & Heq). apply String.eqb_eq in Heq. subst.
    by apply list_elem_of_In.
  - intros Hin. exists id. split; [by apply list_elem_of_In |].
    apply String.eqb_refl.
Qed.

Lemma includes_filter_ne ids id x :
  x ≠ id ->
  Js.includes (filter (fun selectedId => selectedId ≠ id) ids) x
  = Js.includes ids x.
Proof.
  intros Hne. apply eq_true_iff_eq. rewrite !includes_elem.
  rewrite list_elem_of_filter. tauto.
Qed.

Lemma selected_set_selected b o : selected (set_selected b o) = b.
Proof. by destruct o. Qed.
Lemma obj_id_set_selected b o : obj_id (set_selected b o) = obj_id o.
Proof. by destruct o. Qed.

Lemma mirror_selection_mirrored ids os :
  Forall (fun obj => selected obj = Js.includes ids (obj_id obj))
    (mirror_selection ids os).
Proof.
  unfold mirror_selection. apply Forall_fmap, Forall_true. intros o. simpl.
  by rewrite selected_set_selected, obj_id_set_selected.
Qed.

Lemma selectObject_mirrored id multi s :
  selection_mirrored (selectObject id multi s).
Proof.
  unfold selection_mirrored, selectObject. store_simpl.
  apply mirror_selection_mirrored.
Qed.

Lemma selectObjects_mirrored ids s : selection_mirrored (selectObjects ids s).
Proof.
  unfold selection_mirrored, selectObjects. store_simpl.
  apply mirror_selection_mirrored.
Qed.

Lemma clearSelection_mirrored s : selection_mirrored (clearSelection s).
Proof.
  unfold selection_mirrored, clearSelection. store_simpl.
  apply Forall_fmap, Forall_true. intros o. simpl.
  by rewrite selected_set_selected.
Qed.

Lemma selectAll_mirrored s : selection_mirrored (selectAll s).
Proof.
  unfold selection_mirrored, selectAll. store_simpl.
  apply Forall_fmap, Forall_forall. intros o Ho. simpl.
  rewrite selected_set_selected, obj_id_set_selected. symmetry.
  apply includes_elem, list_elem_of_fmap. by exists o.
Qed.

Lemma saveToHistory_mirrored s :
  selection_mirrored s -> selection_mirrored (saveToHistory s).
Proof.
  unfold selection_mirrored.
  by rewrite saveToHistory_objects, saveToHistory_selectedObjectIds.
Qed.

Lemma addObject_mirrored d i t s : selection_mirrored (addObject d i t s).
Proof. unfold addObject. apply saveToHistory_mirrored, selectObject_mirrored. Qed.

Lemma deleteObject_mirrored id s :
  selection_mirrored s -> selection_mirrored (deleteObject id s).
Proof.
  intros Hm. unfold deleteObject. apply saveToHistory_mirrored.
  unfold selection_mirrored in *. store_simpl.
  apply Forall_forall. intros o Ho. apply list_elem_of_filter in Ho as [Hne Ho].
  rewrite includes_filter_ne by done.
  rewrite Forall_forall in Hm. by apply Hm.
Qed.

Lemma deleteSelectedObjects_mirrored s :
  selection_mirrored s -> selection_mirrored (deleteSelectedObjects s).
Proof.
  unfold deleteSelectedObjects. generalize (selectedObjectIds s) as ids.
  intros ids. revert s. induction ids as [| id ids IH]; intros s Hs; [done |].
  simpl. apply IH, deleteObject_mirrored, Hs.
Qed.

Lemma restore_mirrored i s s' :
  restore i s = Some s' -> selection_mirrored s'.
Proof.
  unfold restore, deepCopy. destruct (Js.nth (history s) i) as [snap |];
    [| done].
  simpl. intros [= <-]. unfold selection_mirrored. store_simpl.
  apply Forall_fmap, Forall_true. intros o. simpl.
  by rewrite selected_set_selected.
Qed.


Lemma frame_selected o o' :
  frame o' = frame o -> obj_id o' = obj_id o /\ selected o' = selected o.
Proof. destruct o, o'. unfold frame. simpl. intros [=]. by subst. Qed.

Lemma frame_constraints o o' :
  frame o' = frame o -> constraints o' = constraints o.
Proof. destruct o, o'. unfold frame. simpl. intros [=]. by subst. Qed.

Lemma frame_set_position p o : frame (set_position p o) = frame o.
Proof. by destruct o. Qed.

Lemma frame_set_points ps o : frame (set_points ps o) = frame o.
Proof. by destruct o. Qed.

Lemma mirrored_same_frame ids os os' :
  map frame os' = map frame os ->
  Forall (fun obj => selected obj = Js.includes ids (obj_id obj)) os ->
  Forall (fun obj => selected obj = Js.includes ids (obj_id obj)) os'.
Proof.
  revert os'. induction os as [| o os IH]; intros [| o' os'] Hmap H;
    simplify_eq/=; [done |].
  apply Forall_cons in H as [Ho Hos].
  apply frame_selected in H0 as [Hi Hs].
  apply Forall_cons. split; [congruence | by apply IH].
Qed.

(** ** The constraint pass changes geometry only *)

Lemma follow_frame c target obj obj' :
  follow c target obj = Some obj' -> frame obj' = frame obj.
Proof.
  unfold follow. intros H.
  destruct (c_type c), (obj_type obj); simplify_eq/=;
    try reflexivity; try apply frame_set_position;
    destruct (points obj) as [pts |]; simplify_eq/=; try reflexivity;
    match type of H with
    | context [array_set ?i ?v ?l] => destruct (array_set i v l)
    end; simplify_eq/=;
    by rewrite ?frame_set_position, ?frame_set_points.
Qed.

Lemma applyConstraint_frame objectId index a c a' :
  applyConstraint objectId index a c = Some a' ->
  map frame a' = map frame a /\
  (forall j, j ≠ index -> a' !! j = a !! j) /\
  (targetId c ≠ objectId -> a' = a).
Proof.
  unfold applyConstraint. intros H.
  destruct (String.eqb_spec (targetId c) objectId) as [Heq | Hne]; simpl in H.
  2:{ by simplify_eq. }
  destruct (find _ a) as [target |]; [| by simplify_eq].
  destruct (a !! index) as [obj |] eqn:Hobj; [| by simplify_eq].
  destruct (follow c target obj) as [obj' |] eqn:Hf; simplify_eq/=.
  apply follow_frame in Hf. split; [| split].
  - rewrite list_fmap_insert, Hf. apply list_insert_id.
    by rewrite list_lookup_fmap, Hobj.
  - intros j Hj. by rewrite list_lookup_insert_ne.
  - done.
Qed.

Lemma foldl_bind_none {A B : Type} (f : A -> B -> option A) (l : list B) :
  foldl (fun acc b => a ← acc; f a b) None l = None.
Proof. induction l as [| b l IH]; [done | exact IH]. Qed.

Lemma foldl_bind_inv {A B : Type} (f : A -> B -> option A) (P : A -> Prop)
  (l : list B) (a r : A) :
  P a ->
  (forall x b x', P x -> b ∈ l -> f x b = Some x' -> P x') ->
  foldl (fun acc b => x ← acc; f x b) (Some a) l = Some r ->
  P r.
Proof.
  revert a. induction l as [| b l IH]; intros a Ha Hstep; simpl.
  - by intros [= <-].
  - destruct (f a b) as [a' |] eqn:Hf; simpl.
    + apply IH.
      * eapply Hstep; [exact Ha | apply list_elem_of_here | exact Hf].
      * intros x b' x' Hx Hb. apply Hstep; [done | by apply list_elem_of_further].
    + by rewrite foldl_bind_none.
Qed.

Lemma constraints_pass_inner objectId index d cs r :
  foldl (fun acc c => a ← acc; applyConstraint objectId index a c) (Some d) cs
  = Some r ->
  map frame r = map frame d /\
  (forall j, j ≠ index -> r !! j = d !! j) /\
  (Forall (fun c => targetId c ≠ objectId) cs -> r = d).
Proof.
  intros H.
  apply (foldl_bind_inv (applyConstraint objectId index)
           (fun a => map frame a = map frame d /\
                     (forall j, j ≠ index -> a !! j = d !! j) /\
                     (Forall (fun c => targetId c ≠ objectId) cs -> a = d))
           cs d r); [done | | exact H].
  intros x c x' (Hfr & Hoth & Hsame) Hc Happ.
  apply applyConstraint_frame in Happ as (Hfr' & Hoth' & Hsame').
  split; [congruence |]. split.
  - intros j Hj. rewrite Hoth' by done. by apply Hoth.
  - intros Hall. rewrite Hsame'; [by apply Hsame |].
    rewrite Forall_forall in Hall. by apply Hall.
Qed.

Lemma constraintPass_frame objectId objs objs' :
  constraintPass objectId objs = Some objs' ->
  map frame objs' = map frame objs /\
  (forall i obj, objs !! i = Some obj -> unconstrained objectId obj ->
                 objs' !! i = Some obj).
Proof.
  unfold constraintPass.
  set (step := fun (d : list DrawingObject) (index : nat) =>
         match d !! index with
         | Some obj =>
             match constraints obj with
             | Some cs =>
                 foldl (fun acc c => a ← acc; applyConstraint objectId index a c)
                   (Some d) cs
             | None => Some d
             end
         | None => Some d
         end).
  intros H.
  apply (foldl_bind_inv step
           (fun d => map frame d = map frame objs /\
                     (forall i obj, objs !! i = Some obj ->
                                    unconstrained objectId obj ->
                                    d !! i = Some obj))
           (seq 0 (length objs)) objs objs'); [done | | exact H].
  intros d index d' (Hfr & Hun) _ Hstep. unfold step in Hstep.
  destruct (d !! index) as [obj |] eqn:Hobj; [| by simplify_eq].
  destruct (constraints obj) as [cs |] eqn:Hcs; [| by simplify_eq].
  apply constraints_pass_inner in Hstep as (Hfr' & Hoth & Hsame).
  split; [congruence |].
  intros i o Ho Hfree. destruct (decide (i = index)) as [-> | Hne].
  - rewrite Hsame; [by apply Hun |].
    specialize (Hun _ _ Ho Hfree). rewrite Hobj in Hun. simplify_eq.
    unfold unconstrained in Hfree. by rewrite Hcs in Hfree.
  - rewrite Hoth by done. by apply Hun.
Qed.

Lemma addConstraint_mirrored i c s :
  selection_mirrored s -> selection_mirrored (addConstraint i c s).
Proof.
  unfold selection_mirrored, addConstraint. intros H.
  destruct (Js.findIndex _ _); store_simpl; [| done].
  apply Forall_alter; [done |]. intros o _ Ho. by destruct o.
Qed.

Lemma removeConstraint_mirrored i t s :
  selection_mirrored s -> selection_mirrored (removeConstraint i t s).
Proof.
  unfold selection_mirrored, removeConstraint. intros H.
  destruct (Js.findIndex _ _); store_simpl; [| done].
  apply Forall_alter; [done |]. intros o _ Ho.
  destruct (constraints o); [| done]. by destruct o.
Qed.

Lemma updateConstrainedObjects_mirrored i s s' :
  selection_mirrored s -> updateConstrainedObjects i s = Some s' ->
  selection_mirrored s'.
Proof.
  unfold selection_mirrored, updateConstrainedObjects. intros H Hrun.
  destruct (constraintPass i (objects s)) as [objs |] eqn:Hpass; simplify_eq/=.
  store_simpl. apply constraintPass_frame in Hpass as [Hfr _].
  by eapply mirrored_same_frame.
Qed.

Lemma finishSelectionBox_mirrored s :
  selection_mirrored s -> selection_mirrored (finishSelectionBox s).
Proof.
  intros H. unfold finishSelectionBox.
  destruct (selectionBoxStart s), (selectionBoxEnd s);
    unfold selection_mirrored; store_simpl;
    first [apply selectObjects_mirrored | exact H].
Qed.

Lemma getSelectedObjects_mirrored s :
  selection_mirrored s ->
  getSelectedObjects s = List.filter selected (objects s).
Proof.
  unfold selection_mirrored, getSelectedObjects.
  generalize (selectedObjectIds s) as ids. intros ids.
  induction (objects s) as [| o os IH]; intros H; [done |].
  apply Forall_cons in H as [Ho Hos]. simpl. rewrite <- Ho, IH by done. done.
Qed.

(** X1.  Every store action other than [updateObject] keeps the
    [selected] flag of each object equal to the membership of its id in
    [selectedObjectIds]; in such a state [getSelectedObjects] returns
    exactly the objects whose flag is set. *)
Theorem selection_mirror_invariant (a : Action) (s s' : AppState) :
  isUpdateObject a = false ->
  selection_mirrored s ->
  run a s = Some s' ->
  selection_mirrored s' /\
  getSelectedObjects s' = List.filter selected (objects s').
Proof.
  intros Ha Hs Hrun.
  assert (Hs' : selection_mirrored s').
  { destruct a; simpl in Hrun, Ha; try discriminate Ha;
      try (injection Hrun as <-);
      eauto using selectObject_mirrored, selectObjects_mirrored,
        clearSelection_mirrored, selectAll_mirrored, addObject_mirrored,
        deleteObject_mirrored, deleteSelectedObjects_mirrored,
        saveToHistory_mirrored, addConstraint_mirrored,
        removeConstraint_mirrored, updateConstrainedObjects_mirrored,
        finishSelectionBox_mirrored.
    - unfold selection_mirrored, startSelectionBox. by store_simpl.
    - unfold selection_mirrored, updateSelectionBox. by store_simpl.
    - unfold selection_mirrored, cancelSelectionBox. by store_simpl.
    - unfold undo in Hrun. destruct (0 <? historyIndex s);
        [by eapply restore_mirrored | by simplify_eq].
    - unfold redo in Hrun.
      destruct (historyIndex s <? Z.of_nat (length (history s)) - 1);
        [by eapply restore_mirrored | by simplify_eq].
    - by apply Forall_nil. }
  split; [exact Hs' | by apply getSelectedObjects_mirrored].
Qed.

Lemma selection_mirror_invariant_witness :
  let s := addObject (fixture "" TPoint (mkPoint 0 0)) "p1" 1 initialState in
  isUpdateObject (ASelectObject "p1" true) = false /\
  selection_mirrored s /\
  selection_mirrored (selectObject "p1" true s) /\
  getSelectedObjects (selectObject "p1" true s) = [].
Proof.
  intros s.
  assert (H1 : isUpdateObject (ASelectObject "p1" true) = false) by reflexivity.
  assert (H2 : selection_mirrored s).
  { repeat constructor. }
  split; [exact H1 |]. split; [exact H2 |].
  destruct (selection_mirror_invariant (ASelectObject "p1" true) s
              (selectObject "p1" true s) H1 H2 eq_refl) as [Hm Hg].
  split; [exact Hm | exact Hg].
Defined.

(** X2.  A constraint pass keeps the number and the order of
    the objects and changes nothing but positions and points; an object
    without a constraint on the moved object is left as it is, and the
    selection and the history are not touched. *)
Theorem updateConstrainedObjects_moves_only_dependents (objectId : string)
  (s s' : AppState) :
  updateConstrainedObjects objectId s = Some s' ->
  length (objects s') = length (objects s) /\
  map frame (objects s') = map frame (objects s) /\
  (forall i obj,
     objects s !! i = Some obj -> unconstrained objectId obj ->
     objects s' !! i = Some obj) /\
  selectedObjectIds s' = selectedObjectIds s /\
  history s' = history s /\ historyIndex s' = historyIndex s.
Proof.
  unfold updateConstrainedObjects. intros Hrun.
  destruct (constraintPass objectId (objects s)) as [objs |] eqn:Hpass;
    simplify_eq/=.
  store_simpl. apply constraintPass_frame in Hpass as [Hfr Hun].
  split; [| by repeat split].
  apply (f_equal length) in Hfr. by rewrite !length_map in Hfr.
Qed.

Lemma updateConstrainedObjects_moves_only_dependents_witness :
  exists s',
    updateConstrainedObjects "T" constrainedScene = Some s' /\
    length (objects s') = length (objects constrainedScene) /\
    objects s' !! 2%nat = Some disc.
Proof.
  destruct (updateConstrainedObjects "T" constrainedScene) as [s' |] eqn:H;
    [| vm_compute in H; discriminate H].
  exists s'. split; [reflexivity |].
  destruct (updateConstrainedObjects_moves_only_dependents _ _ _ H)
    as (Hlen & _ & Hun & _).
  split; [exact Hlen |].
  apply Hun; [reflexivity | apply Forall_nil_2].
Defined.

(** ** Deleting *)

Lemma deleteObject_objects id s :
  objects (deleteObject id s) = filter (fun obj => obj_id obj ≠ id) (objects s).
Proof. unfold deleteObject. rewrite saveToHistory_objects. by store_simpl. Qed.

Lemma deleteObject_selectedObjectIds id s :
  selectedObjectIds (deleteObject id s)
  = filter (fun selectedId => selectedId ≠ id) (selectedObjectIds s).
Proof.
  unfold deleteObject. rewrite saveToHistory_selectedObjectIds. by store_simpl.
Qed.

Lemma filter_keep_all {A : Type} (P : A -> Prop) `{!forall x, Decision (P x)}
  (l : list A) :
  Forall P l -> filter P l = l.
Proof.
  induction 1 as [| x l Hx _ IH]; [done |].
  rewrite filter_cons_True by done. by rewrite IH.
Qed.

Lemma filter_drop_all {A : Type} (P : A -> Prop) `{!forall x, Decision (P x)}
  (l : list A) :
  Forall (fun x => ~ P x) l -> filter P l = [].
Proof.
  induction 1 as [| x l Hx _ IH]; [done |].
  by rewrite filter_cons_False.
Qed.

Lemma delete_all_loop ids s :
  let s' := fold_left (fun st id => deleteObject id st) ids s in
  objects s' = filter (fun obj => obj_id obj ∉ ids) (objects s) /\
  selectedObjectIds s' = filter (fun id => id ∉ ids) (selectedObjectIds s).
Proof.
  revert s. induction ids as [| id ids IH]; intros s; simpl.
  - split; symmetry; apply filter_keep_all, Forall_true; intros;
      apply not_elem_of_nil.
  - destruct (IH (deleteObject id s)) as [Ho Hs]. simpl in Ho, Hs.
    rewrite Ho, Hs, deleteObject_objects, deleteObject_selectedObjectIds.
    rewrite !list_filter_filter. split; apply list_filter_iff; intros x;
      rewrite not_elem_of_cons; tauto.
Qed.

(** X3.  [deleteSelectedObjects] keeps, in their order, exactly
    the objects whose id is not selected, and leaves the selection
    empty. *)
Theorem deleteSelectedObjects_removes_selection (s : AppState) :
  objects (deleteSelectedObjects s)
  = filter (fun obj => obj_id obj ∉ selectedObjectIds s) (objects s) /\
  selectedObjectIds (deleteSelectedObjects s) = [] /\
  (forall obj, obj ∈ objects (deleteSelectedObjects s) ->
               obj ∈ objects s /\ obj_id obj ∉ selectedObjectIds s).
Proof.
  destruct (delete_all_loop (selectedObjectIds s) s) as [Ho Hs].
  unfold deleteSelectedObjects. simpl in Ho, Hs. rewrite Ho, Hs.
  split; [done |]. split.
  - apply filter_drop_all, Forall_forall. intros id Hin Hout. by apply Hout.
  - intros obj Hin. apply list_elem_of_filter in Hin. tauto.
Qed.

Lemma deleteSelectedObjects_removes_selection_witness :
  let s := selectObject "T" false constrainedScene in
  let kept := set_selected false disc in
  kept ∈ objects (deleteSelectedObjects s) /\
  kept ∈ objects s /\ obj_id kept ∉ selectedObjectIds s.
Proof.
  intros s kept.
  assert (H : kept ∈ objects (deleteSelectedObjects s)).
  { apply list_elem_of_lookup. exists 1%nat. reflexivity. }
  split; [exact H |].
  destruct (deleteSelectedObjects_removes_selection s) as (_ & _ & Hkept).
  exact (Hkept kept H).
Defined.

(** ** Capacity *)

Lemma saveToHistory_within_capacity s :
  capacity_inv s -> within_capacity (saveToHistory s).
Proof.
  intros Hcap. destruct (saveToHistory_suffix s Hcap) as (k & Hh & Hk & Hk0 & Hk1).
  unfold within_capacity. rewrite saveToHistory_maxHistorySize, Hh, length_drop.
  destruct (Z.le_gt_cases (Z.of_nat (length (appended s))) (maxHistorySize s)).
  - lia.
  - rewrite Hk1; lia.
Qed.

Lemma same_history_within s s' :
  same_history s s' -> within_capacity s -> within_capacity s'.
Proof. intros (Hh & _ & Hm). unfold within_capacity. by rewrite Hh, Hm. Qed.

Lemma capacity_of_same s s' :
  maxHistorySize s' = maxHistorySize s -> capacity_inv s -> capacity_inv s'.
Proof. unfold capacity_inv. by intros ->. Qed.

Lemma deleteSelectedObjects_within s :
  capacity_inv s -> within_capacity s ->
  within_capacity (deleteSelectedObjects s).
Proof.
  unfold deleteSelectedObjects. generalize (selectedObjectIds s) as ids.
  intros ids. revert s. induction ids as [| id ids IH]; intros s Hc Hw; [done |].
  simpl. apply IH.
  - apply deleteObject_inv, Hc.
  - unfold deleteObject. apply saveToHistory_within_capacity.
    eapply capacity_of_same; [| exact Hc]. by store_simpl.
Qed.

Lemma restore_within i s s' :
  within_capacity s -> restore i s = Some s' -> within_capacity s'.
Proof.
  unfold restore, deepCopy, within_capacity.
  destruct (Js.nth (history s) i); [| done]. simpl. intros H [= <-].
  by store_simpl.
Qed.

(** X4.  A history that holds at most [maxHistorySize]
    snapshots still does after any store action, and no action changes
    [maxHistorySize]. *)
Theorem history_within_capacity (a : Action) (s s' : AppState) :
  capacity_inv s ->
  within_capacity s ->
  run a s = Some s' ->
  within_capacity s' /\ maxHistorySize s' = maxHistorySize s.
Proof.
  intros Hc Hw Hrun.
  assert (Hsave : forall m, maxHistorySize m = maxHistorySize s ->
            within_capacity (saveToHistory m) /\
            maxHistorySize (saveToHistory m) = maxHistorySize s).
  { intros m Hm. split.
    - apply saveToHistory_within_capacity. by eapply capacity_of_same.
    - by rewrite saveToHistory_maxHistorySize. }
  assert (Hsame : same_history s s' ->
            within_capacity s' /\ maxHistorySize s' = maxHistorySize s).
  { intros H. split; [by eapply same_history_within | apply H]. }
  destruct a; simpl in Hrun; try (injection Hrun as <-);
    eauto using selectObject_same, selectObjects_same, clearSelection_same,
      selectAll_same, startSelectionBox_same, updateSelectionBox_same,
      finishSelectionBox_same, cancelSelectionBox_same, addConstraint_same,
      removeConstraint_same, updateConstrainedObjects_same.
  - unfold addObject. apply Hsave. unfold selectObject. by store_simpl.
  - unfold updateObject. apply Hsave. case_match; by store_simpl.
  - unfold deleteObject. apply Hsave. by store_simpl.
  - split; [by apply deleteSelectedObjects_within |].
    clear Hw. unfold deleteSelectedObjects.
    generalize (selectedObjectIds s) as ids. intros ids. revert s Hc Hsave Hsame.
    induction ids as [| id ids IH]; intros s Hc _ _; [done |]. simpl.
    rewrite IH.
    + unfold deleteObject. rewrite saveToHistory_maxHistorySize. by store_simpl.
    + apply deleteObject_inv, Hc.
    + intros m Hm. split.
      * apply saveToHistory_within_capacity. eapply capacity_of_same; [exact Hm |].
        apply deleteObject_inv, Hc.
      * by rewrite saveToHistory_maxHistorySize.
    + intros H. split; [| apply H]. eapply same_history_within; [exact H |].
      unfold deleteObject. apply saveToHistory_within_capacity.
      eapply capacity_of_same; [| exact Hc]. by store_simpl.
  - unfold undo in Hrun. destruct (0 <? historyIndex s); [| by simplify_eq].
    split; [by eapply restore_within |].
    unfold restore, deepCopy in Hrun. destruct (Js.nth _ _); simplify_eq/=.
    by store_simpl.
  - unfold redo in Hrun.
    destruct (historyIndex s <? Z.of_nat (length (history s)) - 1);
      [| by simplify_eq].
    split; [by eapply restore_within |].
    unfold restore, deepCopy in Hrun. destruct (Js.nth _ _); simplify_eq/=.
    by store_simpl.
Qed.

Lemma history_within_capacity_witness :
  capacity_inv fullHistory /\ within_capacity fullHistory /\
  within_capacity (saveToHistory fullHistory) /\
  history (saveToHistory fullHistory) = [[followedPoint]; [followedPoint; disc]].
Proof.
  assert (H1 : capacity_inv fullHistory) by (red; simpl; lia).
  assert (H2 : within_capacity fullHistory) by (red; simpl; lia).
  split; [exact H1 |]. split; [exact H2 |].
  destruct (history_within_capacity ASaveToHistory fullHistory _ H1 H2 eq_refl)
    as [Hw _].
  split; [exact Hw | reflexivity].
Defined.

(** X5.  When the history is full and the cursor is at its
    end, a commit drops the oldest snapshot, appends the live objects, and
    leaves the cursor and the length of the history where they were. *)
Theorem saveToHistory_evicts_oldest (s : AppState) :
  capacity_inv s ->
  historyIndex s = Z.of_nat (length (history s)) - 1 ->
  Z.of_nat (length (history s)) = maxHistorySize s ->
  history (saveToHistory s) = drop 1 (history s) ++ [objects s] /\
  historyIndex (saveToHistory s) = historyIndex s /\
  length (history (saveToHistory s)) = length (history s).
Proof.
  intros Hc Hidx Hfull. red in Hc.
  assert (Happ : appended s = history s ++ [objects s]).
  { unfold appended. destruct (Z.ltb_spec (historyIndex s)
      (Z.of_nat (length (history s)) - 1)); [lia | done]. }
  assert (Hh : history (saveToHistory s) = drop 1 (history s) ++ [objects s]).
  { rewrite saveToHistory_history, Happ, length_app. simpl.
    destruct (Z.ltb_spec (maxHistorySize s)
                (Z.of_nat (length (history s) + 1))); [| lia].
    rewrite slice_from_suffix by (rewrite length_app; simpl; lia).
    rewrite length_app. simpl.
    replace (length (history s) + 1 - Z.to_nat (maxHistorySize s))%nat
      with 1%nat by lia.
    apply drop_app_le. lia. }
  split; [exact Hh |].
  rewrite saveToHistory_historyIndex, Hh, length_app, length_drop. simpl.
  split; lia.
Qed.

Lemma saveToHistory_evicts_oldest_witness :
  capacity_inv fullHistory /\
  historyIndex fullHistory = Z.of_nat (length (history fullHistory)) - 1 /\
  Z.of_nat (length (history fullHistory)) = maxHistorySize fullHistory /\
  historyIndex (saveToHistory fullHistory) = historyIndex fullHistory.
Proof.
  assert (H1 : capacity_inv fullHistory) by (red; simpl; lia).
  assert (H2 : historyIndex fullHistory
               = Z.of_nat (length (history fullHistory)) - 1) by reflexivity.
  assert (H3 : Z.of_nat (length (history fullHistory))
               = maxHistorySize fullHistory) by reflexivity.
  split; [exact H1 |]. split; [exact H2 |]. split; [exact H3 |].
  destruct (saveToHistory_evicts_oldest fullHistory H1 H2 H3) as (_ & Hi & _).
  exact Hi.
Defined.

(** ** Undo and redo compose *)

(** X6.  Where undo is enabled, undo followed by redo comes back
    to the same cursor and history, with the snapshot under the cursor as
    live objects, deselected; the same holds for redo followed by undo
    where redo is enabled. *)
Theorem undo_redo_round_trip (s : AppState) :
  history_inv s ->
  (canUndo s = true ->
   exists s1 s2 snapshot,
     undo s = Some s1 /\ redo s1 = Some s2 /\
     currentSnapshot s = Some snapshot /\
     objects s2 = map (set_selected false) snapshot /\
     historyIndex s2 = historyIndex s /\ history s2 = history s) /\
  (canRedo s = true ->
   exists s1 s2 snapshot,
     redo s = Some s1 /\ undo s1 = Some s2 /\
     currentSnapshot s = Some snapshot /\
     objects s2 = map (set_selected false) snapshot /\
     historyIndex s2 = historyIndex s /\ history s2 = history s).
Proof.
  intros Hh. red in Hh.
  assert (Hstep : forall i,
    0 <= i < Z.of_nat (length (history s)) ->
    exists s1 s2 snapshot,
      restore i s = Some s1 /\ restore (historyIndex s) s1 = Some s2 /\
      historyIndex s1 = i /\ history s1 = history s /\
      currentSnapshot s = Some snapshot /\
      objects s2 = map (set_selected false) snapshot /\
      historyIndex s2 = historyIndex s /\ history s2 = history s).
  { intros i Hi.
    destruct (restore_in_range i s Hi) as (snap1 & _ & Hr1).
    set (s1 := set_objects (map (set_selected false) snap1)
                 (set_selectedObjectIds [] (set_historyIndex i s))) in *.
    assert (Hi1 : historyIndex s1 = i) by (unfold s1; by store_simpl).
    assert (Hh1 : history s1 = history s) by (unfold s1; by store_simpl).
    destruct (restore_in_range (historyIndex s) s1) as (snap & Hn & Hr2);
      [rewrite Hh1; lia |].
    exists s1. eexists. exists snap.
    split; [exact Hr1 |]. split; [exact Hr2 |].
    split; [exact Hi1 |]. split; [exact Hh1 |].
    split; [unfold currentSnapshot; by rewrite <- Hh1 |].
    store_simpl. by rewrite Hh1. }
  split; intros Hcan.
  - unfold canUndo in Hcan. pose proof Hcan as Hlt. apply Z.ltb_lt in Hlt.
    destruct (Hstep (historyIndex s - 1)) as (s1 & s2 & snap & Hr1 & Hr2 & Hi1
      & Hh1 & Hrest); [lia |].
    exists s1, s2, snap. split; [unfold undo; by rewrite Hcan |].
    split; [| exact Hrest].
    unfold redo. rewrite Hi1, Hh1.
    destruct (Z.ltb_spec (historyIndex s - 1)
                (Z.of_nat (length (history s)) - 1)); [| lia].
    by replace (historyIndex s - 1 + 1) with (historyIndex s) by lia.
  - unfold canRedo in Hcan. pose proof Hcan as Hlt. apply Z.ltb_lt in Hlt.
    destruct (Hstep (historyIndex s + 1)) as (s1 & s2 & snap & Hr1 & Hr2 & Hi1
      & Hh1 & Hrest); [lia |].
    exists s1, s2, snap. split; [unfold redo; by rewrite Hcan |].
    split; [| exact Hrest].
    unfold undo. rewrite Hi1.
    destruct (Z.ltb_spec 0 (historyIndex s + 1)); [| lia].
    by replace (historyIndex s + 1 - 1) with (historyIndex s) by lia.
Qed.

Lemma undo_redo_round_trip_witness :
  history_inv rewound /\ canRedo rewound = true /\
  exists s1 s2,
    redo rewound = Some s1 /\ undo s1 = Some s2 /\
    historyIndex s2 = historyIndex rewound.
Proof.
  assert (H1 : history_inv rewound) by (red; simpl; lia).
  assert (H2 : canRedo rewound = true) by reflexivity.
  split; [exact H1 |]. split; [exact H2 |].
  destruct (undo_redo_round_trip rewound H1) as [_ Hredo].
  destruct (Hredo H2) as (s1 & s2 & _ & Hr & Hu & _ & _ & Hi & _).
  exists s1, s2. split; [exact Hr |]. split; [exact Hu | exact Hi].
Defined.

(** ** Looking objects up by id *)

Lemma findIndex_None {A : Type} (pred : A -> bool) (l : list A) :
  Js.findIndex pred l = None <-> Forall (fun x => pred x = false) l.
Proof.
  induction l as [| x l IH]; simpl; [by split |].
  destruct (pred x) eqn:Hx.
  - split; [done |]. intros H. apply Forall_cons in H as [H _]. congruence.
  - rewrite fmap_None, IH. rewrite Forall_cons. tauto.
Qed.

Lemma findIndex_Some {A : Type} (pred : A -> bool) (l : list A) (i : nat) :
  Js.findIndex pred l = Some i <->
  exists x, l !! i = Some x /\ pred x = true /\
            forall j y, (j < i)%nat -> l !! j = Some y -> pred y = false.
Proof.
  revert i. induction l as [| x l IH]; intros i; simpl.
  - split; [done |]. by intros (y & Hy & _).
  - destruct (pred x) eqn:Hx.
    + split.
      * intros [= <-]. exists x. repeat split; [done |]. intros j y Hj. lia.
      * intros (y & Hy & Hp & Hfirst). destruct i as [| i]; [done |].
        specialize (Hfirst 0%nat x ltac:(lia) eq_refl). congruence.
    + rewrite fmap_Some. split.
      * intros (k & Hk & ->). apply IH in Hk as (y & Hy & Hp & Hfirst).
        exists y. repeat split; [done.. |]. intros [| j] z Hj Hz.
        -- by simplify_eq/=.
        -- simpl in Hz. eapply Hfirst; [| exact Hz]. lia.
      * intros (y & Hy & Hp & Hfirst). destruct i as [| i];
          [simplify_eq/=; congruence |].
        exists i. split; [| done]. apply IH. exists y.
        repeat split; [done.. |]. intros j z Hj Hz.
        apply (Hfirst (S j) z); [lia | done].
Qed.

Lemma findIndex_first id objs i obj :
  firstWithId id objs i obj ->
  Js.findIndex (fun o => String.eqb (obj_id o) id) objs = Some i.
Proof.
  intros (Hi & Hid & Hfirst). apply findIndex_Some. exists obj.
  split; [done |]. split; [by apply String.eqb_eq |].
  intros j o Hj Ho. apply String.eqb_neq. by eapply Hfirst.
Qed.

Lemma findIndex_absent id objs :
  Forall (fun o => obj_id o ≠ id) objs ->
  Js.findIndex (fun o => String.eqb (obj_id o) id) objs = None.
Proof.
  intros H. apply findIndex_None. eapply Forall_impl; [exact H |].
  intros o Ho. by apply String.eqb_neq.
Qed.

Lemma alter_at {A : Type} (f : A -> A) (l : list A) (i : nat) (x : A) :
  l !! i = Some x -> alter f i l = <[i := f x]> l.
Proof.
  revert i. induction l as [| y l IH]; intros [| i] H; simplify_eq/=; [done |].
  f_equal. by apply IH.
Qed.

(** X7.  [updateObject] changes the first object with the given
    id and no other; with no such object the collection is unchanged.  In
    both cases the number of objects and the selection stay, and redo is
    unavailable afterwards. *)
Theorem updateObject_first_match (id : string)
  (assign : DrawingObject -> DrawingObject) (s : AppState) :
  (Forall (fun o => obj_id o ≠ id) (objects s) ->
   objects (updateObject id assign s) = objects s) /\
  (forall i obj,
     firstWithId id (objects s) i obj ->
     objects (updateObject id assign s) = <[i := assign obj]> (objects s)) /\
  length (objects (updateObject id assign s)) = length (objects s) /\
  selectedObjectIds (updateObject id assign s) = selectedObjectIds s /\
  canRedo (updateObject id assign s) = false.
Proof.
  unfold updateObject.
  split; [| split; [| split; [| split]]].
  - intros Habs. rewrite saveToHistory_objects, findIndex_absent by done. done.
  - intros i obj Hfirst. rewrite saveToHistory_objects.
    rewrite (findIndex_first _ _ _ _ Hfirst). store_simpl.
    apply alter_at, Hfirst.
  - rewrite saveToHistory_objects. case_match; store_simpl; [| done].
    apply length_alter.
  - rewrite saveToHistory_selectedObjectIds. case_match; by store_simpl.
  - unfold canRedo. rewrite saveToHistory_historyIndex. apply Z.ltb_irrefl.
Qed.

Lemma updateObject_first_match_witness :
  let s := loadSavedObjects [followedPoint; disc; followedPoint] initialState in
  Forall (fun o => obj_id o ≠ "Z") (objects s) /\
  firstWithId "T" (objects s) 0 followedPoint /\
  objects (updateObject "Z" (set_selected true) s) = objects s /\
  objects (updateObject "T" (set_selected true) s)
  = [set_selected true followedPoint; disc; followedPoint].
Proof.
  intros s.
  assert (H1 : Forall (fun o => obj_id o ≠ "Z") (objects s))
    by (repeat constructor; intros H; vm_compute in H; discriminate H).
  assert (H2 : firstWithId "T" (objects s) 0 followedPoint).
  { split; [reflexivity |]. split; [reflexivity |]. intros j o Hj. lia. }
  split; [exact H1 |]. split; [exact H2 |].
  destruct (updateObject_first_match "Z" (set_selected true) s) as (Ha & _).
  destruct (updateObject_first_match "T" (set_selected true) s) as (_ & Hb & _).
  split; [exact (Ha H1) | exact (Hb _ _ H2)].
Defined.

(** ** Adding and removing constraints *)

Lemma firstWithId_alter id objs i obj (f : DrawingObject -> DrawingObject) :
  (forall o, obj_id (f o) = obj_id o) ->
  firstWithId id objs i obj ->
  firstWithId id (alter f i objs) i (f obj).
Proof.
  intros Hf (Hi & Hid & Hfirst). split; [| split].
  - by rewrite list_lookup_alter_eq, Hi.
  - by rewrite Hf.
  - intros j o Hj Ho. rewrite list_lookup_alter_ne in Ho by lia.
    by eapply Hfirst.
Qed.

Lemma obj_id_set_constraints c o : obj_id (set_constraints c o) = obj_id o.
Proof. by destruct o. Qed.

Lemma constraints_set_constraints c o : constraints (set_constraints c o) = c.
Proof. by destruct o. Qed.

Lemma set_constraints_twice c c' o :
  set_constraints c (set_constraints c' o) = set_constraints c o.
Proof. by destruct o. Qed.

Lemma set_constraints_same o : set_constraints (constraints o) o = o.
Proof. by destruct o. Qed.

(** X8.  Adding a constraint and then removing the constraints
    on its target leaves the object with its earlier constraints on other
    targets only: the object is as before when it had a constraint list
    without that target, and no constraint on the target survives. *)
Theorem removeConstraint_after_addConstraint (objectId : string)
  (c : Constraint) (s : AppState) (i : nat) (obj : DrawingObject) :
  firstWithId objectId (objects s) i obj ->
  let s' := removeConstraint objectId (targetId c) (addConstraint objectId c s) in
  objects s'
  = <[i := set_constraints
             (Some (filter (fun k => targetId k ≠ targetId c)
                      (default [] (constraints obj)))) obj]> (objects s) /\
  (forall cs, constraints obj = Some cs -> unconstrained (targetId c) obj ->
              objects s' = objects s) /\
  (forall obj', objects s' !! i = Some obj' -> unconstrained (targetId c) obj').
Proof.
  intros Hfirst s'.
  assert (Hobjs : objects s'
    = <[i := set_constraints
               (Some (filter (fun k => targetId k ≠ targetId c)
                        (default [] (constraints obj)))) obj]> (objects s)).
  { subst s'. unfold addConstraint.
    rewrite (findIndex_first _ _ _ _ Hfirst).
    set (add := fun o => set_constraints
                  (Some (default [] (constraints o) ++ [c])) o).
    pose proof (firstWithId_alter _ _ _ _ add
                  (fun o => obj_id_set_constraints _ o) Hfirst) as Hfirst'.
    unfold removeConstraint. store_simpl.
    rewrite (findIndex_first _ _ _ _ Hfirst'). store_simpl.
    rewrite (alter_at _ _ i (add obj)) by apply Hfirst'.
    rewrite (alter_at _ _ i obj) by apply Hfirst.
    rewrite list_insert_insert_eq. f_equal. unfold add.
    rewrite constraints_set_constraints, set_constraints_twice.
    rewrite filter_app, filter_cons_False, filter_nil, app_nil_r by (by intros ?).
    done. }
  split; [exact Hobjs |]. split.
  - intros cs Hcs Hfree. rewrite Hobjs. unfold unconstrained in Hfree.
    rewrite Hcs in Hfree |- *. simpl in *.
    rewrite filter_keep_all by done. rewrite <- Hcs, set_constraints_same.
    apply list_insert_id, Hfirst.
  - intros obj' Hobj'. rewrite Hobjs in Hobj'.
    rewrite list_lookup_insert_eq in Hobj'
      by (eapply lookup_lt_Some; apply Hfirst).
    simplify_eq. unfold unconstrained.
    rewrite constraints_set_constraints. simpl.
    apply Forall_forall. intros k Hk. by apply list_elem_of_filter in Hk as [? _].
Qed.

Lemma removeConstraint_after_addConstraint_witness :
  let s := loadSavedObjects [followedPoint; constrained center disc] initialState in
  let c := mkConstraint end_point "X" None in
  firstWithId "C" (objects s) 1 (constrained center disc) /\
  objects (removeConstraint "C" "X" (addConstraint "C" c s)) = objects s.
Proof.
  intros s c.
  assert (H : firstWithId "C" (objects s) 1 (constrained center disc)).
  { split; [reflexivity |]. split; [reflexivity |].
    intros [| j] o Hj Ho; [by simplify_eq/= | lia]. }
  split; [exact H |].
  destruct (removeConstraint_after_addConstraint "C" c s _ _ H) as (_ & Hsame & _).
  apply (Hsame _ eq_refl). repeat constructor.
  intros Heq. vm_compute in Heq. discriminate Heq.
Defined.

(** ** Generated names *)

Lemma ObjType_eqb_eq a b : ObjType_eqb a b = true <-> a = b.
Proof. destruct a, b; simpl; split; congruence. Qed.

Lemma append_inj_r (p a b : string) : p +:+ a = p +:+ b -> a = b.
Proof. induction p as [| ch p IH]; simpl; [done |]. intros [=]. by apply IH. Qed.

Lemma obj_type_set_selected b o : obj_type (set_selected b o) = obj_type o.
Proof. by destruct o. Qed.

Lemma obj_type_with_id i n o : obj_type (with_id_createdAt i n o) = obj_type o.
Proof. by destruct o. Qed.

Lemma count_type_mirror t ids os :
  length (List.filter (fun obj => ObjType_eqb (obj_type obj) t)
            (mirror_selection ids os))
  = length (List.filter (fun obj => ObjType_eqb (obj_type obj) t) os).
Proof.
  unfold mirror_selection. induction os as [| o os IH]; [done |]. simpl.
  rewrite obj_type_set_selected. destruct (ObjType_eqb _ _); simpl; by rewrite IH.
Qed.

Lemma generateObjectName_count t s s' :
  generateObjectName t s' = generateObjectName t s <->
  length (List.filter (fun obj => ObjType_eqb (obj_type obj) t) (objects s'))
  = length (List.filter (fun obj => ObjType_eqb (obj_type obj) t) (objects s)).
Proof.
  unfold generateObjectName. split.
  - intros H. destruct (shortNames (type_tag t));
      apply append_inj_r, (inj pretty) in H; lia.
  - by intros ->.
Qed.

(** X9.  Adding an object changes the next generated name of
    its own type and of no other type. *)
Theorem generateObjectName_after_add (t : ObjType) (objectData : DrawingObject)
  (newObjectId : string) (now : Z) (s : AppState) :
  generateObjectName t (addObject objectData newObjectId now s)
  = generateObjectName t s <-> t ≠ obj_type objectData.
Proof.
  rewrite generateObjectName_count, addObject_objects, count_type_mirror.
  rewrite List.filter_app, length_app. simpl.
  rewrite obj_type_with_id.
  destruct (ObjType_eqb (obj_type objectData) t) eqn:E.
  - apply ObjType_eqb_eq in E. simpl. split; [lia | congruence].
  - simpl. split; [| lia]. intros _ ->.
    assert (ObjType_eqb (obj_type objectData) (obj_type objectData) = true)
      by by apply ObjType_eqb_eq.
    congruence.
Qed.

(** ** Midpoint and parallel line *)



Section ParallelFacts.
Local Open Scope R_scope.

Lemma calculateParallelLine_null lineId throughPoint s :
  calculateParallelLine lineId throughPoint s = None <->
  unusableBase lineId s.
Proof.
  unfold calculateParallelLine, unusableBase.
  destruct (getObjectById lineId s) as [baseLine |]; [| done].
  destruct (obj_type baseLine) eqn:Ht;
    try (split; [intros _; by left | done]).
  destruct (points baseLine) as [[| p1 [| p2 rest]] |]; simpl;
    try (split; [intros _; right; lia | done]).
  split; [done |]. intros [H | H]; [done | lia].
Qed.



End ParallelFacts.

(** ** Drawing tools *)

Lemma set_drawing_same d p o s :
  objects (set_drawing d p o s) = objects s /\
  selectedObjectIds (set_drawing d p o s) = selectedObjectIds s /\
  same_history s (set_drawing d p o s).
Proof. by destruct s. Qed.

Lemma set_polygon_same d pts s :
  objects (set_polygon d pts s) = objects s /\
  selectedObjectIds (set_polygon d pts s) = selectedObjectIds s /\
  same_history s (set_polygon d pts s).
Proof. by destruct s. Qed.

Lemma setActiveTool_same tool s :
  objects (setActiveTool tool s) = objects s /\
  selectedObjectIds (setActiveTool tool s) = selectedObjectIds s /\
  same_history s (setActiveTool tool s).
Proof.
  destruct s as [? ? ? ? ? ? ? ? ? ? [] [] ? ? ? ? [] ?];
    unfold setActiveTool; simpl; by destruct (negb _).
Qed.

Lemma same_history_trans s1 s2 s3 :
  same_history s1 s2 -> same_history s2 s3 -> same_history s1 s3.
Proof.
  intros (H1 & H2 & H3) (H4 & H5 & H6). repeat split; congruence.
Qed.

Lemma canRedo_saveToHistory s : canRedo (saveToHistory s) = false.
Proof.
  unfold canRedo. rewrite saveToHistory_historyIndex. apply Z.ltb_irrefl.
Qed.

Lemma addObject_added d i t s :
  store_inv s ->
  store_inv (addObject d i t s) /\
  length (objects (addObject d i t s)) = S (length (objects s)) /\
  currentSnapshot (addObject d i t s) = Some (objects (addObject d i t s)) /\
  canRedo (addObject d i t s) = false.
Proof.
  intros [_ Hcap]. split; [by apply addObject_inv |]. split.
  { rewrite addObject_objects. unfold mirror_selection.
    rewrite length_map, length_app. simpl. lia. }
  unfold addObject. split; [| apply canRedo_saveToHistory].
  rewrite saveToHistory_objects. apply saveToHistory_snapshot.
  eapply capacity_same; [| exact Hcap]. unfold selectObject. by store_simpl.
Qed.

Lemma added_transfer s1 s2 n :
  objects s2 = objects s1 -> same_history s1 s2 ->
  store_inv s1 /\ length (objects s1) = n /\
  currentSnapshot s1 = Some (objects s1) /\ canRedo s1 = false ->
  store_inv s2 /\ length (objects s2) = n /\
  currentSnapshot s2 = Some (objects s2) /\ canRedo s2 = false.
Proof.
  intros Ho Hs (Hinv & Hlen & Hsnap & Hredo).
  split; [by eapply same_history_inv |].
  destruct Hs as (Hh & Hi & _).
  unfold currentSnapshot, canRedo in *. by rewrite Ho, Hh, Hi.
Qed.

(** X12.  The drawing and polygon actions keep the history
    invariant.  Only [finishDrawing] with a preview and [finishPolygon]
    with three points in the polygon tool change objects, selection or
    history; they add exactly one object, commit it as the snapshot under
    the cursor and make redo unavailable. *)
Theorem drawing_actions_history (squareRoot : Q -> Q) (a : DrawingAction)
  (s : AppState) :
  store_inv s ->
  let s' := runDrawing squareRoot a s in
  store_inv s' /\
  (addsObject a s = false ->
   objects s' = objects s /\ selectedObjectIds s' = selectedObjectIds s /\
   same_history s s') /\
  (addsObject a s = true ->
   length (objects s') = S (length (objects s)) /\
   currentSnapshot s' = Some (objects s') /\
   canRedo s' = false).
Proof.
  intros Hinv s'.
  assert (Hquiet : forall s1, objects s1 = objects s /\
            selectedObjectIds s1 = selectedObjectIds s /\ same_history s s1 ->
            store_inv s1 /\
            (false = false -> objects s1 = objects s /\
               selectedObjectIds s1 = selectedObjectIds s /\ same_history s s1) /\
            (false = true -> length (objects s1) = S (length (objects s)) /\
               currentSnapshot s1 = Some (objects s1) /\ canRedo s1 = false)).
  { intros s1 H. split; [eapply same_history_inv; [apply H | exact Hinv] |].
    split; [done | discriminate]. }
  destruct a; subst s'; cbn [runDrawing addsObject].
  - apply Hquiet, setActiveTool_same.
  - apply Hquiet, set_drawing_same.
  - apply Hquiet. unfold updateDrawing.
    destruct (drawingStartPoint s); [apply set_drawing_same |].
    repeat split; reflexivity.
  - unfold finishDrawing. destruct (previewObject s) as [preview |].
    + pose proof (set_drawing_same false None None
        (addObject (set_name (generateObjectName (obj_type preview) s) preview)
           newObjectId now s)) as (Ho & _ & Hs).
      pose proof (added_transfer _ _ _ Ho Hs
                    (addObject_added _ newObjectId now s Hinv)) as (H1 & H2).
      split; [exact H1 |]. split; [discriminate | by intros _].
    + apply Hquiet, set_drawing_same.
  - apply Hquiet, set_drawing_same.
  - apply Hquiet, set_drawing_same.
  - apply Hquiet, set_polygon_same.
  - apply Hquiet. unfold addPolygonPoint.
    destruct (isPolygonDrawing s); [apply set_polygon_same |].
    repeat split; reflexivity.
  - unfold finishPolygon.
    destruct (currentPolygonPoints s) as [| first rest] eqn:Hpts.
    { apply Hquiet, set_polygon_same. }
    destruct ((3 <=? length (first :: rest))%nat
              && String.eqb (activeTool s) "polygon") eqn:Hgo.
    + match goal with |- context [set_polygon false [] ?m] =>
        pose proof (set_polygon_same false [] m) as (Ho & _ & Hs) end.
      pose proof (added_transfer _ _ _ Ho Hs
                    (addObject_added _ newObjectId now s Hinv)) as (H1 & H2).
      split; [exact H1 |]. split; [discriminate | by intros _].
    + apply Hquiet, set_polygon_same.
  - apply Hquiet, set_polygon_same.
Qed.

Lemma drawing_actions_history_witness :
  let s := dragging "line" (mkPoint 0 0) initialState in
  let s1 := runDrawing (fun q => q) (AUpdateDrawing (mkPoint 3 4) false 7) s in
  store_inv s1 /\
  length (objects (runDrawing (fun q => q) (AFinishDrawing "n1" 8) s1)) = 1%nat.
Proof.
  intros s s1.
  assert (Hs : store_inv s) by (split; red; simpl; lia).
  destruct (drawing_actions_history (fun q => q)
              (AUpdateDrawing (mkPoint 3 4) false 7) s Hs) as (H1 & _).
  split; [exact H1 |].
  destruct (drawing_actions_history (fun q => q)
              (AFinishDrawing "n1" 8) s1 H1) as (_ & _ & H2).
  destruct (H2 eq_refl) as (H3 & _). exact H3.
Defined.

Section RectangleFacts.
Local Open Scope Q_scope.

Lemma span_abs (a b : Q) : Qmax a b - Qmin a b == Qabs (b - a).
Proof.
  destruct (Q.max_spec a b) as [[H1 E1] | [H1 E1]];
  destruct (Q.min_spec a b) as [[H2 E2] | [H2 E2]];
    apply Qabs_case; intros; lra.
Qed.

Lemma span_contains (a b : Q) :
  Qmin a b <= a <= Qmin a b + (Qmax a b - Qmin a b) /\
  Qmin a b <= b <= Qmin a b + (Qmax a b - Qmin a b).
Proof.
  destruct (Q.max_spec a b) as [[H1 E1] | [H1 E1]];
  destruct (Q.min_spec a b) as [[H2 E2] | [H2 E2]]; lra.
Qed.

Lemma square_side (start point m : Q) :
  Qabs (point - start) <= m ->
  let rect := if Qle_bool 0 (point - start) then start else start - m in
  rect <= start <= rect + m /\ rect <= point <= rect + m /\
  (rect == start \/ rect + m == start).
Proof.
  intros Hm. revert Hm. apply Qabs_case; intros Hsign Hm;
  destruct (Qle_bool 0 (point - start)) eqn:E; simpl.
  - repeat split; try lra; by left.
  - assert (~ 0 <= point - start)
      by (intros Hc; apply Qle_bool_iff in Hc; congruence).
    done.
  - apply Qle_bool_iff in E. repeat split; try lra; by left.
  - repeat split; try lra; right; lra.
Qed.

Lemma previewRectangle_spec (start point : Point) (shiftPressed : bool) :
  let '(rectX, rectY, w, h) := previewRectangle start point shiftPressed in
  0 <= w /\ 0 <= h /\
  (rectX <= px start <= rectX + w /\ rectY <= py start <= rectY + h) /\
  (rectX <= px point <= rectX + w /\ rectY <= py point <= rectY + h) /\
  (shiftPressed = false ->
   w == Qabs (px point - px start) /\ h == Qabs (py point - py start)) /\
  (shiftPressed = true ->
   w == h /\
   w == Qmax (Qabs (px point - px start)) (Qabs (py point - py start)) /\
   (rectX == px start \/ rectX + w == px start) /\
   (rectY == py start \/ rectY + h == py start)).
Proof.
  unfold previewRectangle.
  pose proof (span_abs (px start) (px point)) as Hw.
  pose proof (span_abs (py start) (py point)) as Hh.
  pose proof (span_contains (px start) (px point)) as Hcx.
  pose proof (span_contains (py start) (py point)) as Hcy.
  set (w := Qmax (px start) (px point) - Qmin (px start) (px point)) in *.
  set (h := Qmax (py start) (py point) - Qmin (py start) (py point)) in *.
  pose proof (Qabs_nonneg (px point - px start)) as Hw0.
  pose proof (Qabs_nonneg (py point - py start)) as Hh0.
  destruct shiftPressed.
  - pose proof (Q.le_max_l w h) as Hml. pose proof (Q.le_max_r w h) as Hmr.
    assert (Hm : Qmax w h
                 == Qmax (Qabs (px point - px start)) (Qabs (py point - py start))).
    { destruct (Q.max_spec w h) as [[? E1] | [? E1]];
      destruct (Q.max_spec (Qabs (px point - px start))
                           (Qabs (py point - py start))) as [[? E2] | [? E2]];
        lra. }
    assert (Hax : Qabs (px point - px start) <= Qmax w h) by lra.
    assert (Hay : Qabs (py point - py start) <= Qmax w h) by lra.
    pose proof (square_side _ _ _ Hax) as Hsx.
    pose proof (square_side _ _ _ Hay) as Hsy.
    simpl in Hsx, Hsy. unfold Qltb.
    destruct (Qle_bool 0 (px point - px start));
    destruct (Qle_bool 0 (py point - py start)); simpl;
      (split; [lra |]); (split; [lra |]);
      (split; [split; [apply Hsx | apply Hsy] |]);
      (split; [split; [apply Hsx | apply Hsy] |]);
      (split; [discriminate |]); intros _;
      (split; [reflexivity |]); (split; [exact Hm |]);
      (split; [apply Hsx | apply Hsy]).
  - split; [lra |]. split; [lra |].
    split; [split; [apply Hcx | apply Hcy] |].
    split; [split; [apply Hcx | apply Hcy] |].
    split; [intros _; by split | discriminate].
Qed.

(** X13.  While a rectangle is dragged, the preview has a width
    and a height that are not negative and contains both ends of the
    drag.  Without Shift its sides are the absolute differences of the
    coordinates; with Shift it is a square whose side is the larger of the
    two differences and which has the start of the drag as a corner. *)
Theorem updateDrawing_rectangle (squareRoot : Q -> Q) (start point : Point)
  (shiftPressed : bool) (now : Z) (s : AppState) :
  activeTool s = "rectangle"%string ->
  drawingStartPoint s = Some start ->
  exists preview w h,
    previewObject (updateDrawing squareRoot point shiftPressed now s)
    = Some preview /\
    obj_type preview = TRectangle /\
    width preview = Some w /\ height preview = Some h /\
    0 <= w /\ 0 <= h /\
    (px (position preview) <= px start <= px (position preview) + w /\
     py (position preview) <= py start <= py (position preview) + h) /\
    (px (position preview) <= px point <= px (position preview) + w /\
     py (position preview) <= py point <= py (position preview) + h) /\
    (shiftPressed = false ->
     w == Qabs (px point - px start) /\ h == Qabs (py point - py start)) /\
    (shiftPressed = true ->
     w == h /\
     w == Qmax (Qabs (px point - px start)) (Qabs (py point - py start)) /\
     (px (position preview) == px start \/
      px (position preview) + w == px start) /\
     (py (position preview) == py start \/
      py (position preview) + h == py start)).
Proof.
  intros Htool Hstart.
  pose proof (previewRectangle_spec start point shiftPressed) as Hspec.
  unfold updateDrawing. rewrite Hstart, Htool. simpl String.eqb. cbv iota.
  destruct (previewRectangle start point shiftPressed) as [[[rectX rectY] w] h].
  eexists _, w, h. split; [by destruct s |].
  split; [reflexivity |]. split; [reflexivity |]. split; [reflexivity |].
  exact Hspec.
Qed.

Lemma updateDrawing_rectangle_witness :
  let s := dragging "rectangle" (mkPoint 10 10) initialState in
  activeTool s = "rectangle"%string /\
  drawingStartPoint s = Some (mkPoint 10 10) /\
  exists preview w h,
    previewObject (updateDrawing (fun q => q) (mkPoint 4 12) true 0 s)
    = Some preview /\
    width preview = Some w /\ height preview = Some h /\ w == h.
Proof.
  intros s.
  assert (H1 : activeTool s = "rectangle"%string) by reflexivity.
  assert (H2 : drawingStartPoint s = Some (mkPoint 10 10)) by reflexivity.
  split; [exact H1 |]. split; [exact H2 |].
  destruct (updateDrawing_rectangle (fun q => q) (mkPoint 10 10) (mkPoint 4 12)
              true 0 s H1 H2)
    as (preview & w & h & Hp & _ & Hw & Hh & _ & _ & _ & _ & _ & Hsq).
  exists preview, w, h. split; [exact Hp |]. split; [exact Hw |].
  split; [exact Hh |]. exact (proj1 (Hsq eq_refl)).
Defined.

End RectangleFacts.

(** ** Polygons *)

Lemma clicks_collect (qs : list Point) (s : AppState) :
  isPolygonDrawing s = true ->
  currentPolygonPoints (clicks qs s) = currentPolygonPoints s ++ qs /\
  isPolygonDrawing (clicks qs s) = true /\
  activeTool (clicks qs s) = activeTool s /\
  objects (clicks qs s) = objects s /\
  selectedObjectIds (clicks qs s) = selectedObjectIds s /\
  same_history s (clicks qs s).
Proof.
  revert s. induction qs as [| q qs IH]; intros s Hd; simpl.
  - rewrite app_nil_r. repeat split; done.
  - unfold clicks in *. simpl.
    assert (Hstep : isPolygonDrawing (addPolygonPoint q s) = true /\
                    currentPolygonPoints (addPolygonPoint q s)
                    = currentPolygonPoints s ++ [q] /\
                    activeTool (addPolygonPoint q s) = activeTool s /\
                    objects (addPolygonPoint q s) = objects s /\
                    selectedObjectIds (addPolygonPoint q s) = selectedObjectIds s /\
                    same_history s (addPolygonPoint q s)).
    { unfold addPolygonPoint. rewrite Hd. by destruct s. }
    destruct Hstep as (H1 & H2 & H3 & H4 & H5 & H6).
    destruct (IH _ H1) as (I1 & I2 & I3 & I4 & I5 & I6).
    rewrite I1, H2, <- app_assoc. simpl.
    repeat split; try congruence.
    all: destruct H6 as (? & ? & ?), I6 as (? & ? & ?); congruence.
Qed.

Lemma clicks_ignored (qs : list Point) (s : AppState) :
  isPolygonDrawing s = false -> clicks qs s = s.
Proof.
  intros Hd. induction qs as [| q qs IH]; [done |].
  unfold clicks in *. simpl. unfold addPolygonPoint at 2. by rewrite Hd.
Qed.

(** X14.  The clicks of a polygon are collected in order,
    starting with the first point, and leave the objects unchanged.
    Finishing in the polygon tool with three or more points adds one
    polygon with exactly these points, positioned at the first; with fewer
    points or in another tool nothing is added.  Afterwards no polygon is
    being collected, and clicks without a started polygon are ignored. *)
Theorem polygon_drawing_collects_points (p : Point) (qs : list Point)
  (newObjectId : string) (now : Z) (s : AppState) :
  let s1 := clicks qs (startPolygonDrawing p s) in
  let s2 := finishPolygon newObjectId now s1 in
  currentPolygonPoints s1 = p :: qs /\
  objects s1 = objects s /\
  polygon_idle s2 /\
  (activeTool s = "polygon"%string -> (2 <= length qs)%nat ->
   exists polygon,
     objects s2
     = mirror_selection [newObjectId] (objects s ++ [polygon]) /\
     obj_id polygon = newObjectId /\
     obj_type polygon = TPolygon /\
     obj_name polygon = generateObjectName TPolygon s /\
     points polygon = Some (p :: qs) /\
     position polygon = p /\
     selectedObjectIds s2 = [newObjectId]) /\
  (activeTool s ≠ "polygon"%string \/ (length qs < 2)%nat ->
   objects s2 = objects s /\ selectedObjectIds s2 = selectedObjectIds s /\
   same_history s s2) /\
  (forall q, polygon_idle s -> clicks (q :: qs) s = s).
Proof.
  intros s1 s2.
  assert (Hstart : isPolygonDrawing (startPolygonDrawing p s) = true)
    by by destruct s.
  destruct (clicks_collect qs _ Hstart) as (Hpts & _ & Htool & Hobj & Hsel & Hh).
  fold s1 in Hpts, Htool, Hobj, Hsel, Hh.
  assert (Hpts' : currentPolygonPoints s1 = p :: qs)
    by (rewrite Hpts; by destruct s).
  assert (Htool' : activeTool s1 = activeTool s)
    by (rewrite Htool; by destruct s).
  assert (Hobj' : objects s1 = objects s) by (rewrite Hobj; by destruct s).
  assert (Hsel' : selectedObjectIds s1 = selectedObjectIds s)
    by (rewrite Hsel; by destruct s).
  assert (Hh' : same_history s s1).
  { eapply same_history_trans; [| exact Hh]. by destruct s. }
  split; [exact Hpts' |]. split; [exact Hobj' |].
  split; [subst s2; unfold finishPolygon, polygon_idle;
          by destruct (set_polygon_same false [] s1), s1; simpl;
          repeat case_match |].
  assert (Hname : generateObjectName TPolygon s1 = generateObjectName TPolygon s)
    by (unfold generateObjectName; by rewrite Hobj').
  split; [| split].
  - intros Hp Hlen. subst s2. unfold finishPolygon.
    rewrite Hpts', Htool', Hp.
    replace (3 <=? length (p :: qs))%nat with true
      by (symmetry; apply Nat.leb_le; simpl; lia).
    simpl andb. cbv iota.
    match goal with |- context [set_polygon false [] ?m] =>
      destruct (set_polygon_same false [] m) as (Ho & Hs & _) end.
    eexists. rewrite Ho, Hs, addObject_objects, Hobj'.
    split; [reflexivity |].
    unfold addObject. rewrite saveToHistory_selectedObjectIds.
    unfold selectObject. store_simpl. rewrite Hname.
    repeat split; reflexivity.
  - intros Hno. subst s2. unfold finishPolygon. rewrite Hpts', Htool'.
    assert (Hgo : (3 <=? length (p :: qs))%nat
                  && String.eqb (activeTool s) "polygon" = false).
    { apply andb_false_iff. destruct Hno as [Hno | Hno].
      - right. by apply String.eqb_neq.
      - left. apply Nat.leb_gt. simpl. lia. }
    rewrite Hgo.
    destruct (set_polygon_same false [] s1) as (Ho & Hs & Hsame).
    rewrite Ho, Hs. split; [done |]. split; [done |].
    eapply same_history_trans; eassumption.
  - intros q [Hidle _]. by apply clicks_ignored.
Qed.

Lemma polygon_drawing_collects_points_witness :
  let s := withTool "polygon" initialState in
  let qs := [mkPoint 4 0; mkPoint 0 3] in
  activeTool s = "polygon"%string /\ (2 <= length qs)%nat /\
  exists polygon,
    objects (finishPolygon "n1" 5 (clicks qs (startPolygonDrawing (mkPoint 0 0) s)))
    = mirror_selection ["n1"%string] (objects s ++ [polygon]) /\
    points polygon = Some (mkPoint 0 0 :: qs).
Proof.
  intros s qs.
  assert (H1 : activeTool s = "polygon"%string) by reflexivity.
  assert (H2 : (2 <= length qs)%nat) by (simpl; lia).
  split; [exact H1 |]. split; [exact H2 |].
  destruct (polygon_drawing_collects_points (mkPoint 0 0) qs "n1" 5 s)
    as (_ & _ & _ & Hadd & _).
  destruct (Hadd H1 H2) as (polygon & Ho & _ & _ & _ & Hp & _).
  exists polygon. split; [exact Ho | exact Hp].
Defined.

(** ** Switching tools *)

(** X15.  Switching the tool cancels the drawing, the polygon
    and the construction in progress; text editing survives only a switch
    to the text tool.  Objects, selection and history are not touched.
    Switching twice to the same tool is switching once, and a switch to a
    tool other than text forgets the switch before it. *)
Theorem setActiveTool_resets (tool : string) (s : AppState) :
  let s' := setActiveTool tool s in
  activeTool s' = tool /\
  isDrawing s' = false /\ drawingStartPoint s' = None /\
  previewObject s' = None /\
  isPolygonDrawing s' = false /\
  (isPolygonDrawing s = true \/ currentPolygonPoints s = [] ->
   currentPolygonPoints s' = []) /\
  constructionMode s' = mode_none /\
  isTextEditing s' = (String.eqb tool "text" && isTextEditing s) /\
  objects s' = objects s /\ selectedObjectIds s' = selectedObjectIds s /\
  same_history s s' /\
  setActiveTool tool s' = s' /\
  (forall other, tool ≠ "text"%string ->
     setActiveTool tool (setActiveTool other s) = s').
Proof.
  intros s'. subst s'.
  destruct s as [? ? ? ? ? ? ? ? ? ? [] [] ? ? ? ? [] ?];
    unfold setActiveTool; simpl;
    destruct (String.eqb tool "text") eqn:E; simpl;
    repeat split; try done; try (by intros [? | ?]);
    try (rewrite ?E; simpl; reflexivity);
    intros other Htool; apply String.eqb_neq in Htool; try congruence;
    destruct (String.eqb other "text"); simpl; rewrite ?E; reflexivity.
Qed.

Lemma setActiveTool_resets_witness :
  let s := clicks [mkPoint 1 1] (startPolygonDrawing (mkPoint 0 0) initialState) in
  (isPolygonDrawing s = true \/ currentPolygonPoints s = []) /\
  currentPolygonPoints (setActiveTool "line" s) = [].
Proof.
  intros s.
  assert (H : isPolygonDrawing s = true \/ currentPolygonPoints s = [])
    by (left; reflexivity).
  split; [exact H |].
  destruct (setActiveTool_resets "line" s) as (_ & _ & _ & _ & _ & Hp & _).
  exact (Hp H).
Defined.

Section AngleToolFacts.
Local Open Scope R_scope.

Lemma toR_midpoint (a b : Point) :
  rx (toR (calculateMidpoint a b)) = (rx (toR a) + rx (toR b)) / 2 /\
  ry (toR (calculateMidpoint a b)) = (ry (toR a) + ry (toR b)) / 2.
Proof.
  unfold calculateMidpoint, toR. simpl.
  assert (H2 : ~ (2 == 0)%Q) by done.
  rewrite !(Q2R_div _ _ H2), !Q2R_plus.
  replace (Q2R 2) with 2 by (unfold Q2R; simpl; lra). done.
Qed.

Lemma acos_minus_one : acos (-1) = PI.
Proof.
  replace (-1) with (- (1)) by lra. rewrite acos_opp, acos_1. lra.
Qed.

Lemma calculateAngle_straight (pointA vertex pointC : RPoint) :
  rx pointC - rx vertex = - (rx pointA - rx vertex) ->
  ry pointC - ry vertex = - (ry pointA - ry vertex) ->
  (rx pointA - rx vertex <> 0 \/ ry pointA - ry vertex <> 0 ->
   calculateAngle pointA vertex pointC = Some 180) /\
  (rx pointA - rx vertex = 0 /\ ry pointA - ry vertex = 0 ->
   calculateAngle pointA vertex pointC = None).
Proof.
  intros Hx Hy. unfold calculateAngle. simpl. rewrite Hx, Hy.
  set (ux := rx pointA - rx vertex). set (uy := ry pointA - ry vertex).
  replace (- ux * - ux + - uy * - uy) with (ux * ux + uy * uy) by ring.
  split.
  - intros Hu. pose proof (norm_pos ux uy Hu) as Hn.
    pose proof (norm_square ux uy) as Hsq.
    set (n := sqrt (ux * ux + uy * uy)) in *.
    rewrite quotient_nonzero by nra. simpl.
    replace ((ux * - ux + uy * - uy) / (n * n)) with (-1)
      by (rewrite Hsq; field; nra).
    rewrite clampCos_id by lra. rewrite acos_minus_one.
    f_equal. field. pose proof PI_RGT_0. lra.
  - intros [-> ->].
    replace (0 * 0 + 0 * 0) with 0 by ring. rewrite sqrt_0.
    replace (0 * 0) with 0 by ring. by rewrite quotient_zero.
Qed.



End AngleToolFacts.

Section GridFacts.
Local Open Scope Q_scope.

Lemma Qle_bool_false a b : Qle_bool a b = false -> b < a.
Proof.
  intros H. apply Qnot_le_lt. intros Hc. apply Qle_bool_iff in Hc. congruence.
Qed.

Lemma ceil_ge v : v <= ceil v.
Proof. apply Qle_ceiling. Qed.

Lemma ceil_lt v : ceil v < v + 1.
Proof.
  unfold ceil. pose proof (Qceiling_lt v) as H.
  replace (Qceiling v - 1)%Z with (Qceiling v + -1)%Z in H by lia.
  rewrite inject_Z_plus in H. change (inject_Z (-1)) with (-1) in H. lra.
Qed.

(** X17.  The grid step is at least 0.25 and at least a tenth of
    the range.  For a range up to 500 it is one of 0.25, 0.5, 1, 2, 5, 10,
    20, 50; beyond, it is a multiple of 10 less than 10 above a tenth of
    the range. *)
Theorem getGridStep_spec (range : Q) :
  0.25 <= getGridStep range /\
  range <= 10 * getGridStep range /\
  (range <= 500 ->
   Exists (fun step => getGridStep range == step)
     [0.25; 0.5; 1; 2; 5; 10; 20; 50]) /\
  (500 < range ->
   getGridStep range < range / 10 + 10 /\
   exists k : Z, getGridStep range == inject_Z k * 10).
Proof.
  unfold getGridStep.
  assert (Hr : range == range / 10 * 10) by (field; lra).
  set (roughStep := range / 10) in *.
  repeat match goal with
         | |- context [if Qle_bool ?a ?b then _ else _] =>
             let E := fresh "E" in
             destruct (Qle_bool a b) eqn:E;
             [apply Qle_bool_iff in E | apply Qle_bool_false in E]
         end.
  1-8: split; [lra |]; split; [lra |]; split; [| intros; lra]; intros _;
       repeat first [ apply Exists_cons_hd; reflexivity | apply Exists_cons_tl ].
  pose proof (ceil_ge (roughStep / 10)) as Hc.
  pose proof (ceil_lt (roughStep / 10)) as Hc'.
  assert (H10 : roughStep == roughStep / 10 * 10) by (field; lra).
  set (q := roughStep / 10) in *.
  split; [lra |]. split; [lra |]. split; [intros; lra |]. intros _.
  split; [lra |]. exists (Qceiling q). reflexivity.
Qed.

Lemma getGridStep_spec_witness :
  600 > 500 /\ getGridStep 600 < 600 / 10 + 10.
Proof.
  assert (H : 500 < 600) by reflexivity.
  split; [exact H |].
  exact (proj1 (proj2 (proj2 (proj2 (getGridStep_spec 600))) H)).
Defined.

Lemma tickSpacing_pos (axisRange : Q) : 0 < tickSpacing axisRange.
Proof.
  unfold tickSpacing.
  repeat match goal with
         | |- context [if Qle_bool ?a ?b then _ else _] =>
             let E := fresh "E" in
             destruct (Qle_bool a b) eqn:E;
             [apply Qle_bool_iff in E | apply Qle_bool_false in E]
         end; try lra.
  pose proof (ceil_ge (axisRange / 10)). lra.
Qed.

Lemma tickSpacing_covers (axisRange : Q) : axisRange <= 10 * tickSpacing axisRange.
Proof.
  unfold tickSpacing.
  assert (Hr : axisRange == axisRange / 10 * 10) by (field; lra).
  set (rough := axisRange / 10) in *.
  repeat match goal with
         | |- context [if Qle_bool ?a ?b then _ else _] =>
             let E := fresh "E" in
             destruct (Qle_bool a b) eqn:E;
             [apply Qle_bool_iff in E | apply Qle_bool_false in E]
         end; try lra.
  pose proof (ceil_ge rough). lra.
Qed.

Lemma tickLoop_length fuel x stop spacing :
  (length (tickLoop fuel x stop spacing) <= fuel)%nat.
Proof.
  revert x. induction fuel as [| fuel IH]; intros x; simpl; [lia |].
  destruct (Qle_bool x stop); [| simpl; lia].
  specialize (IH (x + spacing)).
  destruct (Qle_bool (spacing * 0.1) (Qabs x)); simpl; lia.
Qed.

Lemma tickLoop_spec fuel x stop spacing :
  0 < spacing ->
  Forall (fun t => t <= stop /\ spacing * 0.1 <= Qabs t /\
                   exists k : Z, (0 <= k)%Z /\ t == x + inject_Z k * spacing)
    (tickLoop fuel x stop spacing).
Proof.
  intros Hs. revert x. induction fuel as [| fuel IH]; intros x; simpl; [done |].
  destruct (Qle_bool x stop) eqn:Hguard; [| done].
  apply Qle_bool_iff in Hguard.
  assert (Hrest : Forall (fun t => t <= stop /\ spacing * 0.1 <= Qabs t /\
                   exists k : Z, (0 <= k)%Z /\ t == x + inject_Z k * spacing)
                    (tickLoop fuel (x + spacing) stop spacing)).
  { eapply Forall_impl; [apply IH |]. intros t (H1 & H2 & k & Hk & Ht).
    split; [done |]. split; [done |]. exists (k + 1)%Z. split; [lia |].
    rewrite inject_Z_plus. change (inject_Z 1) with 1. lra. }
  destruct (Qle_bool (spacing * 0.1) (Qabs x)) eqn:Hzero; [| exact Hrest].
  apply Qle_bool_iff in Hzero. apply Forall_cons. split; [| exact Hrest].
  split; [done |]. split; [done |]. exists 0%Z. split; [lia |].
  change (inject_Z 0) with 0. lra.
Qed.

Lemma tickLoop_increasing fuel x stop spacing :
  0 < spacing ->
  Forall (fun t => x <= t) (tickLoop fuel x stop spacing) /\
  StronglySorted Qlt (tickLoop fuel x stop spacing).
Proof.
  intros Hs. revert x. induction fuel as [| fuel IH]; intros x; simpl.
  { split; constructor. }
  destruct (Qle_bool x stop); [| split; constructor].
  destruct (IH (x + spacing)) as [Hlow Hsorted].
  assert (Hlow' : Forall (fun t => x < t) (tickLoop fuel (x + spacing) stop spacing)).
  { eapply Forall_impl; [exact Hlow |]. simpl. intros; lra. }
  destruct (Qle_bool (spacing * 0.1) (Qabs x)).
  - split.
    + apply Forall_cons. split; [lra |].
      eapply Forall_impl; [exact Hlow' |]. simpl. intros; lra.
    + by constructor.
  - split; [| done]. eapply Forall_impl; [exact Hlow' |]. simpl. intros; lra.
Qed.



End GridFacts.

(** ** Drawing order *)

Lemma insertByCreatedAt_perm obj sorted :
  insertByCreatedAt obj sorted ≡ₚ obj :: sorted.
Proof.
  induction sorted as [| o rest IH]; simpl; [done |].
  destruct (createdAt obj <? createdAt o); [done |].
  rewrite IH. apply Permutation_swap.
Qed.

Lemma insertByCreatedAt_sorted obj sorted :
  StronglySorted (fun a b => createdAt a <= createdAt b) sorted ->
  StronglySorted (fun a b => createdAt a <= createdAt b)
    (insertByCreatedAt obj sorted).
Proof.
  induction 1 as [| o rest Hrest IH Ho]; simpl.
  - repeat constructor.
  - destruct (createdAt obj <? createdAt o) eqn:E.
    + apply Z.ltb_lt in E. constructor; [by constructor |].
      constructor; [lia |].
      eapply Forall_impl; [exact Ho |]. simpl. intros; lia.
    + apply Z.ltb_ge in E. constructor; [exact IH |].
      rewrite insertByCreatedAt_perm. by constructor.
Qed.

Lemma insertByCreatedAt_stable (t : Z) obj sorted :
  StronglySorted (fun a b => createdAt a <= createdAt b) sorted ->
  List.filter (fun o => createdAt o =? t) (insertByCreatedAt obj sorted)
  = List.filter (fun o => createdAt o =? t) sorted
    ++ List.filter (fun o => createdAt o =? t) [obj].
Proof.
  induction 1 as [| o rest Hrest IH Ho]; simpl; [done |].
  destruct (createdAt obj <? createdAt o) eqn:E.
  - apply Z.ltb_lt in E. simpl.
    destruct (createdAt obj =? t) eqn:Et; [| by rewrite app_nil_r].
    apply Z.eqb_eq in Et.
    assert (Ho' : (createdAt o =? t) = false) by (apply Z.eqb_neq; lia).
    rewrite Ho'.
    assert (Hnone : List.filter (fun o => createdAt o =? t) rest = []).
    { clear IH Hrest. induction rest as [| r rest IHr]; simpl; [done |].
      apply Forall_cons in Ho as [Hr Ho].
      assert (Hr' : (createdAt r =? t) = false) by (apply Z.eqb_neq; lia).
      rewrite Hr'. by apply IHr. }
    by rewrite Hnone.
  - simpl. rewrite IH. simpl. by destruct (createdAt o =? t).
Qed.

Lemma sort_loop objects sorted :
  StronglySorted (fun a b => createdAt a <= createdAt b) sorted ->
  let result :=
    fold_left (fun sorted obj => insertByCreatedAt obj sorted) objects sorted in
  result ≡ₚ sorted ++ objects /\
  StronglySorted (fun a b => createdAt a <= createdAt b) result /\
  forall t, List.filter (fun o => createdAt o =? t) result
            = List.filter (fun o => createdAt o =? t) (sorted ++ objects).
Proof.
  revert sorted. induction objects as [| obj objects IH]; intros sorted Hs; simpl.
  - rewrite app_nil_r. done.
  - destruct (IH _ (insertByCreatedAt_sorted obj sorted Hs)) as (Hp & Hs' & Hst).
    split; [| split; [exact Hs' |]].
    + rewrite Hp, insertByCreatedAt_perm.
      simpl. apply Permutation_middle.
    + intros t. rewrite Hst, !List.filter_app.
      rewrite (insertByCreatedAt_stable t obj sorted Hs).
      simpl. rewrite <- app_assoc. f_equal.
      by destruct (createdAt obj =? t).
Qed.

(** X19.  The drawing order is a permutation of the objects in
    non-decreasing creation time; objects created at the same time keep
    their relative order, and a collection already in order is
    unchanged. *)
Theorem sortByCreatedAt_stable_sort (objects : list DrawingObject) :
  sortByCreatedAt objects ≡ₚ objects /\
  StronglySorted (fun a b => createdAt a <= createdAt b)
    (sortByCreatedAt objects) /\
  (forall t : Z,
     List.filter (fun obj => createdAt obj =? t) (sortByCreatedAt objects)
     = List.filter (fun obj => createdAt obj =? t) objects) /\
  (StronglySorted (fun a b => createdAt a <= createdAt b) objects ->
   sortByCreatedAt objects = objects).
Proof.
  unfold sortByCreatedAt.
  destruct (sort_loop objects [] (SSorted_nil _)) as (Hp & Hs & Hst).
  split; [exact Hp |]. split; [exact Hs |]. split; [exact Hst |].
  intros Hsorted.
  assert (Hgen : forall sorted,
            StronglySorted (fun a b => createdAt a <= createdAt b)
              (sorted ++ objects) ->
            fold_left (fun sorted obj => insertByCreatedAt obj sorted)
              objects sorted = sorted ++ objects).
  { clear. induction objects as [| obj objects IH]; intros sorted Hs; simpl.
    - by rewrite app_nil_r.
    - assert (Hins : insertByCreatedAt obj sorted = sorted ++ [obj]).
      { clear IH. induction sorted as [| o rest IHs]; simpl; [done |].
        simpl in Hs. apply StronglySorted_inv in Hs as [Hs Ho].
        rewrite Forall_app in Ho. destruct Ho as [_ Ho].
        apply Forall_cons in Ho as [Ho _].
        assert (E : (createdAt obj <? createdAt o) = false)
          by (apply Z.ltb_ge; lia).
        rewrite E. f_equal. by apply IHs. }
      rewrite Hins, IH; rewrite <- app_assoc; done. }
  exact (Hgen [] Hsorted).
Qed.

Lemma sortByCreatedAt_stable_sort_witness :
  StronglySorted (fun a b => createdAt a <= createdAt b) [followedPoint; disc] /\
  sortByCreatedAt [followedPoint; disc] = [followedPoint; disc].
Proof.
  assert (H : StronglySorted (fun a b => createdAt a <= createdAt b)
                [followedPoint; disc]).
  { repeat constructor; simpl; lia. }
  split; [exact H |].
  destruct (sortByCreatedAt_stable_sort [followedPoint; disc])
    as (_ & _ & _ & Hid).
  exact (Hid H).
Defined.

(** ** Hidden objects *)

Section HiddenFacts.

Variable cosDegrees sinDegrees : Q -> Q.

Lemma canvasExtents_loop_visible objects acc :
  fold_left
    (fun acc obj => if negb (visible obj) then acc
                    else objectExtents cosDegrees sinDegrees acc obj)
    objects acc
  = fold_left
      (fun acc obj => if negb (visible obj) then acc
                      else objectExtents cosDegrees sinDegrees acc obj)
      (List.filter visible objects) acc.
Proof.
  revert acc. induction objects as [| obj objects IH]; intros acc; simpl; [done |].
  destruct (visible obj) eqn:E; simpl; [rewrite E; simpl |]; apply IH.
Qed.

Lemma canvasExtents_hidden objects :
  List.filter visible objects = [] -> canvasExtents cosDegrees sinDegrees objects = None.
Proof.
  intros H. unfold canvasExtents. by rewrite canvasExtents_loop_visible, H.
Qed.

Lemma filter_hidden (objects : list DrawingObject) :
  Forall (fun obj => visible obj = false) objects ->
  List.filter visible objects = [].
Proof.
  induction 1 as [| o rest Ho _ IH]; simpl; [done |]. by rewrite Ho.
Qed.

(** X20.  Hidden objects do not count for the view bounds: the
    bounds of a scene are those of its visible objects, and a scene with
    nothing visible gets the default window. *)
Theorem calculateBounds_ignores_hidden (objects : list DrawingObject) :
  calculateBounds cosDegrees sinDegrees objects
  = calculateBounds cosDegrees sinDegrees (List.filter visible objects) /\
  (Forall (fun obj => visible obj = false) objects ->
   calculateBounds cosDegrees sinDegrees objects = defaultBounds).
Proof.
  assert (Heq : calculateBounds cosDegrees sinDegrees objects
    = calculateBounds cosDegrees sinDegrees (List.filter visible objects)).
  { unfold calculateBounds.
    assert (Hc : canvasExtents cosDegrees sinDegrees objects
                 = canvasExtents cosDegrees sinDegrees (List.filter visible objects))
      by apply canvasExtents_loop_visible.
    destruct (List.filter visible objects) as [| o rest] eqn:Hf.
    - rewrite (canvasExtents_hidden objects Hf). simpl.
      by destruct (length objects =? 0)%nat.
    - rewrite Hc. destruct objects as [| o' rest']; [done |]. reflexivity. }
  split; [exact Heq |]. intros Hall. rewrite Heq.
  by rewrite (filter_hidden objects Hall).
Qed.

End HiddenFacts.

Lemma calculateBounds_ignores_hidden_witness :
  let hidden :=
    mkObject "h" TCircle "h" false false None None None (mkPoint 900 900)
      "#000000" 2%Q "transparent" None None None None None None None None
      None None None None None None 0 None in
  Forall (fun obj => visible obj = false) [hidden] /\
  calculateBounds unitCos zeroSin [hidden] = defaultBounds.
Proof.
  intros hidden.
  assert (H : Forall (fun obj => visible obj = false) [hidden])
    by (repeat constructor).
  split; [exact H |].
  exact (proj2 (calculateBounds_ignores_hidden unitCos zeroSin [hidden]) H).
Defined.

(** ** Colours *)

Lemma toLowerCase_ascii_idem c :
  toLowerCase_ascii (toLowerCase_ascii c) = toLowerCase_ascii c.
Proof. by destruct c as [[] [] [] [] [] [] [] []]. Qed.

Lemma isHexDigit_lower c : isHexDigit (toLowerCase_ascii c) = isHexDigit c.
Proof. by destruct c as [[] [] [] [] [] [] [] []]. Qed.

Lemma mapChars_cons f c str :
  mapChars f (String c str) = String (f c) (mapChars f str).
Proof. reflexivity. Qed.

Lemma toLowerCase_idem str : toLowerCase (toLowerCase str) = toLowerCase str.
Proof.
  unfold toLowerCase. induction str as [| c str IH]; [done |].
  rewrite !mapChars_cons, toLowerCase_ascii_idem. by f_equal.
Qed.

Lemma toLowerCase_length str :
  String.length (toLowerCase str) = String.length str.
Proof.
  unfold toLowerCase. induction str as [| c str IH]; [done |].
  rewrite mapChars_cons. simpl. by f_equal.
Qed.

Lemma toLowerCase_hex str :
  forallb isHexDigit (list_ascii_of_string (toLowerCase str))
  = forallb isHexDigit (list_ascii_of_string str).
Proof.
  unfold toLowerCase. induction str as [| c str IH]; [done |].
  rewrite mapChars_cons. simpl. by rewrite isHexDigit_lower, IH.
Qed.

Lemma isValidHexColor_lower color :
  isValidHexColor (toLowerCase color) = isValidHexColor color.
Proof.
  destruct color as [| c digits]; [done |].
  unfold toLowerCase. rewrite mapChars_cons. fold (toLowerCase digits).
  unfold isValidHexColor.
  destruct (ascii_dec c "#") as [-> | Hne].
  - change (toLowerCase_ascii "#") with "#"%char.
    by rewrite toLowerCase_length, toLowerCase_hex.
  - assert (toLowerCase_ascii c ≠ "#"%char).
    { intros H. apply Hne. revert H.
      by destruct c as [[] [] [] [] [] [] [] []]. }
    destruct (toLowerCase_ascii c) as [[] [] [] [] [] [] [] []]; try done;
    destruct c as [[] [] [] [] [] [] [] []]; done.
Qed.

Lemma isValidHexColor_hash color :
  isValidHexColor color = true -> exists digits, color = String "#" digits.
Proof.
  destruct color as [| c digits]; [done |]. intros H.
  exists digits. f_equal.
  destruct c as [[] [] [] [] [] [] [] []]; done.
Qed.

Lemma isCustomColor_spec color :
  isCustomColor color = true <->
  isValidHexColor color = true /\ toLowerCase color ∉ commonColors.
Proof.
  unfold isCustomColor. rewrite !andb_true_iff, !negb_true_iff.
  rewrite <- (not_true_iff_false (Js.includes _ _)), includes_elem.
  split; [tauto |]. intros [Hv Hn]. split; [split |]; [| done | done].
  apply String.eqb_neq. intros ->. done.
Qed.

Lemma isCustomColor_not_transparent color :
  isCustomColor color = true -> String.eqb color "transparent" = false.
Proof.
  intros H. apply isCustomColor_spec in H as [Hv _].
  apply String.eqb_neq. intros ->. done.
Qed.

Lemma setAdd_elem c acc x : x ∈ setAdd c acc <-> x ∈ acc \/ x = c.
Proof.
  unfold setAdd. destruct (Js.includes acc c) eqn:E.
  - apply includes_elem in E. split; [tauto |]. intros [H | ->]; done.
  - rewrite elem_of_app, list_elem_of_singleton. tauto.
Qed.

Lemma setAdd_NoDup c acc : NoDup acc -> NoDup (setAdd c acc).
Proof.
  intros Hnd. unfold setAdd. destruct (Js.includes acc c) eqn:E; [done |].
  apply NoDup_app. split; [done |]. split; [| apply NoDup_singleton].
  intros x Hx Hc. apply list_elem_of_singleton in Hc as ->.
  apply includes_elem in Hx. congruence.
Qed.

(** One object: what the three checks add. *)
Lemma collectColors_elem acc obj x :
  x ∈ collectColors acc obj <->
  x ∈ acc \/
  (visible obj = true /\
   exists color, paints obj color /\ isCustomColor color = true /\
                 x = toLowerCase color).
Proof.
  unfold collectColors, paints.
  destruct (visible obj);
    [| split; [by left | intros [H | [H _]]; [done | discriminate]]].
  assert (Hcheck : forall color l,
            x ∈ (if negb (String.eqb color "transparent") && isCustomColor color
                 then setAdd (toLowerCase color) l else l)
            <-> x ∈ l \/ (isCustomColor color = true /\ x = toLowerCase color)).
  { intros color l. destruct (isCustomColor color) eqn:Ec.
    - rewrite (isCustomColor_not_transparent _ Ec). simpl.
      rewrite setAdd_elem. tauto.
    - rewrite andb_false_r. split; [tauto | intros [H | [H _]]; done]. }
  assert (Hname : forall l,
            x ∈ match nameStyle obj ≫= ns_color with
                | Some color =>
                    if isCustomColor color then setAdd (toLowerCase color) l
                    else l
                | None => l
                end
            <-> x ∈ l \/ (exists color, nameStyle obj ≫= ns_color = Some color /\
                            isCustomColor color = true /\ x = toLowerCase color)).
  { intros l. destruct (nameStyle obj ≫= ns_color) as [color |].
    - destruct (isCustomColor color) eqn:Ec.
      + rewrite setAdd_elem. split.
        * intros [H | H]; [by left | right; by exists color].
        * intros [H | (c & [= <-] & _ & H)]; [by left | by right].
      + split; [by left |]. intros [H | (c & [= <-] & H & _)]; [done |].
        congruence.
    - split; [by left |]. intros [H | (c & H & _)]; done. }
  rewrite Hname, !Hcheck. split.
  - intros [[[H | [Hc ->]] | [Hc ->]] | (color & Hn & Hc & ->)].
    + by left.
    + right. split; [done |]. exists (stroke obj). split; [by left | done].
    + right. split; [done |]. exists (fill obj).
      split; [right; by left | done].
    + right. split; [done |]. exists color. split; [right; by right | done].
  - intros [H | (_ & color & [Hs | [Hf | Hn]] & Hc & ->)].
    + by left; left; left.
    + subst color. left. left. right. done.
    + subst color. left. right. done.
    + right. by exists color.
Qed.

Lemma collectColors_NoDup acc obj : NoDup acc -> NoDup (collectColors acc obj).
Proof.
  intros Hnd. unfold collectColors. destruct (visible obj); [| done].
  assert (Hif : forall (b : bool) c l,
            NoDup l -> NoDup (if b then setAdd c l else l)).
  { intros [] c l Hl; [by apply setAdd_NoDup | done]. }
  destruct (nameStyle obj ≫= ns_color) as [color |];
    repeat apply Hif; done.
Qed.

Lemma collect_loop objects acc :
  NoDup acc ->
  NoDup (fold_left collectColors objects acc) /\
  forall x, x ∈ fold_left collectColors objects acc <->
    x ∈ acc \/
    exists obj color, obj ∈ objects /\ visible obj = true /\
      paints obj color /\ isCustomColor color = true /\ x = toLowerCase color.
Proof.
  revert acc. induction objects as [| obj objects IH]; intros acc Hnd; simpl.
  - split; [done |]. intros x. split; [tauto |].
    intros [H | (o & c & Ho & _)]; [done |]. by apply elem_of_nil in Ho.
  - destruct (IH _ (collectColors_NoDup acc obj Hnd)) as [Hnd' Hiff].
    split; [exact Hnd' |]. intros x. rewrite Hiff, collectColors_elem.
    split.
    + intros [[H | (Hv & c & Hp & Hc & ->)] | (o & c & Ho & Hrest)].
      * by left.
      * right. exists obj, c. split; [left |]; done.
      * right. exists o, c. split; [by right |]. done.
    + intros [H | (o & c & Ho & Hv & Hp & Hc & ->)]; [by left; left |].
      apply elem_of_cons in Ho as [-> | Ho].
      * left. right. split; [done |]. by exists c.
      * right. exists o, c. done.
Qed.

Lemma customColors_elem (objects : list DrawingObject) (c : string) :
  c ∈ customColors objects <->
  exists obj color, obj ∈ objects /\ visible obj = true /\
    paints obj color /\ isValidHexColor color = true /\
    (toLowerCase color ∉ commonColors) /\ c = toLowerCase color.
Proof.
  unfold customColors.
  destruct (collect_loop objects [] NoDup_nil_2) as [_ Hiff].
  rewrite Hiff. split.
  - intros [H | (o & col & Ho & Hv & Hp & Hc & ->)];
      [by apply elem_of_nil in H |].
    apply isCustomColor_spec in Hc as [Hc1 Hc2]. by exists o, col.
  - intros (o & col & Ho & Hv & Hp & Hc1 & Hc2 & ->). right.
    exists o, col. repeat split; try done. by apply isCustomColor_spec.
Qed.

(** X21.  The colours defined in the header are, each once, the
    lower-case forms of the valid hexadecimal colours outside the built-in
    palette that a visible object uses as stroke, fill or name colour;
    hidden objects contribute nothing. *)
Theorem customColors_spec (objects : list DrawingObject) :
  NoDup (customColors objects) /\
  (forall c, c ∈ customColors objects <->
     exists obj color, obj ∈ objects /\ visible obj = true /\
       paints obj color /\ isValidHexColor color = true /\
       (toLowerCase color ∉ commonColors) /\ c = toLowerCase color) /\
  Forall (fun c => isValidHexColor c = true /\ toLowerCase c = c /\
                   c ∉ commonColors) (customColors objects) /\
  customColors (List.filter visible objects) = customColors objects.
Proof.
  split; [apply (collect_loop objects [] NoDup_nil_2) |].
  split; [apply customColors_elem |]. split.
  - apply Forall_forall. intros c Hc.
    apply customColors_elem in Hc as (o & col & _ & _ & _ & Hv & Hn & ->).
    by rewrite isValidHexColor_lower, toLowerCase_idem.
  - unfold customColors. generalize (@nil string).
    induction objects as [| obj objects IH]; intros acc; simpl; [done |].
    destruct (visible obj) eqn:E; simpl; [by rewrite IH |].
    assert (Hskip : collectColors acc obj = acc)
      by (unfold collectColors; by rewrite E).
    by rewrite IH, Hskip.
Qed.

Lemma lookupColor_common key :
  lookupColor key = None <-> key ∉ commonColors.
Proof.
  unfold lookupColor. change commonColors with (map fst colorMap).
  induction colorMap as [| [k v] entries IH]; simpl.
  - split; [intros _ H; by apply elem_of_nil in H | done].
  - destruct (String.eqb k key) eqn:E; simpl.
    + apply String.eqb_eq in E. subst. split; [done |].
      intros H. exfalso. apply H. by left.
    + apply String.eqb_neq in E. rewrite IH, not_elem_of_cons.
      split; [intros H; split; [congruence | done] | tauto].
Qed.

(** X22.  For a valid hexadecimal colour used by a visible
    object, [formatColor] returns either the palette name of the colour or
    a custom name that [generateColorDefinitions] defines. *)
Theorem formatColor_defined (objects : list DrawingObject)
  (obj : DrawingObject) (color : string) :
  obj ∈ objects -> visible obj = true -> paints obj color ->
  isValidHexColor color = true ->
  exists name,
    formatColor color None = Some name /\
    (lookupColor (toLowerCase color) = Some name \/
     ((toLowerCase color ∉ commonColors) /\
      name ∈ definedColorNames objects)).
Proof.
  intros Hobj Hvis Hpaint Hvalid.
  destruct (isValidHexColor_hash color Hvalid) as (digits & ->).
  assert (Hlow : toLowerCase (String "#" digits)
                 = String "#" (toLowerCase digits)) by reflexivity.
  unfold formatColor. rewrite !Hlow.
  change (String.eqb (String "#" digits) "transparent") with false. cbv iota.
  change (Js.includes inheritedKeys (String "#" (toLowerCase digits)))
    with false. cbv iota zeta.
  destruct (lookupColor (String "#" (toLowerCase digits))) as [name |] eqn:El.
  - exists name. split; [reflexivity |]. by left.
  - eexists. split; [reflexivity |]. right.
    apply lookupColor_common in El. split; [exact El |].
    unfold definedColorNames.
    apply (list_elem_of_fmap_2
             (fun color => ("customcolor" +:+ toUpperCase (dropFirst color))%string)
             (customColors objects) (String "#" (toLowerCase digits))).
    apply customColors_elem. exists obj, (String "#" digits).
    rewrite Hlow. done.
Qed.

Lemma formatColor_defined_witness :
  let obj := set_selected false (fixture "a" TCircle (mkPoint 0 0)) in
  let painted :=
    mkObject "a" TCircle "a" true false None None None (mkPoint 0 0)
      "#AbCdEf" 2%Q "transparent" None None None None None None None None
      None None None None None None 0 None in
  painted ∈ [obj; painted] /\ visible painted = true /\
  paints painted "#AbCdEf" /\ isValidHexColor "#AbCdEf" = true /\
  exists name, formatColor "#AbCdEf" None = Some name /\
               name ∈ definedColorNames [obj; painted].
Proof.
  intros obj painted.
  assert (H1 : painted ∈ [obj; painted]) by (right; left).
  assert (H2 : visible painted = true) by reflexivity.
  assert (H3 : paints painted "#AbCdEf") by (left; reflexivity).
  assert (H4 : isValidHexColor "#AbCdEf" = true) by reflexivity.
  split; [exact H1 |]. split; [exact H2 |]. split; [exact H3 |].
  split; [exact H4 |].
  destruct (formatColor_defined [obj; painted] painted "#AbCdEf" H1 H2 H3 H4)
    as (name & Hname & [Hcommon | [_ Hdef]]).
  - vm_compute in Hcommon. discriminate Hcommon.
  - exists name. split; [exact Hname | exact Hdef].
Defined.

Section CurveFacts.
Local Open Scope R_scope.

Lemma clamp_unit (x : R) :
  0 <= Rmax 0 (Rmin 1 x) <= 1 /\
  (x < 0 -> Rmax 0 (Rmin 1 x) = 0) /\
  (1 < x -> Rmax 0 (Rmin 1 x) = 1) /\
  (0 <= x <= 1 -> Rmax 0 (Rmin 1 x) = x).
Proof.
  unfold Rmax, Rmin.
  destruct (Rle_dec 1 x); destruct (Rle_dec 0 _); repeat split; intros; lra.
Qed.

Lemma sum_squares_nonneg (x y : R) : 0 <= x * x + y * y.
Proof.
  pose proof (Rle_0_sqr x) as Hx. pose proof (Rle_0_sqr y) as Hy.
  unfold Rsqr in *. lra.
Qed.

Lemma sqrt_le_sq (x y : R) : 0 <= x -> x <= y -> sqrt x <= sqrt y.
Proof. intros. by apply sqrt_le_1_alt. Qed.

(** The squared distance from [P] to the point at parameter [s], as a
    polynomial in [s]. *)
Lemma nearest_parameter (w1 w2 u1 u2 t s : R) :
  let L := u1 * u1 + u2 * u2 in
  let d := w1 * u1 + w2 * u2 in
  0 < L -> t = Rmax 0 (Rmin 1 (d / L)) -> 0 <= s <= 1 ->
  (w1 - t * u1) * (w1 - t * u1) + (w2 - t * u2) * (w2 - t * u2)
  <= (w1 - s * u1) * (w1 - s * u1) + (w2 - s * u2) * (w2 - s * u2).
Proof.
  intros L d HL Ht Hs.
  assert (Hdiff :
    (w1 - s * u1) * (w1 - s * u1) + (w2 - s * u2) * (w2 - s * u2)
    - ((w1 - t * u1) * (w1 - t * u1) + (w2 - t * u2) * (w2 - t * u2))
    = (s - t) * ((s + t) * L - 2 * d)) by (unfold L, d; ring).
  assert (Hd : d = d / L * L) by (field; lra).
  clearbody L d. set (q := d / L) in *. clearbody q. subst d.
  destruct (clamp_unit q) as (Hrange & Hneg & Hbig & Hmid).
  rewrite <- Ht in Hrange, Hneg, Hbig, Hmid. clear Ht.
  destruct (Rlt_dec q 0) as [Hlo | Hlo].
  - rewrite (Hneg Hlo) in *.
    assert (0 <= s * (s * L)) by (apply Rmult_le_pos; nra).
    assert (0 <= s * (- q * L)) by (apply Rmult_le_pos; nra).
    nra.
  - destruct (Rlt_dec 1 q) as [Hhi | Hhi].
    + rewrite (Hbig Hhi) in *.
      assert (0 <= (1 - s) * ((q - 1) * L)) by (apply Rmult_le_pos; nra).
      assert (0 <= (1 - s) * ((1 - s) * L)) by (apply Rmult_le_pos; nra).
      nra.
    + assert (Hin : 0 <= q <= 1) by lra.
      rewrite (Hmid Hin) in *.
      pose proof (Rle_0_sqr (s - q)) as Hq. unfold Rsqr in Hq.
      assert (0 <= (s - q) * (s - q) * L) by (apply Rmult_le_pos; lra).
      replace ((s - q) * ((s + q) * L - 2 * (q * L)))
        with ((s - q) * (s - q) * L) in Hdiff by ring.
      lra.
Qed.

Lemma line_snap_distance (worldPos : RPoint) (object : DrawingObject)
  (p1 p2 : Point) (rest : list Point) :
  points object = Some (p1 :: p2 :: rest) ->
  distanceToLineSegment worldPos (toR p1) (toR p2)
  = separation worldPos
      (getConstrainedPosition worldPos (Some (mkCurveInfo object "line"))).
Proof.
  intros Hpts. unfold getConstrainedPosition.
  simpl String.eqb. cbv iota. simpl ci_object. rewrite Hpts.
  unfold distanceToLineSegment.
  set (a := toR p1). set (b := toR p2).
  set (C := rx b - rx a). set (D := ry b - ry a).
  set (A := rx worldPos - rx a). set (B := ry worldPos - ry a).
  destruct (Req_dec_T (C * C + D * D) 0) as [Hzero | Hpos]; [reflexivity |].
  destruct (clamp_unit ((A * C + B * D) / (C * C + D * D)))
    as (Hrange & Hneg & Hbig & Hmid).
  unfold separation. cbn [rx ry].
  destruct (Rlt_dec ((A * C + B * D) / (C * C + D * D)) 0) as [Hlo | Hlo].
  { rewrite (Hneg Hlo). f_equal. ring. }
  destruct (Rlt_dec 1 ((A * C + B * D) / (C * C + D * D))) as [Hhi | Hhi].
  { rewrite (Hbig Hhi). f_equal. unfold C, D. ring. }
  rewrite Hmid by lra. reflexivity.
Qed.



Lemma norm_scaled (x y k : R) :
  sqrt ((x * k) * (x * k) + (y * k) * (y * k)) = sqrt (x * x + y * y) * Rabs k.
Proof.
  replace ((x * k) * (x * k) + (y * k) * (y * k))
    with ((x * x + y * y) * Rsqr k) by (unfold Rsqr; ring).
  rewrite sqrt_mult_alt by apply sum_squares_nonneg. by rewrite sqrt_Rsqr_abs.
Qed.



End CurveFacts.

Section FindCurveFacts.
Local Open Scope R_scope.

Lemma separation_self (p : RPoint) : separation p p = 0.
Proof.
  unfold separation.
  replace ((rx p - rx p) * (rx p - rx p) + (ry p - ry p) * (ry p - ry p))
    with 0 by ring.
  apply sqrt_0.
Qed.

Lemma circle_snap_distance (worldPos : RPoint) (object : DrawingObject) :
  separation worldPos
    (getConstrainedPosition worldPos (Some (mkCurveInfo object "circle")))
  <= Rabs (separation worldPos (toR (position object))
           - Q2R (orDefault (radius object) 30)).
Proof.
  unfold getConstrainedPosition.
  simpl String.eqb. cbv iota. simpl ci_object.
  set (centre := toR (position object)).
  set (r := Q2R (orDefault (radius object) 30)).
  set (dx := rx worldPos - rx centre). set (dy := ry worldPos - ry centre).
  set (d := sqrt (dx * dx + dy * dy)).
  assert (Hsep : separation worldPos centre = d) by reflexivity.
  rewrite Hsep.
  destruct (Req_dec_T d 0) as [Hz | Hnz].
  - destruct (norm_zero dx dy Hz) as [Hx Hy].
    replace centre with worldPos.
    + rewrite separation_self. apply Rabs_pos.
    + destruct worldPos, centre. unfold dx, dy in *. simpl in *. f_equal; lra.
  - assert (Hpos : 0 < d) by (pose proof (sqrt_pos (dx * dx + dy * dy)); fold d in H; lra).
    right. unfold separation. cbn [rx ry].
    replace (rx worldPos - (rx centre + dx * (r / d)))
      with (dx * (1 - r / d)) by (unfold dx; ring).
    replace (ry worldPos - (ry centre + dy * (r / d)))
      with (dy * (1 - r / d)) by (unfold dy; ring).
    rewrite norm_scaled. fold d.
    rewrite <- (Rabs_pos_eq d) at 1 by lra. rewrite <- Rabs_mult.
    f_equal. field. lra.
Qed.



End FindCurveFacts.

Section SnapFacts.
Local Open Scope R_scope.

Variable worldPos : RPoint.
Variable limit : R.

Lemma offer_inv seen st obj point candidate :
  (forall d, st_point (candidate d) = point /\
             st_objectId (candidate d) = obj_id obj /\
             st_distance (candidate d) = d) ->
  snap_inv worldPos limit seen st ->
  snap_inv worldPos limit (seen ++ [(obj, point)])
    (offer worldPos candidate point st).
Proof.
  intros Hcand (Hlim & Hmin & Hfst). unfold offer.
  set (x := separation worldPos (toR point)).
  destruct (Rle_dec x (snd st)) as [Hle | Hgt].
  - (* the candidate replaces the target *)
    destruct (Hcand x) as (Hp & Hid & Hd).
    split; [simpl; lra |]. split.
    + intros c Hc. simpl. apply elem_of_app in Hc as [Hc | Hc].
      * specialize (Hmin c Hc). lra.
      * apply list_elem_of_singleton in Hc as ->. simpl. fold x. lra.
    + simpl. split; [exact Hd |]. split; [by rewrite Hd, Hp |].
      exists (obj, point). split; [apply elem_of_app; right; by left |].
      by rewrite Hp, Hid.
  - assert (Hx : snd st < x) by lra.
    split; [exact Hlim |]. split.
    + intros c Hc. apply elem_of_app in Hc as [Hc | Hc]; [by apply Hmin |].
      apply list_elem_of_singleton in Hc as ->. simpl. fold x. lra.
    + destruct (fst st) as [target |].
      * destruct Hfst as (H1 & H2 & c & Hc & H3).
        split; [exact H1 |]. split; [exact H2 |].
        exists c. split; [apply elem_of_app; by left | exact H3].
      * destruct Hfst as [Heq Hfar]. split; [exact Heq |].
        intros c Hc. apply elem_of_app in Hc as [Hc | Hc]; [by apply Hfar |].
        apply list_elem_of_singleton in Hc as ->. simpl. fold x. lra.
Qed.

Lemma offerPoints_inv obj n pts : forall i seen st,
  snap_inv worldPos limit seen st ->
  snap_inv worldPos limit (seen ++ map (pair obj) pts)
    (offerPoints worldPos obj n i pts st).
Proof.
  induction pts as [| point rest IH]; intros i seen st Hinv; simpl.
  - by rewrite app_nil_r.
  - replace (seen ++ (obj, point) :: map (pair obj) rest)
      with ((seen ++ [(obj, point)]) ++ map (pair obj) rest)
      by (by rewrite <- app_assoc).
    apply IH. apply offer_inv; [| exact Hinv]. intros d. done.
Qed.

Lemma offerObject_inv seen st obj :
  snap_inv worldPos limit seen st ->
  snap_inv worldPos limit (seen ++ candidatesOf obj)
    (offerObject worldPos st obj).
Proof.
  intros Hinv. unfold offerObject, candidatesOf.
  destruct (visible obj); simpl; [| by rewrite app_nil_r].
  rewrite app_assoc.
  assert (Hfirst : snap_inv worldPos limit
            (seen ++ (if ObjType_eqb (obj_type obj) TLine then []
                      else [(obj, position obj)]))
            (if ObjType_eqb (obj_type obj) TLine then st
             else offer worldPos
                    (fun distance =>
                       mkSnapTarget (position obj) (obj_id obj) distance None
                         "position")
                    (position obj) st)).
  { destruct (ObjType_eqb (obj_type obj) TLine); [by rewrite app_nil_r |].
    apply offer_inv; [| exact Hinv]. intros d. done. }
  destruct (points obj) as [pts |]; simpl.
  - by apply offerPoints_inv.
  - by rewrite app_nil_r.
Qed.

Lemma offerObjects_inv objects : forall seen st,
  snap_inv worldPos limit seen st ->
  snap_inv worldPos limit (seen ++ flat_map candidatesOf objects)
    (fold_left (offerObject worldPos) objects st).
Proof.
  induction objects as [| obj rest IH]; intros seen st Hinv; simpl.
  - by rewrite app_nil_r.
  - rewrite app_assoc. apply IH. by apply offerObject_inv.
Qed.

Lemma candidatesOf_spec objects obj p :
  (obj, p) ∈ flat_map candidatesOf objects <->
  obj ∈ objects /\ visible obj = true /\ snapCandidate obj p.
Proof.
  rewrite list_elem_of_In, in_flat_map. unfold candidatesOf, snapCandidate.
  split.
  - intros (o & Ho & Hc). apply list_elem_of_In in Ho, Hc.
    destruct (visible o) eqn:Hv; [| by apply elem_of_nil in Hc].
    apply elem_of_app in Hc as [Hc | Hc].
    + destruct (ObjType_eqb (obj_type o) TLine) eqn:Ht;
        [by apply elem_of_nil in Hc |].
      apply list_elem_of_singleton in Hc. injection Hc as Eo Ep. subst o p.
      split; [done |]. split; [done |]. left. split; [| done].
      intros Hl. rewrite Hl in Ht. done.
    + apply list_elem_of_fmap in Hc as (q & Heq & Hq).
      injection Heq as Eo Ep. subst o q.
      split; [done |]. split; [done |]. right.
      destruct (points obj) as [pts |]; [by exists pts |].
      by apply elem_of_nil in Hq.
  - intros (Ho & Hv & Hc). exists obj. split; [by apply list_elem_of_In |].
    apply list_elem_of_In. rewrite Hv. apply elem_of_app.
    destruct Hc as [[Hl ->] | (pts & Hpts & Hp)].
    + left. destruct (ObjType_eqb (obj_type obj) TLine) eqn:Ht;
        [| by left].
      exfalso. apply Hl. by destruct (obj_type obj).
    + right. rewrite Hpts. simpl. apply list_elem_of_fmap. by exists p.
Qed.

End SnapFacts.

Section SnapTheorem.
Local Open Scope R_scope.



End SnapTheorem.

(** ** The constraint pass, object by object *)

Lemma frame_obj_id o o' : frame o = frame o' -> obj_id o = obj_id o'.
Proof. intros H. apply (f_equal obj_id) in H. by destruct o, o'. Qed.

Lemma find_first_id (objectId : string) (objs : list DrawingObject) k target :
  objs !! k = Some target -> obj_id target = objectId ->
  (forall j o, (j < k)%nat -> objs !! j = Some o -> obj_id o ≠ objectId) ->
  find (fun o => String.eqb (obj_id o) objectId) objs = Some target.
Proof.
  revert k. induction objs as [| o objs IH]; intros k Hk Hid Hfirst; [done |].
  simpl. destruct k as [| k].
  - simpl in Hk. injection Hk as ->. by rewrite Hid, String.eqb_refl.
  - assert (Ho : obj_id o ≠ objectId) by (apply (Hfirst 0%nat); [lia | done]).
    apply String.eqb_neq in Ho. rewrite Ho. apply (IH k); [done | done |].
    intros j o' Hj Ho'. apply (Hfirst (S j)); [lia | done].
Qed.

Lemma find_position (objectId : string) (objs : list DrawingObject) target :
  find (fun o => String.eqb (obj_id o) objectId) objs = Some target ->
  exists k, objs !! k = Some target /\ obj_id target = objectId /\
            forall j o, (j < k)%nat -> objs !! j = Some o ->
                        obj_id o ≠ objectId.
Proof.
  induction objs as [| o objs IH]; [done |]. simpl.
  destruct (String.eqb_spec (obj_id o) objectId) as [Heq | Hne].
  - intros [= ->]. exists 0%nat. split; [done |]. split; [done |]. intros; lia.
  - intros H. destruct (IH H) as (k & Hk & Hid & Hfirst).
    exists (S k). split; [done |]. split; [done |].
    intros [| j] o' Hj Ho'; simpl in Ho'; [by injection Ho' as <- |].
    apply (Hfirst j); [lia | done].
Qed.

Lemma followAll_unconstrained objectId target obj :
  unconstrained objectId obj -> followAll objectId target obj = Some obj.
Proof.
  unfold unconstrained, followAll.
  induction 1 as [| c cs Hc _ IH]; [done |]. simpl.
  apply String.eqb_neq in Hc. by rewrite Hc.
Qed.

Lemma followAll_frame objectId target obj obj' :
  followAll objectId target obj = Some obj' -> frame obj' = frame obj.
Proof.
  unfold followAll. intros H.
  apply (foldl_bind_inv
           (fun o c => if String.eqb (targetId c) objectId
                       then follow c target o else Some o)
           (fun o => frame o = frame obj)
           (default [] (constraints obj)) obj obj'); [done | | exact H].
  intros x c x' Hx _ Hstep.
  destruct (String.eqb (targetId c) objectId); [| by simplify_eq].
  apply follow_frame in Hstep. congruence.
Qed.

Lemma mapM_snoc {A B : Type} (f : A -> option B) (l : list A) (x : A) :
  mapM f (l ++ [x]) = (r ← mapM f l; y ← f x; Some (r ++ [y])).
Proof.
  induction l as [| a l IH]; simpl.
  - by destruct (f x).
  - destruct (f a) as [b |]; simpl; [| done]. rewrite IH.
    destruct (mapM f l) as [r |]; simpl; [| done]. by destruct (f x).
Qed.

Section Pointwise.

Variable objectId : string.
Variable target : DrawingObject.
Variable objs : list DrawingObject.
Variable k : nat.
Hypothesis Hk : objs !! k = Some target.
Hypothesis Hid : obj_id target = objectId.
Hypothesis Hfirst :
  forall j o, (j < k)%nat -> objs !! j = Some o -> obj_id o ≠ objectId.
Hypothesis Hfree : unconstrained objectId target.

(** A draft of the pass: the objects keep their identifiers and the
    followed object is still in its place. *)
Lemma draft_find (d : list DrawingObject) :
  map frame d = map frame objs -> d !! k = Some target ->
  find (fun o => String.eqb (obj_id o) objectId) d = Some target.
Proof.
  intros Hfr Hd. apply (find_first_id objectId d k); [done | done |].
  intros j o Hj Ho.
  assert (Hlen : (j < length objs)%nat)
    by (apply lookup_lt_Some in Hk; lia).
  destruct (lookup_lt_is_Some_2 objs j Hlen) as [o' Ho'].
  assert (Heq : frame o = frame o').
  { apply (f_equal (fun l => l !! j)) in Hfr.
    rewrite !list_lookup_fmap, Ho, Ho' in Hfr. by injection Hfr. }
  rewrite (frame_obj_id _ _ Heq). by apply (Hfirst j).
Qed.

(** The inner loop at [index], on a draft whose object at [index] is
    [obj0] with the constraints [cs] still to apply. *)
Lemma inner_pointwise index (cs : list Constraint) : forall d obj0,
  map frame d = map frame objs ->
  d !! index = Some obj0 ->
  (index ≠ k -> d !! k = Some target) ->
  (index = k -> Forall (fun c => targetId c ≠ objectId) cs) ->
  foldl (fun acc c => a ← acc; applyConstraint objectId index a c) (Some d) cs
  = (o ← foldl (fun acc c =>
                  o ← acc;
                  if String.eqb (targetId c) objectId
                  then follow c target o else Some o) (Some obj0) cs;
     Some (<[index := o]> d)).
Proof.
  induction cs as [| c cs IH]; intros d obj0 Hfr Hd Htarget Hself; simpl.
  - by rewrite list_insert_id.
  - unfold applyConstraint at 2.
    destruct (String.eqb_spec (targetId c) objectId) as [Heq | Hne]; simpl.
    + assert (Hnk : index ≠ k).
      { intros ->. specialize (Hself eq_refl).
        apply Forall_cons in Hself as [Hc _]. done. }
      rewrite (draft_find d Hfr (Htarget Hnk)), Hd.
      destruct (follow c target obj0) as [obj1 |] eqn:Hfollow; simpl.
      * rewrite (IH (<[index := obj1]> d) obj1).
        -- destruct (foldl _ (Some obj1) cs); simpl; [| done].
           by rewrite list_insert_insert_eq.
        -- rewrite list_fmap_insert, <- Hfr.
           apply follow_frame in Hfollow. rewrite Hfollow.
           apply list_insert_id. by rewrite list_lookup_fmap, Hd.
        -- apply list_lookup_insert_eq. by apply lookup_lt_Some in Hd.
        -- intros _. rewrite list_lookup_insert_ne by done. by apply Htarget.
        -- intros ?. done.
      * by rewrite !foldl_bind_none.
    + apply (IH d obj0); [done | done | done |].
      intros Hi. specialize (Hself Hi). by apply Forall_cons in Hself as [_ ?].
Qed.

Lemma pass_prefix (j : nat) :
  (j <= length objs)%nat ->
  foldl
    (fun (draft : option (list DrawingObject)) (index : nat) =>
       d ← draft;
       match d !! index with
       | Some obj =>
           match constraints obj with
           | Some cs =>
               foldl (fun acc c => a ← acc; applyConstraint objectId index a c)
                 (Some d) cs
           | None => Some d
           end
       | None => Some d
       end)
    (Some objs) (seq 0 j)
  = (r ← mapM (followAll objectId target) (take j objs);
     Some (r ++ drop j objs)).
Proof.
  induction j as [| j IH]; intros Hj.
  - simpl. by rewrite drop_0.
  - rewrite seq_S, foldl_app, IH by lia. simpl.
    destruct (lookup_lt_is_Some_2 objs j) as [obj Hobj]; [lia |].
    rewrite (take_S_r _ _ _ Hobj).
    rewrite mapM_snoc.
    destruct (mapM (followAll objectId target) (take j objs)) as [r |] eqn:Hr;
      simpl; [| done].
    assert (Hframe : map frame r = map frame (take j objs)).
    { clear -Hr. revert r Hr.
      induction (take j objs) as [| o l IHl]; intros r Hr; simpl in Hr.
      - by injection Hr as <-.
      - destruct (followAll objectId target o) as [o' |] eqn:Ho; [| done].
        simpl in Hr. destruct (mapM _ l) as [r' |]; [| done].
        injection Hr as <-. simpl. f_equal; [| by apply IHl].
        by apply followAll_frame in Ho. }
    assert (Hlen : length r = j).
    { apply (f_equal length) in Hframe.
      rewrite !length_map, length_take in Hframe. lia. }
    set (d := r ++ drop j objs).
    assert (Hfr : map frame d = map frame objs).
    { unfold d. rewrite map_app, Hframe, <- map_app. by rewrite take_drop. }
    assert (Hd : d !! j = Some obj).
    { unfold d. rewrite lookup_app_r by lia.
      rewrite Hlen, Nat.sub_diag, lookup_drop, Nat.add_0_r. done. }
    assert (Htarget : j ≠ k -> d !! k = Some target).
    { intros Hne. unfold d.
      destruct (Nat.lt_ge_cases k j) as [Hlt | Hge].
      - rewrite lookup_app_l by lia.
        assert (Hkt : take j objs !! k = Some target)
          by (by rewrite lookup_take_lt).
        clear -Hr Hkt Hfree. revert r k Hr Hkt.
        induction (take j objs) as [| o l IHl]; intros r k Hr Hkt; [done |].
        simpl in Hr.
        destruct (followAll objectId target o) as [o' |] eqn:Ho; [| done].
        simpl in Hr. destruct (mapM _ l) as [r' |] eqn:Hl; [| done].
        injection Hr as <-. destruct k as [| k]; simpl in *.
        + injection Hkt as ->.
          rewrite (followAll_unconstrained _ _ _ Hfree) in Ho. done.
        + by apply (IHl _ _ eq_refl).
      - rewrite lookup_app_r by lia. rewrite Hlen, lookup_drop.
        replace (j + (k - j))%nat with k by lia. exact Hk. }
    rewrite Hd.
    assert (Hself : j = k ->
              Forall (fun c => targetId c ≠ objectId)
                (default [] (constraints obj))).
    { intros ->. rewrite Hk in Hobj. injection Hobj as <-. exact Hfree. }
    unfold followAll.
    destruct (constraints obj) as [cs |] eqn:Hcs; simpl.
    + rewrite (inner_pointwise j cs d obj Hfr Hd Htarget Hself).
      destruct (foldl _ (Some obj) cs) as [o' |]; simpl; [| done].
      f_equal. unfold d.
      rewrite insert_app_r_alt by lia. rewrite Hlen, Nat.sub_diag.
      rewrite (drop_S _ _ _ Hobj). simpl. by rewrite <- app_assoc.
    + f_equal. unfold d. rewrite (drop_S _ _ _ Hobj). by rewrite <- app_assoc.
Qed.

End Pointwise.

Lemma constraintPass_pointwise_aux (objectId : string)
  (objs : list DrawingObject) :
  (forall target,
     find (fun o => String.eqb (obj_id o) objectId) objs = Some target ->
     unconstrained objectId target ->
     constraintPass objectId objs = mapM (followAll objectId target) objs) /\
  (find (fun o => String.eqb (obj_id o) objectId) objs = None ->
   constraintPass objectId objs = Some objs).
Proof.
  split.
  - intros target Hfind Hfree.
    destruct (find_position objectId objs target Hfind) as (k & Hk & Hid & Hfirst).
    unfold constraintPass.
    rewrite (pass_prefix objectId target objs k Hk Hid Hfirst Hfree
               (length objs) (Nat.le_refl _)).
    rewrite firstn_all, drop_all.
    destruct (mapM _ objs) as [r |]; simpl; [| done]. by rewrite app_nil_r.
  - intros Hnone. apply constraintPass_dangling.
    apply Forall_forall. intros o Ho Heq.
    apply list_elem_of_In in Ho.
    apply (find_none _ _ Hnone) in Ho. rewrite Heq, String.eqb_refl in Ho. done.
Qed.

(** X27.  When the moved object carries no constraint on
    itself, the constraint pass treats every object on its own: each is
    replaced by what its constraints on the moved object make of it, the
    moved object being the same throughout.  When no object has the given
    id the pass changes nothing. *)
Theorem constraintPass_pointwise (objectId : string)
  (objs : list DrawingObject) :
  (forall target,
     find (fun o => String.eqb (obj_id o) objectId) objs = Some target ->
     unconstrained objectId target ->
     constraintPass objectId objs = mapM (followAll objectId target) objs /\
     (forall objs', constraintPass objectId objs = Some objs' ->
        Forall2 (fun obj obj' => followAll objectId target obj = Some obj')
          objs objs')) /\
  (find (fun o => String.eqb (obj_id o) objectId) objs = None ->
   constraintPass objectId objs = Some objs).
Proof.
  destruct (constraintPass_pointwise_aux objectId objs) as [Hsome Hnone].
  split; [| exact Hnone]. intros target Hfind Hfree.
  rewrite (Hsome target Hfind Hfree). split; [done |].
  generalize objs. clear. intros objs.
  induction objs as [| o objs IH]; intros objs' H; simpl in H.
  - injection H as <-. constructor.
  - destruct (followAll objectId target o) as [o' |] eqn:Ho; [| done].
    simpl in H. destruct (mapM _ objs) as [r |]; [| done].
    injection H as <-. constructor; [done | by apply IH].
Qed.

Lemma constraintPass_pointwise_witness :
  let objs := [followedPoint; constrained center disc] in
  find (fun o => String.eqb (obj_id o) "T") objs = Some followedPoint /\
  unconstrained "T" followedPoint /\
  constraintPass "T" objs = mapM (followAll "T" followedPoint) objs.
Proof.
  intros objs.
  assert (H1 : find (fun o => String.eqb (obj_id o) "T") objs
               = Some followedPoint) by reflexivity.
  assert (H2 : unconstrained "T" followedPoint) by constructor.
  split; [exact H1 |]. split; [exact H2 |].
  exact (proj1 (proj1 (constraintPass_pointwise "T" objs) followedPoint H1 H2)).
Defined.

(** ** A second pass changes nothing *)

Lemma frame_obj_type o o' : frame o' = frame o -> obj_type o' = obj_type o.
Proof. destruct o, o'. unfold frame. simpl. intros [=]. by subst. Qed.

Lemma followFrom_cons objectId target c cs obj :
  followFrom objectId target (c :: cs) obj
  = (o ← (if String.eqb (targetId c) objectId then follow c target obj
          else Some obj);
     followFrom objectId target cs o).
Proof.
  unfold followFrom. simpl.
  destruct (if String.eqb (targetId c) objectId then follow c target obj
            else Some obj); simpl; [done |].
  apply foldl_bind_none.
Qed.

Lemma followFrom_noop objectId target cs r :
  Forall (fun c => targetId c = objectId -> follow c target r = Some r) cs ->
  followFrom objectId target cs r = Some r.
Proof.
  induction 1 as [| c cs Hc _ IH]; [done |].
  rewrite followFrom_cons.
  destruct (String.eqb_spec (targetId c) objectId) as [Heq | Hne]; simpl.
  - by rewrite (Hc Heq).
  - exact IH.
Qed.

(** Objects that are neither circles nor lines follow nothing. *)
Lemma follow_other c target o :
  obj_type o ≠ TCircle -> obj_type o ≠ TLine -> follow c target o = Some o.
Proof.
  intros H1 H2. unfold follow.
  destruct (c_type c), (obj_type o); try done.
Qed.

Lemma follow_no_points c target o :
  obj_type o = TLine -> points o = None -> follow c target o = Some o.
Proof. intros Ht Hp. unfold follow. rewrite Ht, Hp. by destruct (c_type c). Qed.

(** Circles: the last [center] constraint wins. *)
Lemma followFrom_circle objectId target cs :
  exists v : option Point,
    forall o, obj_type o = TCircle ->
      followFrom objectId target cs o
      = Some (match v with Some p => set_position p o | None => o end).
Proof.
  induction cs as [| c cs (v & IH)].
  - exists None. done.
  - destruct (String.eqb (targetId c) objectId) eqn:Hrel.
    + destruct (c_type c) eqn:Hc.
      * (* center *)
        set (w := match offset c with
                  | Some off => mkPoint (px (position target) + px off)
                                  (py (position target) + py off)
                  | None => position target
                  end).
        exists (Some (match v with Some p => p | None => w end)).
        intros o Ho. rewrite followFrom_cons, Hrel. unfold follow.
        rewrite Hc, Ho. simpl. fold w.
        rewrite IH by by destruct o. destruct v; by destruct o.
      * exists v. intros o Ho. rewrite followFrom_cons, Hrel. unfold follow.
        rewrite Hc, Ho. simpl. by apply IH.
      * exists v. intros o Ho. rewrite followFrom_cons, Hrel. unfold follow.
        rewrite Hc, Ho. simpl. by apply IH.
    + exists v. intros o Ho. rewrite followFrom_cons, Hrel. simpl. by apply IH.
Qed.

(** Lines: every slot written once holds the same position from then on. *)
Lemma array_set_lookup {A : Type} (i : nat) (v : A) arr arr' :
  array_set i v arr = Some arr' ->
  arr' !! i = Some v /\
  (forall j x, j ≠ i -> arr !! j = Some x -> arr' !! j = Some x).
Proof.
  unfold array_set. destruct (i <? length arr)%nat eqn:E1.
  - apply Nat.ltb_lt in E1. intros [= <-]. split.
    + by apply list_lookup_insert_eq.
    + intros j x Hj Hx. by rewrite list_lookup_insert_ne.
  - destruct (i =? length arr)%nat eqn:E2; [| done].
    apply Nat.eqb_eq in E2. intros [= <-]. split.
    + rewrite lookup_app_r by lia. by rewrite E2, Nat.sub_diag.
    + intros j x Hj Hx. by apply lookup_app_l_Some.
Qed.

Lemma array_set_same {A : Type} (i : nat) (v : A) arr :
  arr !! i = Some v -> array_set i v arr = Some arr.
Proof.
  intros H. unfold array_set.
  assert (Hlt : (i < length arr)%nat) by by apply lookup_lt_Some in H.
  apply Nat.ltb_lt in Hlt. rewrite Hlt. by rewrite list_insert_id.
Qed.

Lemma wrote_noop c target o :
  obj_type o = TLine -> wrote (position target) c o ->
  follow c target o = Some o.
Proof.
  intros Ht Hw. unfold follow, wrote in *. rewrite Ht.
  destruct (c_type c); [done | |].
  - destruct Hw as (Hpos & pts & Hpts & H0). rewrite Hpts.
    rewrite (array_set_same _ _ _ H0). simpl.
    destruct o. simpl in *. by subst.
  - destruct Hw as (pts & Hpts & H1). rewrite Hpts.
    rewrite (array_set_same _ _ _ H1). simpl.
    destruct o. simpl in *. by subst.
Qed.

Lemma follow_line c target o o' :
  obj_type o = TLine -> points o ≠ None -> follow c target o = Some o' ->
  obj_type o' = TLine /\ points o' ≠ None /\
  wrote (position target) c o' /\
  (forall c0, wrote (position target) c0 o -> wrote (position target) c0 o').
Proof.
  intros Ht Hp Hf.
  destruct (points o) as [pts |] eqn:Hpts; [clear Hp | done].
  unfold follow in Hf. rewrite Ht, Hpts in Hf. unfold wrote.
  destruct (c_type c) eqn:Hc.
  - injection Hf as <-. rewrite Hpts. done.
  - destruct (array_set 0 (position target) pts) as [pts' |] eqn:Hset;
      [| done].
    injection Hf as <-. apply array_set_lookup in Hset as [H0 Hkeep].
    assert (Hpoints : points (set_position (position target)
                                (set_points (Some pts') o)) = Some pts')
      by by destruct o.
    assert (Hposition : position (set_position (position target)
                                    (set_points (Some pts') o))
                        = position target) by by destruct o.
    split; [by destruct o |]. split; [by rewrite Hpoints |].
    split; [split; [done | by exists pts'] |].
    intros c0. destruct (c_type c0).
    + done.
    + intros _. split; [done | by exists pts'].
    + intros (pts0 & Hpts0 & H1). exists pts'. split; [done |].
      rewrite Hpts in Hpts0. injection Hpts0 as <-. by apply Hkeep.
  - destruct (array_set 1 (position target) pts) as [pts' |] eqn:Hset;
      [| done].
    injection Hf as <-. apply array_set_lookup in Hset as [H1 Hkeep].
    assert (Hpoints : points (set_points (Some pts') o) = Some pts')
      by by destruct o.
    assert (Hposition : position (set_points (Some pts') o) = position o)
      by by destruct o.
    split; [by destruct o |]. split; [by rewrite Hpoints |].
    split; [by exists pts' |].
    intros c0. destruct (c_type c0).
    + done.
    + intros (Hpos & pts0 & Hpts0 & H0).
      split; [congruence |]. exists pts'. split; [done |].
      rewrite Hpts in Hpts0. injection Hpts0 as <-. by apply Hkeep.
    + intros _. by exists pts'.
Qed.

Lemma followFrom_line objectId target cs : forall o r,
  obj_type o = TLine -> points o ≠ None ->
  followFrom objectId target cs o = Some r ->
  obj_type r = TLine /\
  Forall (fun c => targetId c = objectId -> wrote (position target) c r) cs /\
  (forall c0, wrote (position target) c0 o -> wrote (position target) c0 r).
Proof.
  induction cs as [| c cs IH]; intros o r Ht Hp Hrun.
  - injection Hrun as <-. done.
  - rewrite followFrom_cons in Hrun.
    destruct (String.eqb_spec (targetId c) objectId) as [Heq | Hne].
    + destruct (follow c target o) as [o1 |] eqn:Hf; [| done]. simpl in Hrun.
      destruct (follow_line c target o o1 Ht Hp Hf) as (Ht1 & Hp1 & Hw1 & Hk1).
      destruct (IH o1 r Ht1 Hp1 Hrun) as (Htr & Hall & Hkeep).
      split; [done |]. split.
      * constructor; [intros _; by apply Hkeep | done].
      * intros c0 H0. by apply Hkeep, Hk1.
    + simpl in Hrun. destruct (IH o r Ht Hp Hrun) as (Htr & Hall & Hkeep).
      split; [done |]. split; [| done]. constructor; [done | done].
Qed.

Lemma followFrom_idem objectId target cs obj r :
  followFrom objectId target cs obj = Some r ->
  followFrom objectId target cs r = Some r.
Proof.
  intros Hrun.
  assert (Hc : obj_type obj = TCircle \/ obj_type obj ≠ TCircle)
    by (destruct (obj_type obj); (by left) || (by right)).
  assert (Hl : obj_type obj = TLine \/ obj_type obj ≠ TLine)
    by (destruct (obj_type obj); (by left) || (by right)).
  destruct Hc as [Hcircle | Hnc].
  { destruct (followFrom_circle objectId target cs) as (v & Hv).
    rewrite (Hv obj Hcircle) in Hrun. injection Hrun as <-.
    rewrite Hv by (by destruct v, obj). destruct v; by destruct obj. }
  destruct Hl as [Hline | Hnl].
  2:{ assert (Hsame : forall o, obj_type o = obj_type obj ->
                followFrom objectId target cs o = Some o).
      { intros o Ho. apply followFrom_noop, Forall_forall. intros c _ _.
        apply follow_other; congruence. }
      rewrite Hsame in Hrun by done. injection Hrun as <-. by apply Hsame. }
  destruct (points obj) as [pts |] eqn:Hpts.
  - assert (Hp : points obj ≠ None) by congruence.
    destruct (followFrom_line objectId target cs obj r Hline Hp Hrun)
      as (Htr & Hall & _).
    apply followFrom_noop. eapply Forall_impl; [exact Hall |].
    intros c Hc Hrel. apply wrote_noop; [done | by apply Hc].
  - assert (Hsame : followFrom objectId target cs obj = Some obj).
    { apply followFrom_noop, Forall_forall. intros c _ _.
      by apply follow_no_points. }
    rewrite Hsame in Hrun. injection Hrun as <-. exact Hsame.
Qed.

Lemma followAll_idem objectId target obj r :
  followAll objectId target obj = Some r ->
  followAll objectId target r = Some r.
Proof.
  intros Hrun. pose proof (followAll_frame _ _ _ _ Hrun) as Hfr.
  apply frame_constraints in Hfr.
  unfold followAll in *. rewrite Hfr.
  by apply (followFrom_idem objectId target _ obj).
Qed.

Lemma mapM_idem {A : Type} (f : A -> option A) (l l' : list A) :
  (forall x y, f x = Some y -> f y = Some y) ->
  mapM f l = Some l' -> mapM f l' = Some l'.
Proof.
  intros Hf. revert l'. induction l as [| x l IH]; intros l' H; simpl in H.
  - by injection H as <-.
  - destruct (f x) as [y |] eqn:Hx; [| done]. simpl in H.
    destruct (mapM f l) as [r |]; [| done]. injection H as <-.
    simpl. rewrite (Hf _ _ Hx). simpl. by rewrite (IH r).
Qed.

(** X28.  When the moved object carries no constraint on
    itself, a second constraint pass for it changes nothing. *)
Theorem updateConstrainedObjects_idempotent (objectId : string)
  (s s' : AppState) :
  (forall target, getObjectById objectId s = Some target ->
                  unconstrained objectId target) ->
  updateConstrainedObjects objectId s = Some s' ->
  updateConstrainedObjects objectId s' = Some s'.
Proof.
  unfold updateConstrainedObjects, getObjectById. intros Hfree Hrun.
  destruct (constraintPass objectId (objects s)) as [objs' |] eqn:Hpass;
    [| done].
  injection Hrun as <-. store_simpl.
  assert (Hagain : constraintPass objectId objs' = Some objs').
  { destruct (find (fun o => String.eqb (obj_id o) objectId) (objects s))
      as [target |] eqn:Hfind.
    - specialize (Hfree target eq_refl).
      destruct (find_position objectId (objects s) target Hfind)
        as (k & Hk & Hid & Hfirst).
      pose proof (constraintPass_frame _ _ _ Hpass) as [Hfr Hkeep].
      pose proof (draft_find objectId target (objects s) k Hk Hid Hfirst
                    objs' Hfr (Hkeep _ _ Hk Hfree)) as Hfind'.
      rewrite (proj1 (constraintPass_pointwise_aux objectId (objects s))
                 target Hfind Hfree) in Hpass.
      rewrite (proj1 (constraintPass_pointwise_aux objectId objs')
                 target Hfind' Hfree).
      eapply mapM_idem; [| exact Hpass].
      intros x y. apply followAll_idem.
    - assert (Hsame : objs' = objects s).
      { rewrite (proj2 (constraintPass_pointwise_aux objectId (objects s)) Hfind)
          in Hpass. by injection Hpass. }
      rewrite Hsame.
      exact (proj2 (constraintPass_pointwise_aux objectId (objects s)) Hfind). }
  rewrite Hagain. simpl. f_equal. by destruct s.
Qed.

Lemma updateConstrainedObjects_idempotent_witness :
  exists s',
    (forall target, getObjectById "T" constrainedScene = Some target ->
                    unconstrained "T" target) /\
    updateConstrainedObjects "T" constrainedScene = Some s' /\
    updateConstrainedObjects "T" s' = Some s'.
Proof.
  assert (Hfree : forall target,
            getObjectById "T" constrainedScene = Some target ->
            unconstrained "T" target).
  { intros target [= <-]. constructor. }
  destruct (updateConstrainedObjects "T" constrainedScene) as [s' |] eqn:Hrun.
  - exists s'. split; [exact Hfree |]. split; [reflexivity |].
    exact (updateConstrainedObjects_idempotent "T" constrainedScene s'
             Hfree Hrun).
  - vm_compute in Hrun. discriminate Hrun.
Defined.

Section CoordinateFacts.
Local Open Scope Q_scope.

Lemma toFixedNumber_proper d x y :
  x == y -> toFixedNumber d x == toFixedNumber d y.
Proof.
  intros H. apply Qle_antisym; apply toFixedNumber_mono; lra.
Qed.

Lemma toFixedScaled_near d v :
  Qabs v * inject_Z (pow10 d) - 0.5 < inject_Z (toFixedScaled d v)
  /\ inject_Z (toFixedScaled d v) <= Qabs v * inject_Z (pow10 d) + 0.5.
Proof.
  unfold toFixedScaled.
  set (a := Qabs v * inject_Z (pow10 d)).
  pose proof (Qfloor_le (a + 0.5)) as Hlo.
  pose proof (Qlt_floor (a + 0.5)) as Hhi.
  rewrite inject_Z_plus in Hhi. change (inject_Z 1) with 1 in Hhi.
  set (f := inject_Z (Qfloor (a + 0.5))) in *. clearbody f a.
  split; lra.
Qed.

Lemma toFixedNumber_error d v :
  Qabs (toFixedNumber d v - v) * inject_Z (pow10 d) <= 0.5.
Proof.
  pose proof (pow10_posQ d) as Hp.
  destruct (toFixedScaled_near d v) as [Hlo Hhi].
  set (n := inject_Z (toFixedScaled d v)) in *.
  set (p := inject_Z (pow10 d)) in *.
  assert (Hmag : (n / p - Qabs v) * p == n - Qabs v * p) by (field; lra).
  unfold toFixedNumber. fold n p.
  destruct (Qltb v 0) eqn:Es.
  - apply Qltb_lt in Es. rewrite (Qabs_neg v) in * by lra.
    apply Qabs_case; intros _.
    + setoid_replace ((- (n / p) - v) * p) with (- ((n / p - - v) * p))
        using relation Qeq by ring.
      rewrite Hmag. lra.
    + setoid_replace (- (- (n / p) - v) * p) with ((n / p - - v) * p)
        using relation Qeq by ring.
      rewrite Hmag. lra.
  - apply Qltb_ge in Es. rewrite (Qabs_pos v) in * by lra.
    apply Qabs_case; intros _.
    + rewrite Hmag. lra.
    + setoid_replace (- (n / p - v) * p) with (- ((n / p - v) * p))
        using relation Qeq by ring.
      rewrite Hmag. lra.
Qed.

Lemma toFixedNumber_odd d v : toFixedNumber d (- v) == - toFixedNumber d v.
Proof.
  pose proof (pow10_posQ d) as Hp.
  assert (Hs : toFixedScaled d (- v) = toFixedScaled d v).
  { unfold toFixedScaled. apply Qfloor_comp. by rewrite Qabs_opp. }
  unfold toFixedNumber. rewrite Hs.
  destruct (Qltb (- v) 0) eqn:E1, (Qltb v 0) eqn:E2;
    rewrite ?Qltb_lt, ?Qltb_ge in *; try lra; try reflexivity.
  assert (Hv : v == 0) by lra.
  assert (Hz : toFixedScaled d v = 0%Z).
  { unfold toFixedScaled. apply Qfloor_unique.
    - rewrite Hv. change (Qabs 0) with 0. change (inject_Z 0) with 0. lra.
    - rewrite Hv. change (Qabs 0) with 0. change (inject_Z 0) with 0. lra. }
  rewrite Hz. change (inject_Z 0) with 0. field. lra.
Qed.



End CoordinateFacts.

Section PrintedCoordinates.
Local Open Scope Q_scope.

Lemma append_empty (str : string) : (str +:+ "")%string = str.
Proof.
  induction str as [| c str IH]; [done |].
  change (String c (str +:+ "") = String c str). by rewrite IH.
Qed.

Lemma Qeq_bool_false a b : ~ a == b -> Qeq_bool a b = false.
Proof.
  intros H. destruct (Qeq_bool a b) eqn:E; [| done].
  apply Qeq_bool_iff in E. done.
Qed.

Lemma Qeq_bool_true a b : a == b -> Qeq_bool a b = true.
Proof. apply Qeq_bool_iff. Qed.

(** Whole numbers print without a fraction. *)
Lemma formatCoord_whole (value : Q) (k : Z) :
  value == inject_Z k -> formatCoord value = pretty k.
Proof.
  intros Hv. unfold formatCoord.
  assert (Hfloor : Qfloor value = k) by (rewrite (Qfloor_comp _ _ Hv); apply Qfloor_Z).
  rewrite (Qeq_bool_true value (floor value))
    by (unfold floor; by rewrite Hfloor).
  unfold toFixed. change (pow10 0) with 1%Z. simpl Nat.eqb. cbv iota.
  assert (Hn : toFixedScaled 0 value = Z.abs k).
  { unfold toFixedScaled. change (inject_Z (pow10 0)) with 1.
    assert (Ha : Qabs value == inject_Z (Z.abs k)).
    { rewrite Hv. reflexivity. }
    apply Qfloor_unique; rewrite Ha; lra. }
  rewrite Hn, Z.div_1_r, append_empty.
  destruct k as [| p | p].
  - assert (Hs : Qltb value 0 = false) by (apply Qltb_ge; rewrite Hv; done).
    by rewrite Hs.
  - assert (Hs : Qltb value 0 = false) by (apply Qltb_ge; rewrite Hv; done).
    by rewrite Hs.
  - assert (Hs : Qltb value 0 = true) by (apply Qltb_lt; rewrite Hv; done).
    by rewrite Hs.
Qed.

(** Odd halves print with one decimal. *)
Lemma formatCoord_half (value : Q) (k : Z) :
  (0 <= k)%Z -> Qabs value == inject_Z k + 0.5 ->
  formatCoord value
  = ((if Qltb value 0 then "-" else "") +:+ pretty k +:+ ".5")%string.
Proof.
  intros Hk Ha. unfold formatCoord.
  assert (Hk' : 0 <= inject_Z k)
    by (change 0 with (inject_Z 0); by rewrite <- Zle_Qle).
  assert (Hcases : value == inject_Z k + 0.5 \/ value == - (inject_Z k + 0.5)).
  { revert Ha. apply Qabs_case; intros Hs Ha; [left | right]; lra. }
  rewrite (Qeq_bool_false value (floor value)).
  2:{ unfold floor. destruct Hcases as [Hc | Hc].
      - assert (Hf : Qfloor value = k) by (apply Qfloor_unique; lra).
        rewrite Hf. lra.
      - assert (Hf : Qfloor value = (- k + -1)%Z).
        { apply Qfloor_unique; rewrite inject_Z_plus, inject_Z_opp;
            change (inject_Z (-1)) with (-1); change (inject_Z 1) with 1; lra. }
        rewrite Hf, inject_Z_plus, inject_Z_opp.
        change (inject_Z (-1)) with (-1). change (inject_Z 1) with 1. lra. }
  rewrite (Qeq_bool_true (value * 2) (floor (value * 2))).
  2:{ unfold floor. destruct Hcases as [Hc | Hc].
      - assert (Hf : Qfloor (value * 2) = (2 * k + 1)%Z).
        { apply Qfloor_unique; rewrite inject_Z_plus, inject_Z_mult;
            change (inject_Z 2) with 2; change (inject_Z 1) with 1; lra. }
        rewrite Hf, inject_Z_plus, inject_Z_mult.
        change (inject_Z 2) with 2. change (inject_Z 1) with 1. lra.
      - assert (Hf : Qfloor (value * 2) = (- (2 * k + 1))%Z).
        { apply Qfloor_unique;
            rewrite inject_Z_opp, inject_Z_plus, inject_Z_mult;
            change (inject_Z 2) with 2; change (inject_Z 1) with 1; lra. }
        rewrite Hf, inject_Z_opp, inject_Z_plus, inject_Z_mult.
        change (inject_Z 2) with 2. change (inject_Z 1) with 1. lra. }
  unfold toFixed. change (pow10 1) with 10%Z. simpl Nat.eqb. cbv iota.
  assert (Hn : toFixedScaled 1 value = (10 * k + 5)%Z).
  { unfold toFixedScaled. change (inject_Z (pow10 1)) with 10.
    apply Qfloor_unique; rewrite Ha, inject_Z_plus, inject_Z_mult;
      change (inject_Z 10) with 10; change (inject_Z 5) with 5; lra. }
  rewrite Hn.
  replace ((10 * k + 5) / 10)%Z with k
    by (apply (Z.div_unique _ _ k 5); lia).
  replace ((10 * k + 5) mod 10)%Z with 5%Z
    by (apply (Z.mod_unique _ _ k 5); lia).
  reflexivity.
Qed.



End PrintedCoordinates.
